(** * Authentication and session core of the task manager API

    A shallow embedding of [backend/models/User.js], [backend/models/Session.js],
    [backend/middleware/auth.js] and [backend/routes/auth.js].

    Conventions of the embedding.
    - Instants are milliseconds since the epoch, in [Z].  Every clock read made
      while one request is served returns the same value [now].
    - A MongoDB collection is the list of its documents in insertion order.
      [findOne] returns the first match together with its position; a write to
      a loaded document goes to that position and touches only the paths the
      code modified, as Mongoose's [save] and [updateOne] do.
    - Keyed digests are symbolic: a JWT is the record of its claims together
      with a flag telling whether its signature verifies under the secret of
      its kind, the SHA-256 digest of a refresh token is the token under a
      constructor, and a bcrypt hash is the plain text under a constructor.
      Signing is deterministic, as HS256 is: equal claims give equal tokens.
    - The values drawn by [crypto.randomUUID] and by the ObjectId generator
      are inputs of the request.
    - The routes are modelled from the point where the throttle and the
      express-validator chain have let the request through, and the documents
      they save pass the validators of the schemas.
    - One request is served at a time.  The touch of [lastAccessedAt] that the
      middleware starts without awaiting it is taken to be written before the
      route behind it runs.
    - A session document has the paths its schema declares and [createdAt],
      which the risk score reads; the [updatedAt] stamp that the store keeps
      for itself is left out. *)

From Stdlib Require Import ZArith Lia.
From stdpp Require Import base decidable option list strings gmap.

Local Open Scope Z_scope.

(** ** Environment ([process.env]) *)

Record Env := {
  JWT_EXPIRES_IN : option Z;          (* lifetime of an access token, seconds *)
  JWT_REFRESH_EXPIRES_IN : option Z;  (* lifetime of a refresh token, seconds *)
  MAX_LOGIN_ATTEMPTS : option Z;      (* parseInt of the variable; None is NaN *)
  ACCOUNT_LOCK_TIME : option Z;
  SESSION_MAX_CONCURRENT : option Z
}.

(** [parseInt(x) || d]: NaN and 0 are falsy. *)
Definition parseInt_or (x : option Z) (d : Z) : Z :=
  match x with
  | Some n => if bool_decide (n = 0) then d else n
  | None => d
  end.

Definition access_lifetime (env : Env) : Z := default (30 * 60) (JWT_EXPIRES_IN env).
Definition refresh_lifetime (env : Env) : Z :=
  default (7 * 24 * 60 * 60) (JWT_REFRESH_EXPIRES_IN env).
Definition maxAttempts (env : Env) : Z := parseInt_or (MAX_LOGIN_ATTEMPTS env) 5.
Definition lockTime (env : Env) : Z := parseInt_or (ACCOUNT_LOCK_TIME env) (30 * 60 * 1000).

Definition default_env : Env :=
  {| JWT_EXPIRES_IN := None; JWT_REFRESH_EXPIRES_IN := None;
     MAX_LOGIN_ATTEMPTS := None; ACCOUNT_LOCK_TIME := None;
     SESSION_MAX_CONCURRENT := None |}.

(** ** Tokens *)

Record AccessToken := {
  at_sig_ok : bool;       (* verifies under JWT_SECRET *)
  at_userId : string;
  at_sessionId : string;
  at_username : string;
  at_email : string;
  at_iat : Z;             (* seconds *)
  at_exp : Z
}.

Record RefreshToken := {
  rt_sig_ok : bool;       (* verifies under JWT_REFRESH_SECRET *)
  rt_userId : string;
  rt_sessionId : string;
  rt_tokenFamily : string;
  rt_iat : Z;
  rt_exp : Z
}.

Global Instance AccessToken_eq_dec : EqDecision AccessToken.
Proof. solve_decision. Defined.
Global Instance RefreshToken_eq_dec : EqDecision RefreshToken.
Proof. solve_decision. Defined.

(** [jwt.sign]: [iat] is the clock in whole seconds, [exp] is [iat] plus the
    configured lifetime. *)
Definition generateAccessToken (env : Env) (now : Z)
    (userId sessionId username email : string) : AccessToken :=
  {| at_sig_ok := true; at_userId := userId; at_sessionId := sessionId;
     at_username := username; at_email := email;
     at_iat := now / 1000; at_exp := now / 1000 + access_lifetime env |}.

Definition generateRefreshToken (env : Env) (now : Z)
    (userId sessionId tokenFamily : string) : RefreshToken :=
  {| rt_sig_ok := true; rt_userId := userId; rt_sessionId := sessionId;
     rt_tokenFamily := tokenFamily;
     rt_iat := now / 1000; rt_exp := now / 1000 + refresh_lifetime env |}.

Inductive JwtError := TokenExpiredError | JsonWebTokenError.

(** [jwt.verify]: the signature is checked first, then the expiry
    ([clock >= exp] is expired). *)
Definition jwt_verify (now : Z) (sig_ok : bool) (exp : Z) : option JwtError :=
  if negb sig_ok then Some JsonWebTokenError
  else if bool_decide (exp <= now / 1000) then Some TokenExpiredError
  else None.

Inductive Digest := Sha256 (t : RefreshToken).
Global Instance Digest_eq_dec : EqDecision Digest.
Proof. solve_decision. Defined.

Inductive PasswordHash := Bcrypt (plain : string).
Global Instance PasswordHash_eq_dec : EqDecision PasswordHash.
Proof. solve_decision. Defined.

Definition bcrypt_compare (candidate : string) (h : PasswordHash) : bool :=
  match h with Bcrypt p => bool_decide (candidate = p) end.

(** ** JSON objects, as far as the serialised user needs them *)

Inductive JValue :=
| JStr (s : string)
| JNum (n : Z)
| JBool (b : bool)
| JDate (t : Z)
| JNull
| JStrs (l : list string)
| JHash (h : PasswordHash).

Definition JObject := list (string * JValue).

(** [delete obj.key] *)
Definition js_delete (key : string) (o : JObject) : JObject :=
  filter (λ kv, kv.1 ≠ key) o.

Definition has_key (key : string) (o : JObject) : bool :=
  bool_decide (key ∈ o.*1).

Definition is_hash (v : JValue) : bool :=
  match v with JHash _ => true | _ => false end.

Definition carries_hash (o : JObject) : bool :=
  existsb (λ kv, is_hash kv.2) o.

Definition opt_date (o : option Z) : JValue :=
  match o with Some t => JDate t | None => JNull end.

(** ** The User model *)

Module User.

Record t := mk {
  _id : string;
  username : string;
  email : string;
  password : PasswordHash;
  firstName : string;
  lastName : string;
  failedLoginAttempts : Z;
  accountLockedUntil : option Z;
  lastLoginAt : option Z;
  passwordChangedAt : option Z;
  activeSessions : list string;
  maxConcurrentSessions : Z;
  isEmailVerified : bool;
  isActive : bool;
  twoFactorEnabled : bool;
  emailNotifications : bool
}.

Definition set_password (v : PasswordHash) (u : t) : t :=
  mk (_id u) (username u) (email u) v (firstName u) (lastName u)
     (failedLoginAttempts u) (accountLockedUntil u) (lastLoginAt u)
     (passwordChangedAt u) (activeSessions u) (maxConcurrentSessions u)
     (isEmailVerified u) (isActive u) (twoFactorEnabled u) (emailNotifications u).

Definition set_failedLoginAttempts (v : Z) (u : t) : t :=
  mk (_id u) (username u) (email u) (password u) (firstName u) (lastName u)
     v (accountLockedUntil u) (lastLoginAt u)
     (passwordChangedAt u) (activeSessions u) (maxConcurrentSessions u)
     (isEmailVerified u) (isActive u) (twoFactorEnabled u) (emailNotifications u).

Definition set_accountLockedUntil (v : option Z) (u : t) : t :=
  mk (_id u) (username u) (email u) (password u) (firstName u) (lastName u)
     (failedLoginAttempts u) v (lastLoginAt u)
     (passwordChangedAt u) (activeSessions u) (maxConcurrentSessions u)
     (isEmailVerified u) (isActive u) (twoFactorEnabled u) (emailNotifications u).

Definition set_lastLoginAt (v : option Z) (u : t) : t :=
  mk (_id u) (username u) (email u) (password u) (firstName u) (lastName u)
     (failedLoginAttempts u) (accountLockedUntil u) v
     (passwordChangedAt u) (activeSessions u) (maxConcurrentSessions u)
     (isEmailVerified u) (isActive u) (twoFactorEnabled u) (emailNotifications u).

Definition set_passwordChangedAt (v : option Z) (u : t) : t :=
  mk (_id u) (username u) (email u) (password u) (firstName u) (lastName u)
     (failedLoginAttempts u) (accountLockedUntil u) (lastLoginAt u)
     v (activeSessions u) (maxConcurrentSessions u)
     (isEmailVerified u) (isActive u) (twoFactorEnabled u) (emailNotifications u).

Definition set_activeSessions (v : list string) (u : t) : t :=
  mk (_id u) (username u) (email u) (password u) (firstName u) (lastName u)
     (failedLoginAttempts u) (accountLockedUntil u) (lastLoginAt u)
     (passwordChangedAt u) v (maxConcurrentSessions u)
     (isEmailVerified u) (isActive u) (twoFactorEnabled u) (emailNotifications u).

(** [new User(userData)] with the schema defaults. *)
Definition create (env : Env) (now : Z) (id uname mail : string)
    (pw : PasswordHash) (first last : string) : t :=
  {| _id := id; username := uname; email := mail; password := pw;
     firstName := first; lastName := last;
     failedLoginAttempts := 0; accountLockedUntil := None;
     lastLoginAt := None; passwordChangedAt := Some now;
     activeSessions := [];
     maxConcurrentSessions := parseInt_or (SESSION_MAX_CONCURRENT env) 5;
     isEmailVerified := false; isActive := true;
     twoFactorEnabled := false; emailNotifications := true |}.

(** virtual [isLocked] *)
Definition isLocked (now : Z) (u : t) : bool :=
  match accountLockedUntil u with
  | Some l => bool_decide (now < l)
  | None => false
  end.

(** virtual [fullName]; the empty string is falsy *)
Definition fullName (u : t) : string :=
  if bool_decide (firstName u ≠ "" ∧ lastName u ≠ "")
  then firstName u +:+ " " +:+ lastName u
  else if bool_decide (firstName u ≠ "") then firstName u
  else if bool_decide (lastName u ≠ "") then lastName u
  else username u.

(** Pre-save hook, on a document that is not new and whose password path
    was assigned the plain text [plain]. *)
Definition pre_save_password (now : Z) (plain : string) (u : t) : t :=
  set_passwordChangedAt (Some (now - 1000)) (set_password (Bcrypt plain) u).

Definition comparePassword (candidate : string) (u : t) : bool :=
  bcrypt_compare candidate (password u).

(** [parseInt(x / 1000, 10)] truncates towards zero. *)
Definition changedPasswordAfter (JWTTimestamp : Z) (u : t) : bool :=
  match passwordChangedAt u with
  | Some changed =>
      let changedTimestamp := Z.quot changed 1000 in
      bool_decide (JWTTimestamp < changedTimestamp)
  | None => false
  end.

(** [incLoginAttempts]: the branch is chosen on the loaded document [doc];
    the result is the update that [updateOne] applies to the stored one. *)
Definition incLoginAttempts (env : Env) (now : Z) (doc : t) : t → t :=
  let lock_has_expired :=
    match accountLockedUntil doc with
    | Some l => bool_decide (l < now)
    | None => false
    end in
  if lock_has_expired
  then λ stored, set_failedLoginAttempts 1 (set_accountLockedUntil None stored)
  else
    if bool_decide (maxAttempts env <= failedLoginAttempts doc + 1)
       && negb (isLocked now doc)
    then λ stored,
           set_accountLockedUntil (Some (now + lockTime env))
             (set_failedLoginAttempts (failedLoginAttempts stored + 1) stored)
    else λ stored, set_failedLoginAttempts (failedLoginAttempts stored + 1) stored.

(** [$unset] of both paths; an absent counter reads as its default 0. *)
Definition resetLoginAttempts (stored : t) : t :=
  set_failedLoginAttempts 0 (set_accountLockedUntil None stored).

(** [arr.slice(start)] *)
Definition js_slice (start : Z) (l : list string) : list string :=
  if bool_decide (start < 0)
  then drop (Z.to_nat (Z.max (Z.of_nat (length l) + start) 0)) l
  else drop (Z.to_nat start) l.

(** The session list that [addSession] computes on the loaded document. *)
Definition addSession_list (sessionId : string) (doc : t) : list string :=
  let l := filter (λ id, id ≠ sessionId) (activeSessions doc) ++ [sessionId] in
  if bool_decide (maxConcurrentSessions doc < Z.of_nat (length l))
  then js_slice (- maxConcurrentSessions doc) l
  else l.

Definition addSession (now : Z) (sessionId : string) (doc : t) : t → t :=
  λ stored, set_lastLoginAt (Some now)
              (set_activeSessions (addSession_list sessionId doc) stored).

Definition removeSession (sessionId : string) (doc : t) : t → t :=
  set_activeSessions (filter (λ id, id ≠ sessionId) (activeSessions doc)).

Definition removeAllSessions : t → t := set_activeSessions [].

(** [toJSON] with virtuals, followed by the schema's transform, which
    deletes [password] and [__v].  [selected] tells whether the document was
    loaded with its password path. *)
Definition toObject (now : Z) (selected : bool) (u : t) : JObject :=
  [("_id", JStr (_id u)); ("username", JStr (username u)); ("email", JStr (email u))]
  ++ (if selected then [("password", JHash (password u))] else [])
  ++ [("firstName", JStr (firstName u)); ("lastName", JStr (lastName u));
      ("failedLoginAttempts", JNum (failedLoginAttempts u));
      ("accountLockedUntil", opt_date (accountLockedUntil u));
      ("lastLoginAt", opt_date (lastLoginAt u));
      ("passwordChangedAt", opt_date (passwordChangedAt u));
      ("activeSessions", JStrs (activeSessions u));
      ("maxConcurrentSessions", JNum (maxConcurrentSessions u));
      ("isEmailVerified", JBool (isEmailVerified u));
      ("isActive", JBool (isActive u));
      ("twoFactorEnabled", JBool (twoFactorEnabled u));
      ("emailNotifications", JBool (emailNotifications u));
      ("__v", JNum 0);
      ("isLocked", JBool (isLocked now u));
      ("fullName", JStr (fullName u));
      ("id", JStr (_id u))].

Definition toJSON (now : Z) (selected : bool) (u : t) : JObject :=
  js_delete "__v" (js_delete "password" (toObject now selected u)).

End User.

(** ** The Session model *)

Record DeviceInfo := {
  userAgent : string;
  ip : string;
  location : string;
  deviceFingerprint : string
}.

(** [getDeviceInfo]: absent headers read as "Unknown".  The fingerprint is
    the base64 text of "userAgent-ip"; the encoding is left symbolic and the
    text itself is kept (it is never empty). *)
Definition getDeviceInfo (ua addr country : option string) : DeviceInfo :=
  let userAgent := default "Unknown" ua in
  let ip := default "Unknown" addr in
  {| userAgent := userAgent; ip := ip;
     location := default "Unknown" country;
     deviceFingerprint := userAgent +:+ "-" +:+ ip |}.

(** Values of the metadata map: a literal, or the ISO-8601 text of an instant. *)
Inductive MetaValue := Text (s : string) | ISOString (t : Z).

Module Session.

Record t := mk {
  userId : string;
  sessionId : string;
  refreshTokenHash : Digest;
  tokenFamily : string;
  deviceInfo : DeviceInfo;
  isActive : bool;
  expiresAt : Z;
  lastAccessedAt : Z;
  loginMethod : string;
  riskScore : Z;
  metadata : gmap string MetaValue;
  createdAt : Z
}.

Definition set_refreshTokenHash (v : Digest) (s : t) : t :=
  mk (userId s) (sessionId s) v (tokenFamily s) (deviceInfo s) (isActive s)
     (expiresAt s) (lastAccessedAt s) (loginMethod s) (riskScore s)
     (metadata s) (createdAt s).

Definition set_isActive (v : bool) (s : t) : t :=
  mk (userId s) (sessionId s) (refreshTokenHash s) (tokenFamily s) (deviceInfo s) v
     (expiresAt s) (lastAccessedAt s) (loginMethod s) (riskScore s)
     (metadata s) (createdAt s).

Definition set_expiresAt (v : Z) (s : t) : t :=
  mk (userId s) (sessionId s) (refreshTokenHash s) (tokenFamily s) (deviceInfo s)
     (isActive s) v (lastAccessedAt s) (loginMethod s) (riskScore s)
     (metadata s) (createdAt s).

Definition set_lastAccessedAt (v : Z) (s : t) : t :=
  mk (userId s) (sessionId s) (refreshTokenHash s) (tokenFamily s) (deviceInfo s)
     (isActive s) (expiresAt s) v (loginMethod s) (riskScore s)
     (metadata s) (createdAt s).

Definition set_riskScore (v : Z) (s : t) : t :=
  mk (userId s) (sessionId s) (refreshTokenHash s) (tokenFamily s) (deviceInfo s)
     (isActive s) (expiresAt s) (lastAccessedAt s) (loginMethod s) v
     (metadata s) (createdAt s).

Definition set_metadata (v : gmap string MetaValue) (s : t) : t :=
  mk (userId s) (sessionId s) (refreshTokenHash s) (tokenFamily s) (deviceInfo s)
     (isActive s) (expiresAt s) (lastAccessedAt s) (loginMethod s) (riskScore s)
     v (createdAt s).

Definition hour : Z := 1000 * 60 * 60.

(** [calculateRiskScore].  The source divides the elapsed milliseconds by
    [hour] and compares the quotient with a whole number of hours; on
    integers that is the comparison of the elapsed time with that many
    hours. *)
Definition calculateRiskScore (now : Z) (s : t) : Z :=
  let age := now - createdAt s in
  let score1 :=
    if bool_decide (24 * 7 * hour < age) then 20
    else if bool_decide (24 * hour < age) then 10 else 0 in
  let inactive := now - lastAccessedAt s in
  let score2 :=
    if bool_decide (24 * hour < inactive) then score1 + 15
    else if bool_decide (6 * hour < inactive) then score1 + 5 else score1 in
  let score3 :=
    if bool_decide (deviceFingerprint (deviceInfo s) = "") then score2 + 10 else score2 in
  Z.min score3 100.

(** Pre-save hook: [modified] tells whether [lastAccessedAt] is modified or
    the document is new. *)
Definition pre_save (now : Z) (modified : bool) (s : t) : t :=
  if modified then set_riskScore (calculateRiskScore now s) s else s.

(** [updateLastAccessed]: assign, then save.  Mongoose marks the path as
    modified when the assigned instant differs from the loaded one. *)
Definition updateLastAccessed (now : Z) (s : t) : t :=
  pre_save now (bool_decide (lastAccessedAt s ≠ now)) (set_lastAccessedAt now s).

Definition deactivate (now : Z) (reason : string) (s : t) : t :=
  set_metadata
    (<["deactivatedAt" := ISOString now]>
       (<["deactivationReason" := Text reason]> (metadata s)))
    (set_isActive false s).

Definition extend (now : Z) (additionalTime : Z) (s : t) : t :=
  set_expiresAt (now + additionalTime) s.

(** virtual [isExpired] *)
Definition isExpired (now : Z) (s : t) : bool := bool_decide (expiresAt s < now).

(** [new Session({...})] followed by the first [save]. *)
Definition create (now : Z) (uid sid : string) (h : Digest) (fam : string)
    (dev : DeviceInfo) (expires : Z) : t :=
  pre_save now true
    {| userId := uid; sessionId := sid; refreshTokenHash := h; tokenFamily := fam;
       deviceInfo := dev; isActive := true; expiresAt := expires;
       lastAccessedAt := now; loginMethod := "password"; riskScore := 0;
       metadata := ∅; createdAt := now |}.

(** [revokeAllForUser], as the update of one document of the collection. *)
Definition revoke (now : Z) (reason : string) (uid : string) (s : t) : t :=
  if bool_decide (userId s = uid ∧ isActive s = true)
  then set_metadata
         (<["deactivatedAt" := ISOString now]>
            (<["deactivationReason" := Text reason]> (metadata s)))
         (set_isActive false s)
  else s.

Definition revokeAllForUser (now : Z) (uid reason : string) (l : list t) : list t :=
  revoke now reason uid <$> l.

(** [detectTokenReuse]: the query, and the update it triggers. *)
Definition other_active_in_family (fam current : string) (s : t) : Prop :=
  tokenFamily s = fam ∧ isActive s = true ∧ sessionId s ≠ current.

Definition mark_breach (now : Z) (fam : string) (s : t) : t :=
  if bool_decide (tokenFamily s = fam)
  then set_metadata
         (<["breachDetectedAt" := ISOString now]>
            (<["securityBreach" := Text "token_reuse_detected"]> (metadata s)))
         (set_riskScore 100 (set_isActive false s))
  else s.

Definition detectTokenReuse (now : Z) (fam current : string) (l : list t)
    : list t * bool :=
  if bool_decide (filter (other_active_in_family fam current) l ≠ [])
  then (mark_breach now fam <$> l, true)
  else (l, false).

End Session.

(** ** The store and the responses *)

Record Store := { users : list User.t; sessions : list Session.t }.

Definition with_users (f : list User.t → list User.t) (db : Store) : Store :=
  {| users := f (users db); sessions := sessions db |}.
Definition with_sessions (f : list Session.t → list Session.t) (db : Store) : Store :=
  {| users := users db; sessions := f (sessions db) |}.

Inductive Code :=
| TOKEN_MISSING | TOKEN_EXPIRED | TOKEN_INVALID | SESSION_INVALID | USER_NOT_FOUND
| ACCOUNT_DEACTIVATED | ACCOUNT_LOCKED | PASSWORD_CHANGED | AUTH_ERROR
| USER_EXISTS | DUPLICATE_KEY | REGISTRATION_ERROR
| INVALID_CREDENTIALS | LOGIN_ERROR
| REFRESH_TOKEN_MISSING | REFRESH_TOKEN_INVALID | TOKEN_REUSE_DETECTED | REFRESH_ERROR
| LOGOUT_ERROR | LOGOUT_ALL_ERROR | PROFILE_ERROR | SESSIONS_ERROR
| SESSION_NOT_FOUND | REVOKE_SESSION_ERROR
| INVALID_CURRENT_PASSWORD | CHANGE_PASSWORD_ERROR.

Global Instance Code_eq_dec : EqDecision Code.
Proof. solve_decision. Defined.

Record Tokens := {
  accessToken : AccessToken;
  refreshToken : RefreshToken;
  expiresIn : Z
}.

(** The [session] member of a body and the items of [GET /sessions]. *)
Record SessionView := {
  view_id : string;
  view_deviceInfo : option DeviceInfo;
  view_lastAccessedAt : option Z;
  view_createdAt : option Z;
  view_expiresAt : Z;
  view_isCurrent : option bool
}.

Record Response := {
  status : Z;
  success : bool;
  code : option Code;
  body_user : option JObject;
  body_tokens : option Tokens;
  body_session : option SessionView;
  body_sessions : option (list SessionView);
  body_lockedUntil : option Z
}.

Definition failure (st : Z) (c : Code) : Response :=
  {| status := st; success := false; code := Some c; body_user := None;
     body_tokens := None; body_session := None; body_sessions := None;
     body_lockedUntil := None |}.

Definition succeed (st : Z) (u : option JObject) (tk : option Tokens)
    (sv : option SessionView) (svs : option (list SessionView)) : Response :=
  {| status := st; success := true; code := None; body_user := u;
     body_tokens := tk; body_session := sv; body_sessions := svs;
     body_lockedUntil := None |}.

(** ** The request gate ([middleware/auth.js]) *)

Inductive Gate :=
| Rejected (db : Store) (r : Response)
| Passed (db : Store) (ui : nat) (user : User.t) (si : nat) (session : Session.t).

Definition gate_query (now : Z) (token : AccessToken) (s : Session.t) : Prop :=
  Session.sessionId s = at_sessionId token ∧ Session.userId s = at_userId token
  ∧ Session.isActive s = true ∧ now < Session.expiresAt s.

Definition authenticate (now : Z) (db : Store) (bearer : option AccessToken) : Gate :=
  match bearer with
  | None => Rejected db (failure 401 TOKEN_MISSING)
  | Some token =>
    match jwt_verify now (at_sig_ok token) (at_exp token) with
    | Some TokenExpiredError => Rejected db (failure 401 TOKEN_EXPIRED)
    | Some JsonWebTokenError => Rejected db (failure 401 TOKEN_INVALID)
    | None =>
      match list_find (gate_query now token) (sessions db) with
      | None => Rejected db (failure 401 SESSION_INVALID)
      | Some (si, session) =>
        match list_find (λ u, User._id u = at_userId token) (users db) with
        | None => Rejected db (failure 401 USER_NOT_FOUND)
        | Some (ui, user) =>
          if negb (User.isActive user) then Rejected db (failure 401 ACCOUNT_DEACTIVATED)
          else if User.isLocked now user then Rejected db (failure 401 ACCOUNT_LOCKED)
          else if User.changedPasswordAfter (at_iat token) user then
            Rejected
              (with_sessions (alter (Session.deactivate now "password_changed") si) db)
              (failure 401 PASSWORD_CHANGED)
          else
            (* the touch of lastAccessedAt is started and not awaited *)
            Passed (with_sessions (alter (Session.updateLastAccessed now) si) db)
                   ui user si (Session.updateLastAccessed now session)
        end
      end
    end
  end.

(** ** The routes ([routes/auth.js]) *)

Record Headers := {
  h_userAgent : option string;
  h_ip : option string;
  h_country : option string
}.

Definition device_of (h : Headers) : DeviceInfo :=
  getDeviceInfo (h_userAgent h) (h_ip h) (h_country h).

Definition day : Z := 24 * 60 * 60 * 1000.

(** [createUserSession].  [None] is the duplicate-key error that the unique
    index on [sessionId] raises in [session.save()]. *)
Definition createUserSession (env : Env) (now : Z) (db : Store) (ui : nat)
    (user : User.t) (h : Headers) (rememberMe : bool) (sessionId tokenFamily : string)
    : option (Store * User.t * Tokens * Session.t) :=
  let deviceInfo := device_of h in
  let accessToken :=
    generateAccessToken env now (User._id user) sessionId
      (User.username user) (User.email user) in
  let refreshToken := generateRefreshToken env now (User._id user) sessionId tokenFamily in
  let refreshTokenHash := Sha256 refreshToken in
  let expiryTime := if rememberMe then 30 * day else 7 * day in
  let session :=
    Session.create now (User._id user) sessionId refreshTokenHash tokenFamily
      deviceInfo (now + expiryTime) in
  if bool_decide (sessionId ∈ Session.sessionId <$> sessions db) then None
  else
    let db1 := with_sessions (λ l, l ++ [session]) db in
    let db2 := with_users (alter (User.addSession now sessionId user) ui) db1 in
    Some (db2, User.addSession now sessionId user user,
          {| accessToken := accessToken; refreshToken := refreshToken;
             expiresIn := access_lifetime env |},
          session).

Definition login_view (s : Session.t) : SessionView :=
  {| view_id := Session.sessionId s; view_deviceInfo := None;
     view_lastAccessedAt := None; view_createdAt := None;
     view_expiresAt := Session.expiresAt s; view_isCurrent := None |}.

Definition register (env : Env) (now : Z) (db : Store)
    (username email password firstName lastName : string)
    (newUserId newSessionId newTokenFamily : string) (h : Headers) : Store * Response :=
  match list_find (λ u, User.email u = email ∨ User.username u = username) (users db) with
  | Some _ => (db, failure 409 USER_EXISTS)
  | None =>
    if bool_decide (newUserId ∈ User._id <$> users db)
    then (db, failure 409 DUPLICATE_KEY)
    else
      let user :=
        User.create env now newUserId username email (Bcrypt password) firstName lastName in
      let db1 := with_users (λ l, l ++ [user]) db in
      match createUserSession env now db1 (length (users db)) user h false
              newSessionId newTokenFamily with
      | None => (db1, failure 409 DUPLICATE_KEY)
      | Some (db2, user', tokens, session) =>
          let userResponse := js_delete "password" (User.toJSON now true user') in
          (db2, succeed 201 (Some userResponse) (Some tokens)
                  (Some (login_view session)) None)
      end
  end.

Definition login (env : Env) (now : Z) (db : Store)
    (email password : string) (rememberMe : bool)
    (newSessionId newTokenFamily : string) (h : Headers) : Store * Response :=
  match list_find (λ u, User.email u = email) (users db) with
  | None => (db, failure 401 INVALID_CREDENTIALS)
  | Some (ui, user) =>
    if User.isLocked now user then
      (db, {| status := 423; success := false; code := Some ACCOUNT_LOCKED;
              body_user := None; body_tokens := None; body_session := None;
              body_sessions := None;
              body_lockedUntil := User.accountLockedUntil user |})
    else if negb (User.isActive user) then (db, failure 401 ACCOUNT_DEACTIVATED)
    else if negb (User.comparePassword password user) then
      (with_users (alter (User.incLoginAttempts env now user) ui) db,
       failure 401 INVALID_CREDENTIALS)
    else
      let db1 :=
        if bool_decide (0 < User.failedLoginAttempts user)
        then with_users (alter User.resetLoginAttempts ui) db
        else db in
      match createUserSession env now db1 ui user h rememberMe
              newSessionId newTokenFamily with
      | None => (db1, failure 500 LOGIN_ERROR)
      | Some (db2, user', tokens, session) =>
          let userResponse := js_delete "password" (User.toJSON now true user') in
          (db2, succeed 200 (Some userResponse) (Some tokens)
                  (Some (login_view session)) None)
      end
  end.

Definition refresh_query (now : Z) (token : RefreshToken) (s : Session.t) : Prop :=
  Session.sessionId s = rt_sessionId token ∧ Session.refreshTokenHash s = Sha256 token
  ∧ Session.isActive s = true ∧ now < Session.expiresAt s.

(** The write of [session.save()] at the end of a refresh. *)
Definition rotate (now : Z) (loaded : Session.t) (newHash : Digest) (stored : Session.t)
    : Session.t :=
  Session.pre_save now (bool_decide (Session.lastAccessedAt loaded ≠ now))
    (Session.set_lastAccessedAt now (Session.set_refreshTokenHash newHash stored)).

Definition refresh (env : Env) (now : Z) (db : Store)
    (presented : option RefreshToken) : Store * Response :=
  match presented with
  | None => (db, failure 401 REFRESH_TOKEN_MISSING)
  | Some token =>
    match jwt_verify now (rt_sig_ok token) (rt_exp token) with
    | Some _ => (db, failure 401 REFRESH_TOKEN_INVALID)
    | None =>
      match list_find (refresh_query now token) (sessions db) with
      | None => (db, failure 401 SESSION_INVALID)
      | Some (si, session) =>
        let '(sessions1, tokenReuseDetected) :=
          Session.detectTokenReuse now (rt_tokenFamily token) (rt_sessionId token)
            (sessions db) in
        if tokenReuseDetected
        then (with_sessions (λ _, sessions1) db, failure 401 TOKEN_REUSE_DETECTED)
        else
          (* populate("userId"); a missing owner makes the handler throw *)
          match list_find (λ u, User._id u = Session.userId session) (users db) with
          | None => (db, failure 500 REFRESH_ERROR)
          | Some (_, owner) =>
            let newAccessToken :=
              generateAccessToken env now (User._id owner) (Session.sessionId session)
                (User.username owner) (User.email owner) in
            let newRefreshToken :=
              generateRefreshToken env now (User._id owner) (Session.sessionId session)
                (rt_tokenFamily token) in
            (with_sessions (alter (rotate now session (Sha256 newRefreshToken)) si) db,
             succeed 200 None
               (Some {| accessToken := newAccessToken; refreshToken := newRefreshToken;
                        expiresIn := access_lifetime env |})
               None None)
          end
      end
    end
  end.

Definition logout (now : Z) (db : Store) (bearer : option AccessToken) : Store * Response :=
  match authenticate now db bearer with
  | Rejected db' r => (db', r)
  | Passed db1 ui user si session =>
    let db2 := with_sessions (alter (Session.deactivate now "user_logout") si) db1 in
    let db3 :=
      with_users (alter (User.removeSession (Session.sessionId session) user) ui) db2 in
    (db3, succeed 200 None None None None)
  end.

Definition logout_all (now : Z) (db : Store) (bearer : option AccessToken)
    : Store * Response :=
  match authenticate now db bearer with
  | Rejected db' r => (db', r)
  | Passed db1 ui user si session =>
    let db2 :=
      with_sessions (Session.revokeAllForUser now (User._id user) "user_logout_all") db1 in
    let db3 := with_users (alter User.removeAllSessions ui) db2 in
    (db3, succeed 200 None None None None)
  end.

Definition me (now : Z) (db : Store) (bearer : option AccessToken) : Store * Response :=
  match authenticate now db bearer with
  | Rejected db' r => (db', r)
  | Passed db1 ui user si session =>
    (db1, succeed 200 (Some (User.toJSON now false user)) None
            (Some {| view_id := Session.sessionId session;
                     view_deviceInfo := Some (Session.deviceInfo session);
                     view_lastAccessedAt := Some (Session.lastAccessedAt session);
                     view_createdAt := None;
                     view_expiresAt := Session.expiresAt session;
                     view_isCurrent := None |})
            None)
  end.

Definition findActiveByUser (now : Z) (uid : string) (l : list Session.t)
    : list Session.t :=
  filter (λ s, Session.userId s = uid ∧ Session.isActive s = true
               ∧ now < Session.expiresAt s) l.

Definition list_sessions (now : Z) (db : Store) (bearer : option AccessToken)
    : Store * Response :=
  match authenticate now db bearer with
  | Rejected db' r => (db', r)
  | Passed db1 ui user si session =>
    let item (s : Session.t) :=
      {| view_id := Session.sessionId s;
         view_deviceInfo := Some (Session.deviceInfo s);
         view_lastAccessedAt := Some (Session.lastAccessedAt s);
         view_createdAt := Some (Session.createdAt s);
         view_expiresAt := Session.expiresAt s;
         view_isCurrent :=
           Some (bool_decide (Session.sessionId s = Session.sessionId session)) |} in
    (db1, succeed 200 None None None
            (Some (item <$> findActiveByUser now (User._id user) (sessions db1))))
  end.

Definition revoke_session (now : Z) (db : Store) (bearer : option AccessToken)
    (sessionId : string) : Store * Response :=
  match authenticate now db bearer with
  | Rejected db' r => (db', r)
  | Passed db1 ui user si session =>
    match list_find (λ s, Session.sessionId s = sessionId
                          ∧ Session.userId s = User._id user
                          ∧ Session.isActive s = true) (sessions db1) with
    | None => (db1, failure 404 SESSION_NOT_FOUND)
    | Some (sj, _) =>
      let db2 := with_sessions (alter (Session.deactivate now "user_revoked") sj) db1 in
      let db3 := with_users (alter (User.removeSession sessionId user) ui) db2 in
      (db3, succeed 200 None None None None)
    end
  end.

(** The [updateMany] of the change-password route, on one document. *)
Definition revoke_other (uid current : string) (s : Session.t) : Session.t :=
  if bool_decide (Session.userId s = uid ∧ Session.isActive s = true
                  ∧ Session.sessionId s ≠ current)
  then Session.set_metadata
         (<["deactivationReason" := Text "password_changed"]> (Session.metadata s))
         (Session.set_isActive false s)
  else s.

Definition change_password (now : Z) (db : Store) (bearer : option AccessToken)
    (currentPassword newPassword : string) : Store * Response :=
  match authenticate now db bearer with
  | Rejected db' r => (db', r)
  | Passed db1 _ requester si session =>
    match list_find (λ u, User._id u = User._id requester) (users db1) with
    | None => (db1, failure 500 CHANGE_PASSWORD_ERROR)
    | Some (ui, user) =>
      if negb (User.comparePassword currentPassword user)
      then (db1, failure 400 INVALID_CURRENT_PASSWORD)
      else
        let db2 := with_users (alter (User.pre_save_password now newPassword) ui) db1 in
        let db3 :=
          with_sessions
            (fmap (revoke_other (User._id user) (Session.sessionId session))) db2 in
        (db3, succeed 200 None None None None)
    end
  end.

(** ** Requests and runs *)

Inductive Request :=
| PostRegister (username email password firstName lastName : string)
    (newUserId newSessionId newTokenFamily : string) (h : Headers)
| PostLogin (email password : string) (rememberMe : bool)
    (newSessionId newTokenFamily : string) (h : Headers)
| PostRefresh (presented : option RefreshToken)
| PostLogout (bearer : option AccessToken)
| PostLogoutAll (bearer : option AccessToken)
| GetMe (bearer : option AccessToken)
| GetSessions (bearer : option AccessToken)
| DeleteSession (bearer : option AccessToken) (sessionId : string)
| PutChangePassword (bearer : option AccessToken) (currentPassword newPassword : string).

Definition handle (env : Env) (now : Z) (db : Store) (req : Request) : Store * Response :=
  match req with
  | PostRegister username email password firstName lastName uid sid fam h =>
      register env now db username email password firstName lastName uid sid fam h
  | PostLogin email password rememberMe sid fam h =>
      login env now db email password rememberMe sid fam h
  | PostRefresh presented => refresh env now db presented
  | PostLogout bearer => logout now db bearer
  | PostLogoutAll bearer => logout_all now db bearer
  | GetMe bearer => me now db bearer
  | GetSessions bearer => list_sessions now db bearer
  | DeleteSession bearer sessionId => revoke_session now db bearer sessionId
  | PutChangePassword bearer currentPassword newPassword =>
      change_password now db bearer currentPassword newPassword
  end.

(** A run: the requests are served one after the other, each at its instant. *)
Fixpoint run (env : Env) (db : Store) (trace : list (Z * Request)) : Store :=
  match trace with
  | [] => db
  | (now, req) :: rest => run env (handle env now db req).1 rest
  end.

Definition empty_store : Store := {| users := []; sessions := [] |}.

(** * Statements: relations, runs and scenarios *)

(** [session_step now s s']: what a request served at [now] may have done to
    the stored session [s]. *)
Record session_step (now : Z) (s s' : Session.t) : Prop := {
  step_userId : Session.userId s' = Session.userId s;
  step_sessionId : Session.sessionId s' = Session.sessionId s;
  step_tokenFamily : Session.tokenFamily s' = Session.tokenFamily s;
  step_deviceInfo : Session.deviceInfo s' = Session.deviceInfo s;
  step_expiresAt : Session.expiresAt s' = Session.expiresAt s;
  step_createdAt : Session.createdAt s' = Session.createdAt s;
  step_loginMethod : Session.loginMethod s' = Session.loginMethod s;
  step_inactive : Session.isActive s = false → Session.isActive s' = false;
  step_hash :
    Session.refreshTokenHash s' = Session.refreshTokenHash s
    ∨ ∃ tok, Session.refreshTokenHash s' = Sha256 tok ∧ rt_iat tok = now / 1000
}.

(** A session that a request served at [now] has just created. *)
Definition session_new (now : Z) (s : Session.t) : Prop :=
  Session.createdAt s = now
  ∧ ∃ tok, Session.refreshTokenHash s = Sha256 tok ∧ rt_iat tok = now / 1000.

Definition evolve (now : Z) (l l' : list Session.t) : Prop :=
  Forall2 (session_step now) l l'.

Definition sessions_step (now : Z) (l l' : list Session.t) : Prop :=
  ∃ l1 new, l' = l1 ++ new ∧ evolve now l l1 ∧ Forall (session_new now) new.

Definition alice : User.t :=
  User.create default_env 1000000 "u1" "alice" "alice@x.com" (Bcrypt "Passw0rd1") "" "".

Definition hides_password (r : Response) : Prop :=
  match body_user r with
  | Some o => has_key "password" o = false ∧ carries_hash o = false
  | None => True
  end.

Definition fresh_session (now lifetime : Z) (db db' : Store) : Prop :=
  ∃ s, sessions db' = sessions db ++ [s]
       ∧ Session.createdAt s = now
       ∧ Session.expiresAt s = Session.createdAt s + lifetime.

Definition curl : Headers :=
  {| h_userAgent := Some "curl/8.4"; h_ip := Some "10.0.0.7"; h_country := None |}.

(** alice registers at 1000000 ms *)
Definition registered : Store * Response :=
  handle default_env 1000000 empty_store
    (PostRegister "alice" "alice@x.com" "Passw0rd1" "" "" "u1" "s1" "f1" curl).

Definition rotated (now : Z) (newToken : RefreshToken) (risk : Z) (s : Session.t)
    : Session.t :=
  Session.set_riskScore risk
    (Session.set_lastAccessedAt now
       (Session.set_refreshTokenHash (Sha256 newToken) s)).


Definition first_refresh_token : RefreshToken :=
  generateRefreshToken default_env 1000000 "u1" "s1" "f1".
Definition first_access_token : AccessToken :=
  generateAccessToken default_env 1000000 "u1" "s1" "alice" "alice@x.com".



Fixpoint responses (env : Env) (db : Store) (trace : list (Z * Request)) : list Response :=
  match trace with
  | [] => []
  | (now, req) :: rest =>
      (handle env now db req).2 :: responses env (handle env now db req).1 rest
  end.

(** The account of [email] in a store, with its position. *)
Definition account (email : string) (db : Store) : option (nat * User.t) :=
  list_find (λ u, User.email u = email) (users db).

(** A login request for [email] whose password does not match [h]. *)
Definition wrong_login (email : string) (h : PasswordHash) (p : Z * Request) : Prop :=
  match p.2 with
  | PostLogin e pw _ _ _ _ => e = email ∧ bcrypt_compare pw h = false
  | _ => False
  end.

Definition refused : Response := failure 401 INVALID_CREDENTIALS.

Definition locked_out (until : option Z) : Response :=
  {| status := 423; success := false; code := Some ACCOUNT_LOCKED;
     body_user := None; body_tokens := None; body_session := None;
     body_sessions := None; body_lockedUntil := until |}.

(** alice as stored by her registration *)
Definition alice_registered : User.t :=
  Eval vm_compute in default alice (head (users registered.1)).

Definition wrong (now : Z) : Z * Request :=
  (now, PostLogin "alice@x.com" "letmein" false "s9" "f9" curl).

(** No stored session with the session id of [old] has the digest of [old]. *)
Definition rotated_away (old : RefreshToken) (l : list Session.t) : Prop :=
  Forall (λ s, Session.sessionId s = rt_sessionId old
               → Session.refreshTokenHash s ≠ Sha256 old) l.

(** alice refreshes five seconds after registering *)
Definition refreshed : Store * Response :=
  refresh default_env 1005000 registered.1 (Some first_refresh_token).

(** alice logs in on a second device at 2000000 ms and asks to be remembered *)
Definition remembered : Store * Response :=
  handle default_env 2000000 registered.1
    (PostLogin "alice@x.com" "Passw0rd1" true "s2" "f2" curl).
Definition remembered_refresh_token : RefreshToken :=
  generateRefreshToken default_env 2000000 "u1" "s2" "f2".

Definition bearer_of (req : Request) : option (option AccessToken) :=
  match req with
  | PostLogout b | PostLogoutAll b | GetMe b | GetSessions b
  | DeleteSession b _ | PutChangePassword b _ _ => Some b
  | _ => None
  end.

(** alice logs in on a second device one minute after registering *)
Definition second_login : Store * Response :=
  handle default_env 1060000 registered.1
    (PostLogin "alice@x.com" "Passw0rd1" false "s2" "f2" curl).
Definition second_access_token : AccessToken :=
  generateAccessToken default_env 1060000 "u1" "s2" "alice" "alice@x.com".

(** one minute later she changes her password from the second device *)
Definition password_changed : Store * Response :=
  change_password 1120000 second_login.1 (Some second_access_token)
    "Passw0rd1" "N3wPassw0rd".


(** * The rest of the middleware, the models and the routes *)

(** ** The login throttle ([authRateLimit]) *)

Module RateLimit.

(** The value kept for one address: [{ count, firstAttempt }]. *)
Record entry := mk { count : Z; firstAttempt : Z }.

End RateLimit.

(** The map of the closure, keyed by [req.ip || req.connection.remoteAddress]
    ([None] is [undefined]). *)
Abbreviation Attempts := (gmap (option string) RateLimit.entry).

Inductive Throttle := Next | TooMany (retryAfter : Z).

(** [Math.ceil(x / 1000)] on an integer [x]. *)
Definition ceil_seconds (x : Z) : Z := (x + 999) / 1000.

Definition authRateLimit (maxAttempts windowMinutes : Z) (now : Z) (ip : option string)
    (attempts : Attempts) : Attempts * Throttle :=
  let windowMs := windowMinutes * 60 * 1000 in
  (* Clean old entries *)
  let attempts :=
    filter (λ kv, ¬ (windowMs < now - RateLimit.firstAttempt kv.2)) attempts in
  match attempts !! ip with
  | None => (<[ip := RateLimit.mk 1 now]> attempts, Next)
  | Some ipAttempts =>
    if bool_decide (windowMs < now - RateLimit.firstAttempt ipAttempts)
    then (<[ip := RateLimit.mk 1 now]> attempts, Next)
    else if bool_decide (maxAttempts <= RateLimit.count ipAttempts)
    then (attempts,
          TooMany (ceil_seconds (RateLimit.firstAttempt ipAttempts + windowMs - now)))
    else (<[ip := RateLimit.mk (RateLimit.count ipAttempts + 1)
                    (RateLimit.firstAttempt ipAttempts)]> attempts, Next)
  end.

(** The requests of one address, served at the given instants. *)
Fixpoint throttle_run (maxAttempts windowMinutes : Z) (ip : option string)
    (instants : list Z) (attempts : Attempts) : Attempts * list Throttle :=
  match instants with
  | [] => (attempts, [])
  | now :: rest =>
      let out := authRateLimit maxAttempts windowMinutes now ip attempts in
      let outs := throttle_run maxAttempts windowMinutes ip rest out.1 in
      (outs.1, out.2 :: outs.2)
  end.

(** What a request does to the entry of its own address, whatever else the
    map holds. *)
Definition throttle_entry (maxAttempts windowMs now : Z) (e : option RateLimit.entry)
    : option RateLimit.entry * Throttle :=
  match e with
  | Some e =>
    if bool_decide (windowMs < now - RateLimit.firstAttempt e)
    then (Some (RateLimit.mk 1 now), Next)
    else if bool_decide (maxAttempts <= RateLimit.count e)
    then (Some e, TooMany (ceil_seconds (RateLimit.firstAttempt e + windowMs - now)))
    else (Some (RateLimit.mk (RateLimit.count e + 1) (RateLimit.firstAttempt e)), Next)
  | None => (Some (RateLimit.mk 1 now), Next)
  end.

(** No entry of [ip] is in force at [now]. *)
Definition no_live_entry (windowMs now : Z) (ip : option string) (attempts : Attempts)
    : Prop :=
  match attempts !! ip with
  | Some e => windowMs < now - RateLimit.firstAttempt e
  | None => True
  end.

(** ** Further parts of the Session model *)

(** virtual [isSuspicious] *)
Definition isSuspicious (s : Session.t) : bool := bool_decide (70 < Session.riskScore s).

(** The token whose digest a session stores. *)
Definition stored_token (s : Session.t) : RefreshToken :=
  match Session.refreshTokenHash s with Sha256 t => t end.

(** The stored digest is the one of a token that the server signed for this
    session: it carries the session's id, family and user. *)
Definition coherent (s : Session.t) : Prop :=
  rt_sig_ok (stored_token s) = true
  ∧ rt_sessionId (stored_token s) = Session.sessionId s
  ∧ rt_tokenFamily (stored_token s) = Session.tokenFamily s
  ∧ rt_userId (stored_token s) = Session.userId s.

(** The risk score is within the bounds of the schema, and a suspicious
    session is an inactive one that carries the breach marker. *)
Definition risk_sound (s : Session.t) : Prop :=
  0 <= Session.riskScore s <= 100
  ∧ (isSuspicious s = true →
     Session.isActive s = false
     ∧ Session.metadata s !! "securityBreach" = Some (Text "token_reuse_detected")).

(** The session id and the token family that a request brings for the session
    it may create. *)
Definition drawn (req : Request) : option (string * string) :=
  match req with
  | PostRegister _ _ _ _ _ _ sid fam _ | PostLogin _ _ _ sid fam _ => Some (sid, fam)
  | _ => None
  end.

Definition drawn_families (trace : list (Z * Request)) : list string :=
  omap (λ p, snd <$> drawn p.2) trace.

Definition drawn_sessionIds (trace : list (Z * Request)) : list string :=
  omap (λ p, fst <$> drawn p.2) trace.

(** The sessions after a request: the stored ones, rewritten in place, and at
    most one new session, made by [createUserSession] with the ids that the
    request brought, the session id being a new one. *)
Definition appended (env : Env) (now : Z) (db : Store) (req : Request)
    (new : list Session.t) : Prop :=
  new = []
  ∨ ∃ uid sid fam dev expires,
      drawn req = Some (sid, fam)
      ∧ new = [Session.create now uid sid
                 (Sha256 (generateRefreshToken env now uid sid fam)) fam dev expires]
      ∧ sid ∉ (Session.sessionId <$> sessions db).



(** A stored document is left as it is unless it belongs to [uid]. *)
Definition foreign_session_kept (uid : string) (s s' : Session.t) : Prop :=
  Session.userId s ≠ uid → s' = s.

Definition foreign_user_kept (uid : string) (u u' : User.t) : Prop :=
  User._id u ≠ uid → u' = u.

(** The store that the request gate leaves behind. *)
Definition gate_store (g : Gate) : Store :=
  match g with Rejected db _ => db | Passed db _ _ _ _ => db end.

(** alice and bob: bob registers a minute after alice *)
Definition two_users : Store * Response :=
  handle default_env 1060000 registered.1
    (PostRegister "bob" "bob@x.com" "Passw0rd2" "" "" "u2" "s2" "f2" curl).

(** The id of a session with its absolute expiry. *)
Definition id_and_expiry (s : Session.t) : string * Z :=
  (Session.sessionId s, Session.expiresAt s).

(** ** Tasks ([models/Task.js] and the task routes) *)

(** A text of a task, as the UTF-16 code units of the JavaScript string
    ([length] and [trim] work on code units). *)
Definition JSString := list N.

(** The code units of a literal of the source that is plain ASCII. *)
Definition units (s : string) : JSString :=
  (λ c, Ascii.N_of_ascii c) <$> String.list_ascii_of_string s.

(** White space and line terminators of ECMAScript, which
    [String.prototype.trim] strips. *)
Definition is_space (c : N) : bool :=
  bool_decide (c ∈ [9; 10; 11; 12; 13; 32; 160; 5760; 8232; 8233; 8239; 8287;
                    12288; 65279]%N)
  || bool_decide (8192 ≤ c ∧ c ≤ 8202)%N.

Fixpoint trimStart (s : JSString) : JSString :=
  match s with
  | c :: s' => if is_space c then trimStart s' else s
  | [] => []
  end.

Definition trimEnd (s : JSString) : JSString := reverse (trimStart (reverse s)).

Definition trim (s : JSString) : JSString := trimEnd (trimStart s).

(** An ObjectId, as its 24 hexadecimal digits. *)
Definition ObjectId := list N.

Definition hex_value (c : Ascii.ascii) : option N :=
  let n := Ascii.N_of_ascii c in
  if bool_decide (48 ≤ n ∧ n ≤ 57)%N then Some (n - 48)%N
  else if bool_decide (97 ≤ n ∧ n ≤ 102)%N then Some (n - 87)%N
  else if bool_decide (65 ≤ n ∧ n ≤ 70)%N then Some (n - 55)%N
  else None.

(** [id.match(/^[0-9a-fA-F]{24}$/)], and the ObjectId that the query casts a
    matching string to. *)
Definition castObjectId (id : string) : option ObjectId :=
  if bool_decide (String.length id = 24%nat)
  then mapM hex_value (String.list_ascii_of_string id)
  else None.

Inductive Status := ToDo | InProgress | Done.
Global Instance Status_eq_dec : EqDecision Status.
Proof. solve_decision. Defined.

Module Task.

Record t := mk {
  _id : ObjectId;
  userId : string;
  title : JSString;
  description : JSString;
  status : Status;
  createdAt : Z;
  updatedAt : Z
}.

(** The validators of the schema that a text can fail: [minlength] and
    [maxlength] of [title], [maxlength] of [description]. *)
Definition validate (title description : JSString) : bool :=
  bool_decide (1 ≤ length title ∧ length title ≤ 200)%nat
  && bool_decide (length description ≤ 1000)%nat.

(** The [$set] of [findOneAndUpdate], with the [updatedAt] of the pre-update
    hook. *)
Definition update (now : Z) (title description : JSString) (status : Status)
    (doc : t) : t :=
  {| _id := _id doc; userId := userId doc; title := title;
     description := description; status := status;
     createdAt := createdAt doc; updatedAt := now |}.

End Task.

(** The [{ title, description, status }] of a request body that is a JSON
    object; [None] is a member that is absent.  Members that are present are
    strings. *)
Record TaskBody := {
  b_title : option JSString;
  b_description : option JSString;
  b_status : option JSString
}.

(** [!title || !title.trim()] *)
Definition title_missing (title : option JSString) : bool :=
  match title with
  | None | Some [] => true
  | Some s => bool_decide (trim s = [])
  end.

(** [status && ![...].includes(status)], and [status || "To Do"];
    [None] is the refusal. *)
Definition status_of (status : option JSString) : option Status :=
  match status with
  | None | Some [] => Some ToDo
  | Some s =>
    if bool_decide (s = units "To Do") then Some ToDo
    else if bool_decide (s = units "In Progress") then Some InProgress
    else if bool_decide (s = units "Done") then Some Done
    else None
  end.

(** [description ? description.trim() : ""] *)
Definition description_of (description : option JSString) : JSString :=
  match description with
  | None => []
  | Some s => trim s
  end.

(** The member [userId] after [populate("userId", ...)]: the id, username
    and e-mail address of the user with that id, if one is stored. *)
Record Owner := { o_id : string; o_username : string; o_email : string }.

Definition populate (db : Store) (t : Task.t) : Task.t * option Owner :=
  (t, (λ iu, {| o_id := User._id iu.2; o_username := User.username iu.2;
                o_email := User.email iu.2 |})
        <$> list_find (λ u, User._id u = Task.userId t) (users db)).

(** [sort({ createdAt: -1 })]: newest first.  Tasks created at the same
    instant are kept in stored order here; MongoDB leaves their order open. *)
Fixpoint insert_newest (t : Task.t) (l : list Task.t) : list Task.t :=
  match l with
  | [] => [t]
  | x :: l' =>
    if bool_decide (Task.createdAt x < Task.createdAt t) then t :: l
    else x :: insert_newest t l'
  end.

Definition newest_first (l : list Task.t) : list Task.t := foldr insert_newest [] l.

Inductive TaskError :=
| INVALID_TASK_ID      (* "Invalid task ID format" *)
| TASK_NOT_FOUND       (* "Task not found or access denied" *)
| TITLE_REQUIRED       (* "Title is required" *)
| STATUS_INVALID       (* "Status must be ..." *)
| VALIDATION_FAILED    (* "Validation failed" *)
| CREATE_FAILED.       (* "Failed to create task" *)

Inductive TaskAnswer :=
| AtGate (r : Response)                (* the answer of the gate *)
| Failed (error : TaskError)
| Listed (l : list (Task.t * option Owner))
| Shown (t : Task.t * option Owner)
| Deleted (t : Task.t).

Record TaskResponse := { t_status : Z; t_answer : TaskAnswer }.

Definition refuse (r : Response) : TaskResponse :=
  {| t_status := status r; t_answer := AtGate r |}.

Definition task_failure (st : Z) (e : TaskError) : TaskResponse :=
  {| t_status := st; t_answer := Failed e |}.

(** The query [{ _id: id, userId: req.user._id }]. *)
Definition own_task (id : ObjectId) (user : User.t) (t : Task.t) : Prop :=
  Task._id t = id ∧ Task.userId t = User._id user.

(** [GET /tasks] *)
Definition get_tasks (now : Z) (db : Store) (tasks : list Task.t)
    (bearer : option AccessToken) : Store * list Task.t * TaskResponse :=
  match authenticate now db bearer with
  | Rejected db' r => (db', tasks, refuse r)
  | Passed db1 _ user _ _ =>
    let found := filter (λ t, Task.userId t = User._id user) tasks in
    (db1, tasks,
     {| t_status := 200; t_answer := Listed (populate db1 <$> newest_first found) |})
  end.

(** [GET /tasks/:id] *)
Definition get_task (now : Z) (db : Store) (tasks : list Task.t)
    (bearer : option AccessToken) (id : string) : Store * list Task.t * TaskResponse :=
  match authenticate now db bearer with
  | Rejected db' r => (db', tasks, refuse r)
  | Passed db1 _ user _ _ =>
    match castObjectId id with
    | None => (db1, tasks, task_failure 400 INVALID_TASK_ID)
    | Some oid =>
      match list_find (own_task oid user) tasks with
      | None => (db1, tasks, task_failure 404 TASK_NOT_FOUND)
      | Some (_, task) =>
          (db1, tasks, {| t_status := 200; t_answer := Shown (populate db1 task) |})
      end
    end
  end.

(** [POST /tasks].  [newId] is the ObjectId that the driver draws for the
    document; a stored one makes [save] fail with a duplicate key. *)
Definition post_task (now : Z) (db : Store) (tasks : list Task.t)
    (bearer : option AccessToken) (body : TaskBody) (newId : ObjectId)
    : Store * list Task.t * TaskResponse :=
  match authenticate now db bearer with
  | Rejected db' r => (db', tasks, refuse r)
  | Passed db1 _ user _ _ =>
    if title_missing (b_title body) then (db1, tasks, task_failure 400 TITLE_REQUIRED)
    else
      match status_of (b_status body) with
      | None => (db1, tasks, task_failure 400 STATUS_INVALID)
      | Some status =>
        let title := trim (default [] (b_title body)) in
        let description := description_of (b_description body) in
        if negb (Task.validate title description)
        then (db1, tasks, task_failure 400 VALIDATION_FAILED)
        else if bool_decide (newId ∈ Task._id <$> tasks)
        then (db1, tasks, task_failure 500 CREATE_FAILED)
        else
          let task :=
            {| Task._id := newId; Task.userId := User._id user; Task.title := title;
               Task.description := description; Task.status := status;
               Task.createdAt := now; Task.updatedAt := now |} in
          (db1, tasks ++ [task],
           {| t_status := 201; t_answer := Shown (populate db1 task) |})
      end
  end.

(** [PUT /tasks/:id].  The update validators run before the query. *)
Definition put_task (now : Z) (db : Store) (tasks : list Task.t)
    (bearer : option AccessToken) (id : string) (body : TaskBody)
    : Store * list Task.t * TaskResponse :=
  match authenticate now db bearer with
  | Rejected db' r => (db', tasks, refuse r)
  | Passed db1 _ user _ _ =>
    match castObjectId id with
    | None => (db1, tasks, task_failure 400 INVALID_TASK_ID)
    | Some oid =>
      if title_missing (b_title body) then (db1, tasks, task_failure 400 TITLE_REQUIRED)
      else
        match status_of (b_status body) with
        | None => (db1, tasks, task_failure 400 STATUS_INVALID)
        | Some status =>
          let title := trim (default [] (b_title body)) in
          let description := description_of (b_description body) in
          if negb (Task.validate title description)
          then (db1, tasks, task_failure 400 VALIDATION_FAILED)
          else
            match list_find (own_task oid user) tasks with
            | None => (db1, tasks, task_failure 404 TASK_NOT_FOUND)
            | Some (i, task) =>
              let task' := Task.update now title description status task in
              (db1, <[i := task']> tasks,
               {| t_status := 200; t_answer := Shown (populate db1 task') |})
            end
        end
    end
  end.

(** [DELETE /tasks/:id] *)
Definition delete_task (now : Z) (db : Store) (tasks : list Task.t)
    (bearer : option AccessToken) (id : string) : Store * list Task.t * TaskResponse :=
  match authenticate now db bearer with
  | Rejected db' r => (db', tasks, refuse r)
  | Passed db1 _ user _ _ =>
    match castObjectId id with
    | None => (db1, tasks, task_failure 400 INVALID_TASK_ID)
    | Some oid =>
      match list_find (own_task oid user) tasks with
      | None => (db1, tasks, task_failure 404 TASK_NOT_FOUND)
      | Some (i, task) =>
          (db1, delete i tasks, {| t_status := 200; t_answer := Deleted task |})
      end
    end
  end.

Inductive TaskRequest :=
| GetTasks (bearer : option AccessToken)
| GetTask (bearer : option AccessToken) (id : string)
| PostTask (bearer : option AccessToken) (body : TaskBody) (newId : ObjectId)
| PutTask (bearer : option AccessToken) (id : string) (body : TaskBody)
| DeleteTask (bearer : option AccessToken) (id : string).

Definition handle_task (now : Z) (db : Store) (tasks : list Task.t) (req : TaskRequest)
    : Store * list Task.t * TaskResponse :=
  match req with
  | GetTasks b => get_tasks now db tasks b
  | GetTask b id => get_task now db tasks b id
  | PostTask b body newId => post_task now db tasks b body newId
  | PutTask b id body => put_task now db tasks b id body
  | DeleteTask b id => delete_task now db tasks b id
  end.

(** The tasks after a trace of task requests. *)
Fixpoint run_tasks (db : Store) (tasks : list Task.t) (trace : list (Z * TaskRequest))
    : Store * list Task.t :=
  match trace with
  | [] => (db, tasks)
  | (now, req) :: trace' =>
      let out := handle_task now db tasks req in
      run_tasks out.1.1 out.1.2 trace'
  end.

(** What the schema and the routes maintain of a stored task. *)
Definition task_sound (t : Task.t) : Prop :=
  Task.title t ≠ []
  ∧ (∀ c, head (Task.title t) = Some c → is_space c = false)
  ∧ (∀ c, last (Task.title t) = Some c → is_space c = false)
  ∧ (length (Task.title t) ≤ 200)%nat
  ∧ (length (Task.description t) ≤ 1000)%nat.

(** The account that a token passes the gate for, if it does. *)
Definition caller (now : Z) (db : Store) (bearer : option AccessToken) : option User.t :=
  match authenticate now db bearer with
  | Rejected _ _ => None
  | Passed _ _ user _ _ => Some user
  end.

Definition bearer_of_task (req : TaskRequest) : option AccessToken :=
  match req with
  | GetTasks b | GetTask b _ | PostTask b _ _ | PutTask b _ _ | DeleteTask b _ => b
  end.

(** Newest first: no task is listed before a task that was created later. *)
Definition newest_to_oldest (l : list Task.t) : Prop :=
  ∀ i j a b, (i < j)%nat → l !! i = Some a → l !! j = Some b →
             Task.createdAt b <= Task.createdAt a.

(** What one task request did to the collection, for the account [user]. *)
Inductive task_write (now : Z) (user : User.t) (tasks : list Task.t)
    : list Task.t → Prop :=
| write_nothing : task_write now user tasks tasks
| write_created task :
    Task.userId task = User._id user → task_sound task →
    Task._id task ∉ (Task._id <$> tasks) →
    Task.createdAt task = now → Task.updatedAt task = now →
    task_write now user tasks (tasks ++ [task])
| write_updated i task task' :
    tasks !! i = Some task → Task.userId task = User._id user →
    Task._id task' = Task._id task → Task.userId task' = Task.userId task →
    Task.createdAt task' = Task.createdAt task → Task.updatedAt task' = now →
    task_sound task' →
    task_write now user tasks (<[i := task']> tasks)
| write_deleted i task :
    tasks !! i = Some task → Task.userId task = User._id user →
    task_write now user tasks (delete i tasks).

(** bob's task, stored beside alice's registration *)
Definition bobs_task : Task.t :=
  {| Task._id := [6; 5; 10; 11; 12; 13; 14; 15; 0; 1; 2; 3;
                  4; 5; 6; 7; 8; 9; 10; 11; 12; 13; 14; 15]%N;
     Task.userId := "u2"; Task.title := units "water the plants";
     Task.description := []; Task.status := ToDo;
     Task.createdAt := 900000; Task.updatedAt := 900000 |}.

Definition bobs_task_id : string := "65abcdef0123456789ABCDEF".

(** the body of alice's first task *)
Definition buy_milk : TaskBody :=
  {| b_title := Some (units "  buy milk "); b_description := None;
     b_status := Some (units "In Progress") |}.

Definition alices_task_id : ObjectId :=
  [6; 5; 10; 11; 12; 13; 14; 15; 0; 1; 2; 3; 4; 5; 6; 7; 8; 9; 10; 11; 12; 13; 14; 0]%N.

(** alice posts her first task five seconds after registering *)
Definition task_posted : Store * list Task.t * TaskResponse :=
  post_task 1005000 registered.1 [bobs_task] (Some first_access_token)
    buy_milk alices_task_id.

(** The tasks that an answer shows. *)
Definition tasks_in (a : TaskAnswer) : list Task.t :=
  match a with
  | AtGate _ | Failed _ => []
  | Listed l => fst <$> l
  | Shown t => [t.1]
  | Deleted t => [t]
  end.

(** The view of an account that [populate] puts in place of its id. *)
Definition owner_view (u : User.t) : Owner :=
  {| o_id := User._id u; o_username := User.username u; o_email := User.email u |}.

(** alice's trace on the tasks: she posts, renames, lists and deletes *)
Definition alices_day : list (Z * TaskRequest) :=
  [ (1005000, PostTask (Some first_access_token) buy_milk alices_task_id);
    (1006000, PutTask (Some first_access_token) "65ABCDEF0123456789abcde0"
                {| b_title := Some (units "buy oat milk");
                   b_description := Some (units " two cartons ");
                   b_status := None |});
    (1007000, GetTasks (Some first_access_token));
    (1008000, DeleteTask (Some first_access_token) bobs_task_id) ].

(** ** The task form of the front end ([TaskForm.jsx]) *)

(** The state [formData] of the form. *)
Record FormData := {
  f_title : JSString;
  f_description : JSString;
  f_status : JSString
}.

Inductive TitleError :=
| TitleRequired    (* 'Title is required' *)
| TitleTooShort.   (* 'Title must be at least 3 characters long' *)

Inductive DescriptionError :=
| DescriptionTooLong.   (* 'Description must be less than 500 characters' *)

(** The object [newErrors] that [validateForm] builds. *)
Record FormErrors := {
  e_title : option TitleError;
  e_description : option DescriptionError
}.

Definition newErrors (formData : FormData) : FormErrors :=
  {| e_title :=
       if bool_decide (trim (f_title formData) = []) then Some TitleRequired
       else if bool_decide (length (trim (f_title formData)) < 3)%nat
       then Some TitleTooShort
       else None;
     e_description :=
       if bool_decide (f_description formData ≠ []
                       ∧ (500 < length (f_description formData))%nat)
       then Some DescriptionTooLong
       else None |}.

(** [validateForm]: [Object.keys(newErrors).length === 0] *)
Definition validateForm (formData : FormData) : bool :=
  bool_decide (e_title (newErrors formData) = None
               ∧ e_description (newErrors formData) = None).

(** The [taskData] that [handleSubmit] hands to [onSubmit], as far as the
    server reads it. *)
Definition taskData (formData : FormData) : TaskBody :=
  {| b_title := Some (trim (f_title formData));
     b_description := Some (trim (f_description formData));
     b_status := Some (f_status formData) |}.

(** [statusOptions] *)
Definition statusOptions : list JSString :=
  [units "To Do"; units "In Progress"; units "Done"].

(** what alice types into the form *)
Definition typed : FormData :=
  {| f_title := units "  buy milk "; f_description := units " two cartons ";
     f_status := units "Done" |}.

(** * Properties *)

(** ** How one request may change a stored session *)

Create HintDb session_db.

Lemma session_step_refl now s : session_step now s s.
Proof. constructor; auto. Qed.

Lemma session_step_trans now s1 s2 s3 :
  session_step now s1 s2 → session_step now s2 s3 → session_step now s1 s3.
Proof.
  intros [] []. constructor; try congruence; auto.
  destruct step_hash1 as [->|?]; auto.
Qed.

Lemma step_deactivate now reason s : session_step now s (Session.deactivate now reason s).
Proof. constructor; simpl; auto. Qed.

Lemma step_pre_save now b s : session_step now s (Session.pre_save now b s).
Proof. unfold Session.pre_save. destruct b; constructor; simpl; auto. Qed.

Lemma step_updateLastAccessed now s :
  session_step now s (Session.updateLastAccessed now s).
Proof.
  unfold Session.updateLastAccessed.
  eapply session_step_trans; [|apply step_pre_save]. constructor; simpl; auto.
Qed.

Lemma step_rotate env now loaded uid sid fam s :
  session_step now s (rotate now loaded (Sha256 (generateRefreshToken env now uid sid fam)) s).
Proof.
  unfold rotate.
  eapply session_step_trans; [|apply step_pre_save].
  constructor; simpl; auto. right. eexists. split; [reflexivity|]. reflexivity.
Qed.

Lemma step_revoke now reason uid s : session_step now s (Session.revoke now reason uid s).
Proof. unfold Session.revoke. case_bool_decide; constructor; simpl; auto. Qed.

Lemma step_mark_breach now fam s : session_step now s (Session.mark_breach now fam s).
Proof. unfold Session.mark_breach. case_bool_decide; constructor; simpl; auto. Qed.

Lemma step_revoke_other now uid cur s : session_step now s (revoke_other uid cur s).
Proof. unfold revoke_other. case_bool_decide; constructor; simpl; auto. Qed.

#[export] Hint Resolve session_step_refl step_deactivate step_updateLastAccessed
  step_rotate step_revoke step_mark_breach step_revoke_other : session_db.

Lemma evolve_refl now l : evolve now l l.
Proof. apply Forall_Forall2_diag, Forall_forall. auto with session_db. Qed.

Lemma evolve_trans now l1 l2 l3 : evolve now l1 l2 → evolve now l2 l3 → evolve now l1 l3.
Proof.
  unfold evolve. intros H. revert l3.
  induction H; intros l3 H3; inversion H3; subst; constructor;
    eauto using session_step_trans.
Qed.

Lemma evolve_alter now f i l :
  (∀ s, session_step now s (f s)) → evolve now l (alter f i l).
Proof.
  intros Hf. apply Forall2_alter_r; [apply evolve_refl|].
  intros x y _ _ Hxy. eapply session_step_trans; eauto.
Qed.

Lemma evolve_fmap now f l :
  (∀ s, session_step now s (f s)) → evolve now l (f <$> l).
Proof. intros Hf. apply Forall2_fmap_r, Forall_Forall2_diag, Forall_forall. auto. Qed.

#[export] Hint Resolve evolve_refl evolve_alter evolve_fmap : session_db.

Lemma sessions_step_evolve now l l' : evolve now l l' → sessions_step now l l'.
Proof. intros H. exists l', []. rewrite app_nil_r. auto. Qed.

(** The gate only deactivates or touches one session. *)
Lemma authenticate_evolve now db bearer :
  match authenticate now db bearer with
  | Rejected db' _ => evolve now (sessions db) (sessions db') ∧ users db' = users db
  | Passed db' ui user si session =>
      evolve now (sessions db) (sessions db') ∧ users db' = users db
  end.
Proof.
  unfold authenticate.
  repeat case_match; simplify_eq/=; split; auto with session_db.
Qed.

Lemma detectTokenReuse_evolve now fam cur l :
  evolve now l (Session.detectTokenReuse now fam cur l).1.
Proof. unfold Session.detectTokenReuse. case_bool_decide; simpl; auto with session_db. Qed.

Lemma createUserSession_step env now db ui user h rm sid fam db' user' tk s :
  createUserSession env now db ui user h rm sid fam = Some (db', user', tk, s) →
  sessions db' = sessions db ++ [s] ∧ session_new now s
  ∧ Session.expiresAt s = now + (if rm then 30 * day else 7 * day).
Proof.
  unfold createUserSession. case_bool_decide; [discriminate|].
  intros [= <- <- <- <-]. simpl. split; [done|]. split; [|done].
  split; [done|]. eexists. split; reflexivity.
Qed.

Ltac through_gate now db bearer :=
  let H := fresh "Hgate" in
  pose proof (authenticate_evolve now db bearer) as H;
  destruct (authenticate now db bearer); simpl in *; destruct H as [H ?].

Lemma register_step env now db username email password firstName lastName uid sid fam h :
  sessions_step now (sessions db)
    (sessions (register env now db username email password firstName lastName
                 uid sid fam h).1).
Proof.
  unfold register.
  destruct (list_find _ (users db)); simpl; [apply sessions_step_evolve, evolve_refl|].
  case_bool_decide; simpl; [apply sessions_step_evolve, evolve_refl|].
  destruct (createUserSession _ _ _ _ _ _ _ _ _) as [[[[db2 u'] tk] s]|] eqn:E; simpl;
    [|apply sessions_step_evolve, evolve_refl].
  apply createUserSession_step in E as (-> & Hnew & _). simpl.
  exists (sessions db), [s]. split; [done|]. split; [apply evolve_refl|]. by constructor.
Qed.

Lemma login_step env now db email password rm sid fam h :
  sessions_step now (sessions db)
    (sessions (login env now db email password rm sid fam h).1).
Proof.
  unfold login.
  destruct (list_find _ (users db)) as [[ui user]|]; simpl;
    [|apply sessions_step_evolve, evolve_refl].
  repeat (case_match; simpl; try apply sessions_step_evolve, evolve_refl).
  all: match goal with
       | E : createUserSession _ _ _ _ _ _ _ _ _ = Some _ |- _ =>
           apply createUserSession_step in E as (-> & Hnew & _)
       end; simpl.
  all: eexists _, [_]; split; [done|]; split; [apply evolve_refl|]; by constructor.
Qed.

Lemma refresh_evolve env now db presented :
  evolve now (sessions db) (sessions (refresh env now db presented).1)
  ∧ users (refresh env now db presented).1 = users db.
Proof.
  unfold refresh.
  destruct presented as [token|]; simpl; [|auto with session_db].
  destruct (jwt_verify _ _ _); simpl; [auto with session_db|].
  destruct (list_find _ (sessions db)) as [[si session]|]; simpl; [|auto with session_db].
  pose proof (detectTokenReuse_evolve now (rt_tokenFamily token) (rt_sessionId token)
                (sessions db)) as Hd.
  destruct (Session.detectTokenReuse _ _ _ _) as [l1 [|]]; simpl in *; [auto|].
  destruct (list_find _ (users db)) as [[? owner]|]; simpl; auto with session_db.
Qed.

Lemma logout_evolve now db bearer :
  evolve now (sessions db) (sessions (logout now db bearer).1).
Proof.
  unfold logout. through_gate now db bearer; [done|].
  eapply evolve_trans; [done|]. auto with session_db.
Qed.

Lemma logout_all_evolve now db bearer :
  evolve now (sessions db) (sessions (logout_all now db bearer).1).
Proof.
  unfold logout_all. through_gate now db bearer; [done|].
  eapply evolve_trans; [done|]. unfold Session.revokeAllForUser. auto with session_db.
Qed.

Lemma me_evolve now db bearer :
  evolve now (sessions db) (sessions (me now db bearer).1).
Proof. unfold me. through_gate now db bearer; done. Qed.

Lemma list_sessions_evolve now db bearer :
  evolve now (sessions db) (sessions (list_sessions now db bearer).1).
Proof. unfold list_sessions. through_gate now db bearer; done. Qed.

Lemma revoke_session_evolve now db bearer sid :
  evolve now (sessions db) (sessions (revoke_session now db bearer sid).1).
Proof.
  unfold revoke_session. through_gate now db bearer; [done|].
  destruct (list_find _ (sessions db0)) as [[sj ?]|]; simpl; [|done].
  eapply evolve_trans; [done|]. auto with session_db.
Qed.

Lemma change_password_evolve now db bearer cur new :
  evolve now (sessions db) (sessions (change_password now db bearer cur new).1).
Proof.
  unfold change_password. through_gate now db bearer; [done|].
  destruct (list_find _ (users db0)) as [[uj u]|]; simpl; [|done].
  destruct (negb _); simpl; [done|].
  eapply evolve_trans; [done|]. auto with session_db.
Qed.

(** Every request leaves the stored sessions in place, changing them only as
    [session_step] allows, and appends the sessions it creates. *)
Lemma handle_sessions_step env now db req :
  sessions_step now (sessions db) (sessions (handle env now db req).1).
Proof.
  destruct req; simpl;
    eauto using register_step, login_step, sessions_step_evolve, logout_evolve,
      logout_all_evolve, me_evolve, list_sessions_evolve, revoke_session_evolve,
      change_password_evolve.
  apply sessions_step_evolve, refresh_evolve.
Qed.

(** ** Staleness of a token after a password change *)

Lemma changedPasswordAfter_spec iat u :
  User.changedPasswordAfter iat u = true
  ↔ ∃ changed, User.passwordChangedAt u = Some changed ∧ iat < Z.quot changed 1000.
Proof.
  unfold User.changedPasswordAfter.
  destruct (User.passwordChangedAt u) as [c|]; simpl.
  - rewrite bool_decide_eq_true. split; [eauto|]. by intros (? & [= <-] & ?).
  - split; [done|]. by intros (? & ? & ?).
Qed.

Lemma second_before now : 1000 <= now → Z.quot (now - 1000) 1000 = now / 1000 - 1.
Proof.
  intros H. rewrite Z.quot_div_nonneg by lia.
  replace (now - 1000) with (now + (-1) * 1000) by lia.
  rewrite Z.div_add by lia. lia.
Qed.

(** C7, as amended.  [changedPasswordAfter(iat)] is true exactly when the
    stored [passwordChangedAt], cut to whole seconds, is after [iat]; the check
    itself subtracts nothing.  The pre-save hook stores the instant of the
    change minus one second, so after a change made at [now] (an instant at
    least one second after the epoch) a token is stale exactly when it was
    issued more than one whole second before the second of the change, and a
    token issued in the instant of the change is not stale. *)
Theorem C7_changedPasswordAfter (u : User.t) (now iat : Z) (plain : string) :
  1000 <= now →
  (User.changedPasswordAfter iat u = true
   ↔ ∃ changed, User.passwordChangedAt u = Some changed ∧ iat < Z.quot changed 1000)
  ∧ (User.changedPasswordAfter iat (User.pre_save_password now plain u) = true
     ↔ iat + 1 < now / 1000)
  ∧ User.changedPasswordAfter (now / 1000) (User.pre_save_password now plain u) = false.
Proof.
  intros Hnow. split; [apply changedPasswordAfter_spec|].
  assert (∀ i, User.changedPasswordAfter i (User.pre_save_password now plain u) = true
               ↔ i + 1 < now / 1000) as H.
  { intros i. rewrite changedPasswordAfter_spec. simpl. split.
    - intros (c & [= <-] & Hc). rewrite second_before in Hc by done. lia.
    - intros Hi. eexists. split; [done|]. rewrite second_before by done. lia. }
  split; [apply H|].
  apply not_true_is_false. rewrite H. lia.
Qed.

Lemma C7_changedPasswordAfter_witness :
  1000 <= 50000000
  ∧ User.changedPasswordAfter 49998 (User.pre_save_password 50000000 "N3wPassw0rd" alice) = true
  ∧ User.changedPasswordAfter 50000 (User.pre_save_password 50000000 "N3wPassw0rd" alice) = false.
Proof.
  split; [lia|].
  destruct (C7_changedPasswordAfter alice 50000000 49998 "N3wPassw0rd") as (_ & H & H');
    [lia|].
  split; [apply H; reflexivity | exact H'].
Defined.

(** C7 as stated fails.  The password is changed at 50000000 ms and a token
    is issued in that same instant ([iat] 50000 s): the check answers [false],
    the token is not treated as stale.  The hook has stored 49999000, and the
    check compares [iat] with that value as it is: a token issued at 49998 s
    is stale. *)
Lemma C7_same_instant_token_is_not_stale :
  let changed := User.pre_save_password 50000000 "N3wPassw0rd" alice in
  User.passwordChangedAt changed = Some 49999000
  ∧ User.changedPasswordAfter (50000000 / 1000) changed = false
  ∧ User.changedPasswordAfter 49998 changed = true.
Proof. repeat split. Qed.

(** ** The password hash stays out of the response bodies *)

Lemma toJSON_hides now selected u :
  let o := User.toJSON now selected u in
  has_key "password" o = false ∧ carries_hash o = false
  ∧ js_delete "password" o = o.
Proof.
  destruct u as [? ? ? ? ? ? ? lock last changed ? ? ? ? ? ?].
  destruct selected, lock, last, changed; repeat split.
Qed.

Lemma failure_hides st c : hides_password (failure st c).
Proof. exact I. Qed.

Lemma authenticate_rejected_hides now db bearer db' r :
  authenticate now db bearer = Rejected db' r → hides_password r.
Proof.
  unfold authenticate. intros H.
  repeat case_match; simplify_eq/=; apply failure_hides.
Qed.

Lemma serialised_user_hides now selected u tk sv svs st :
  hides_password (succeed st (Some (User.toJSON now selected u)) tk sv svs).
Proof. unfold hides_password. simpl. split; apply toJSON_hides. Qed.

Lemma no_user_hides tk sv svs st : hides_password (succeed st None tk sv svs).
Proof. exact I. Qed.

Lemma stripped_user_hides now selected u tk sv svs st :
  hides_password
    (succeed st (Some (js_delete "password" (User.toJSON now selected u))) tk sv svs).
Proof.
  rewrite (proj2 (proj2 (toJSON_hides now selected u))). apply serialised_user_hides.
Qed.

#[local] Arguments User.toJSON : simpl never.
#[local] Arguments hides_password : simpl never.
#[local] Arguments js_delete : simpl never.

Create HintDb hides_db.
#[export] Hint Resolve failure_hides serialised_user_hides no_user_hides
  stripped_user_hides : hides_db.

Ltac gate_hides now db bearer :=
  let E := fresh "E" in
  destruct (authenticate now db bearer) eqn:E; simpl;
  [eapply authenticate_rejected_hides; exact E|].

(** C6.  Whatever the store, the instant and the request, the user object of
    the response has no [password] member and no member holding a password
    hash (the other members of a body are tokens, session views and
    instants). *)
Theorem C6_password_hash_never_returned (env : Env) (now : Z) (db : Store) (req : Request) :
  hides_password (handle env now db req).2.
Proof.
  destruct req; simpl.
  - unfold register. repeat (case_match; simpl; auto with hides_db).
  - unfold login. repeat (case_match; simpl; auto with hides_db). exact I.
  - unfold refresh. repeat (case_match; simpl; auto with hides_db).
  - unfold logout. gate_hides now db bearer. auto with hides_db.
  - unfold logout_all. gate_hides now db bearer. auto with hides_db.
  - unfold me. gate_hides now db bearer. auto with hides_db.
  - unfold list_sessions. gate_hides now db bearer. auto with hides_db.
  - unfold revoke_session. gate_hides now db bearer.
    repeat (case_match; simpl); auto with hides_db.
  - unfold change_password. gate_hides now db bearer.
    repeat (case_match; simpl); auto with hides_db.
Qed.

(** ** Sessions created by a request, and their lifetime *)

Lemma evolve_length now l l' : evolve now l l' → length l' = length l.
Proof. intros H. symmetry. by eapply Forall2_length. Qed.

Lemma register_creates env now db username email password firstName lastName uid sid fam h :
  let out := register env now db username email password firstName lastName uid sid fam h in
  (status out.2 = 201 ∧ fresh_session now (7 * day) db out.1)
  ∨ (status out.2 = 409 ∧ sessions out.1 = sessions db).
Proof.
  unfold register.
  destruct (list_find _ (users db)); simpl; [by right|].
  case_bool_decide; simpl; [by right|].
  destruct (createUserSession _ _ _ _ _ _ _ _ _) as [[[[db2 u'] tk] s]|] eqn:E; simpl;
    [|by right].
  left. split; [done|].
  apply createUserSession_step in E as (Hs & [Hc _] & He). simpl in Hs.
  exists s. rewrite Hc. done.
Qed.

Lemma login_creates env now db email password rm sid fam h :
  let out := login env now db email password rm sid fam h in
  (status out.2 = 200 ∧ fresh_session now (if rm then 30 * day else 7 * day) db out.1)
  ∨ (status out.2 ≠ 200 ∧ sessions out.1 = sessions db).
Proof.
  unfold login.
  destruct (list_find _ (users db)) as [[ui user]|]; simpl; [|by right].
  destruct (User.isLocked now user); simpl; [by right|].
  destruct (negb (User.isActive user)); simpl; [by right|].
  destruct (negb (User.comparePassword password user)); simpl; [by right|].
  destruct (createUserSession _ _ _ _ _ _ _ _ _) as [[[[db2 u'] tk] s]|] eqn:E; simpl.
  - left. split; [done|].
    apply createUserSession_step in E as (Hs & [Hc _] & He).
    exists s. rewrite Hc. split; [|done]. rewrite Hs. by case_bool_decide.
  - right. split; [done|]. by case_bool_decide.
Qed.

(** C9.  A registration either succeeds (201) and appends exactly one session
    to the collection, created at [now] and expiring exactly 7 days after its
    creation, or fails (409) and creates none.  A login appends one session
    whose lifetime is 30 days when [rememberMe] is set and 7 days otherwise,
    or creates none.  No other request creates a session. *)
Theorem C9_registered_session_lives_seven_days (env : Env) (now : Z) (db : Store)
    (req : Request) :
  let out := handle env now db req in
  match req with
  | PostRegister _ _ _ _ _ _ _ _ _ =>
      (status out.2 = 201 ∧ fresh_session now (7 * 24 * 60 * 60 * 1000) db out.1)
      ∨ (status out.2 = 409 ∧ sessions out.1 = sessions db)
  | PostLogin _ _ rememberMe _ _ _ =>
      (status out.2 = 200
       ∧ fresh_session now
           (if rememberMe then 30 * 24 * 60 * 60 * 1000 else 7 * 24 * 60 * 60 * 1000)
           db out.1)
      ∨ (status out.2 ≠ 200 ∧ sessions out.1 = sessions db)
  | _ => length (sessions out.1) = length (sessions db)
  end.
Proof.
  destruct req; simpl;
    eauto using evolve_length, logout_evolve, logout_all_evolve, me_evolve,
      list_sessions_evolve, revoke_session_evolve, change_password_evolve.
  - apply register_creates.
  - apply login_creates.
  - eapply evolve_length, refresh_evolve.
Qed.

Example registration_creates_one_session :
  status registered.2 = 201
  ∧ Session.expiresAt <$> sessions registered.1 = [1000000 + 604800000].
Proof. split; reflexivity. Qed.

(** ** What a successful refresh writes *)

Lemma alter_lookup_insert {A} (f : A → A) (l : list A) i x :
  l !! i = Some x → alter f i l = <[i := f x]> l.
Proof.
  intros H. rewrite list_insert_alter. apply list_alter_ext; [|done].
  intros y Hy. congruence.
Qed.

Lemma set_riskScore_same s : Session.set_riskScore (Session.riskScore s) s = s.
Proof. by destruct s. Qed.

Lemma rotate_rotated now s tok :
  ∃ risk, rotate now s (Sha256 tok) s = rotated now tok risk s.
Proof.
  unfold rotate, rotated, Session.pre_save. case_bool_decide; simpl.
  - by eexists.
  - eexists. by rewrite set_riskScore_same.
Qed.

Lemma refresh_success env now db presented :
  let out := refresh env now db presented in
  status out.2 = 200 →
  ∃ token si s owner ui,
    presented = Some token
    ∧ jwt_verify now (rt_sig_ok token) (rt_exp token) = None
    ∧ list_find (refresh_query now token) (sessions db) = Some (si, s)
    ∧ list_find (λ u, User._id u = Session.userId s) (users db) = Some (ui, owner)
    ∧ let newToken :=
        generateRefreshToken env now (User._id owner) (Session.sessionId s)
          (rt_tokenFamily token) in
      out.1 = with_sessions (alter (rotate now s (Sha256 newToken)) si) db
      ∧ body_tokens out.2
        = Some {| accessToken :=
                    generateAccessToken env now (User._id owner) (Session.sessionId s)
                      (User.username owner) (User.email owner);
                  refreshToken := newToken;
                  expiresIn := access_lifetime env |}.
Proof.
  unfold refresh.
  destruct presented as [token|]; simpl; [|done].
  destruct (jwt_verify _ _ _) eqn:Ev; simpl; [done|].
  destruct (list_find _ (sessions db)) as [[si s]|] eqn:Es; simpl; [|done].
  destruct (Session.detectTokenReuse _ _ _ _) as [l1 [|]]; simpl; [done|].
  destruct (list_find _ (users db)) as [[ui owner]|] eqn:Eu; simpl; [|done].
  intros _. by exists token, si, s, owner, ui.
Qed.

Lemma evolve_proj {B} (f : Session.t → B) now l l' :
  (∀ s s', session_step now s s' → f s' = f s) →
  evolve now l l' → f <$> l' = f <$> l.
Proof. intros Hf H. induction H; simpl; f_equal; auto. Qed.


Lemma refresh_success_write env now db presented :
  let out := refresh env now db presented in
  status out.2 = 200 →
  ∃ token tokens si s risk,
    presented = Some token ∧ body_tokens out.2 = Some tokens
    ∧ rt_sessionId (refreshToken tokens) = rt_sessionId token
    ∧ rt_tokenFamily (refreshToken tokens) = rt_tokenFamily token
    ∧ at_sessionId (accessToken tokens) = rt_sessionId token
    ∧ sessions db !! si = Some s
    ∧ Session.sessionId s = rt_sessionId token
    ∧ sessions out.1 = <[si := rotated now (refreshToken tokens) risk s]> (sessions db)
    ∧ users out.1 = users db.
Proof.
  intros out H.
  destruct (refresh_success env now db presented H)
    as (token & si & s & owner & ui & -> & Hv & Hs & Hu & Hdb & Htk).
  fold out in Hdb, Htk.
  apply list_find_Some in Hs as (Hsi & (Hid & _) & _).
  destruct (rotate_rotated now s
              (generateRefreshToken env now (User._id owner) (Session.sessionId s)
                 (rt_tokenFamily token))) as [risk Hr].
  eexists token, _, si, s, risk. split; [done|]. split; [exact Htk|]. simpl.
  rewrite Hdb. simpl. rewrite (alter_lookup_insert _ _ _ _ Hsi), Hr.
  by repeat split.
Qed.


Example registration_issues_first_tokens :
  body_tokens registered.2
  = Some {| accessToken := first_access_token; refreshToken := first_refresh_token;
            expiresIn := 1800 |}.
Proof. reflexivity. Qed.


(** ** Session identity *)






(** ** Failed logins and the account lock *)

Lemma run_app env a b db : run env db (a ++ b) = run env (run env db a) b.
Proof. revert db. induction a as [|[t r] a IH]; intros db; simpl; auto. Qed.

Lemma responses_app env a b db :
  responses env db (a ++ b) = responses env db a ++ responses env (run env db a) b.
Proof. revert db. induction a as [|[t r] a IH]; intros db; simpl; [done|]. by rewrite IH. Qed.

Lemma list_find_alter {A} (P : A → Prop) `{!∀ x, Decision (P x)} (f : A → A) l i x :
  list_find P l = Some (i, x) → P (f x) → list_find P (alter f i l) = Some (i, f x).
Proof.
  intros (Hi & HP & Hlt)%list_find_Some HPf. apply list_find_Some. split_and!.
  - by rewrite list_lookup_alter_eq, Hi.
  - done.
  - intros j y Hj Hji. rewrite list_lookup_alter_ne in Hj by lia. eauto.
Qed.

Lemma wrong_login_unlocked env now db email pw rm sid fam h ui u :
  account email db = Some (ui, u) →
  User.isActive u = true → User.isLocked now u = false →
  bcrypt_compare pw (User.password u) = false →
  login env now db email pw rm sid fam h
  = (with_users (alter (User.incLoginAttempts env now u) ui) db, refused).
Proof.
  unfold account, login, User.comparePassword. intros -> -> -> ->. done.
Qed.

Lemma incLoginAttempts_frame env now doc stored :
  let u' := User.incLoginAttempts env now doc stored in
  User.email u' = User.email stored ∧ User.password u' = User.password stored
  ∧ User.isActive u' = User.isActive stored.
Proof.
  unfold User.incLoginAttempts. repeat case_match; simpl; auto.
Qed.

(** Below the threshold a wrong password only counts. *)
Lemma incLoginAttempts_counts env now u :
  User.accountLockedUntil u = None →
  User.failedLoginAttempts u + 1 < maxAttempts env →
  let u' := User.incLoginAttempts env now u u in
  User.failedLoginAttempts u' = User.failedLoginAttempts u + 1
  ∧ User.accountLockedUntil u' = None.
Proof.
  intros Hl Hc. unfold User.incLoginAttempts. rewrite Hl.
  rewrite bool_decide_eq_false_2 by lia. simpl. by rewrite Hl.
Qed.

(** At the threshold it locks the account. *)
Lemma incLoginAttempts_locks env now u :
  User.accountLockedUntil u = None →
  maxAttempts env <= User.failedLoginAttempts u + 1 →
  let u' := User.incLoginAttempts env now u u in
  User.failedLoginAttempts u' = User.failedLoginAttempts u + 1
  ∧ User.accountLockedUntil u' = Some (now + lockTime env).
Proof.
  intros Hl Hc. unfold User.incLoginAttempts, User.isLocked. rewrite Hl.
  rewrite bool_decide_eq_true_2 by lia. done.
Qed.

(** After the lock has run out it restarts the count. *)
Lemma incLoginAttempts_restarts env now u l :
  User.accountLockedUntil u = Some l → l < now →
  let u' := User.incLoginAttempts env now u u in
  User.failedLoginAttempts u' = 1 ∧ User.accountLockedUntil u' = None.
Proof.
  intros Hl Hc. unfold User.incLoginAttempts. rewrite Hl.
  rewrite bool_decide_eq_true_2 by lia. done.
Qed.

Lemma account_alter email db ui u f :
  account email db = Some (ui, u) → User.email (f u) = User.email u →
  account email (with_users (alter f ui) db) = Some (ui, f u).
Proof.
  unfold account. intros H He. simpl.
  apply (list_find_alter (λ u, User.email u = email)); [done|].
  apply list_find_Some in H as (_ & <- & _). done.
Qed.

Lemma wrong_logins_count env email h attempts : ∀ db ui u,
  account email db = Some (ui, u) →
  User.isActive u = true → User.password u = h →
  User.accountLockedUntil u = None →
  User.failedLoginAttempts u + Z.of_nat (length attempts) < maxAttempts env →
  Forall (wrong_login email h) attempts →
  (∃ u', account email (run env db attempts) = Some (ui, u')
         ∧ User.isActive u' = true ∧ User.password u' = h
         ∧ User.accountLockedUntil u' = None
         ∧ User.failedLoginAttempts u'
           = User.failedLoginAttempts u + Z.of_nat (length attempts))
  ∧ Forall (λ r, r = refused) (responses env db attempts).
Proof.
  induction attempts as [|[now req] attempts IH]; intros db ui u Ha Hact Hpw Hl Hc Hw.
  - simpl. split; [|done]. exists u. split_and!; auto. lia.
  - inversion Hw as [|? ? Hreq Hrest]; subst. simpl in Hc.
    destruct req; try done. destruct Hreq as [-> Hwrong]. simpl.
    assert (User.isLocked now u = false) as Hnl by (unfold User.isLocked; by rewrite Hl).
    rewrite (wrong_login_unlocked env now db _ _ _ _ _ _ ui u) by done. simpl.
    destruct (incLoginAttempts_frame env now u u) as (He & Hp & Hi).
    destruct (incLoginAttempts_counts env now u) as (Hn & Hl'); [done|lia|].
    edestruct (IH (with_users (alter (User.incLoginAttempts env now u) ui) db) ui
                 (User.incLoginAttempts env now u u)) as [(u' & ? & ? & ? & ? & Hn') ?];
      [by apply account_alter|congruence|congruence|done|lia|done|].
    split; [|by constructor].
    exists u'. split_and!; auto. lia.
Qed.

(** C3.  An active account whose counter is clean receives [maxAttempts]
    logins with a wrong password, one after the other.  None of the strict
    prefixes of that run locks the account, and the run itself leaves the
    counter at [maxAttempts] and locks the account until the instant of the
    last attempt plus the lock time; every attempt was answered 401
    INVALID_CREDENTIALS.  From then on a login for the account made before
    that instant is answered 423 ACCOUNT_LOCKED and changes nothing, whatever
    the password (the correct one included); a login with a wrong password
    made after that instant is answered INVALID_CREDENTIALS, sets the counter
    to 1 and removes the lock. *)
Theorem C3_lockout (env : Env) (db : Store) (email : string) (ui : nat) (u : User.t)
    (attempts : list (Z * Request)) (t_last : Z) (last : Request) :
  1 <= maxAttempts env →
  account email db = Some (ui, u) →
  User.isActive u = true →
  User.failedLoginAttempts u = 0 →
  User.accountLockedUntil u = None →
  Forall (wrong_login email (User.password u)) (attempts ++ [(t_last, last)]) →
  Z.of_nat (length attempts) + 1 = maxAttempts env →
  let locked := run env db (attempts ++ [(t_last, last)]) in
  let until := t_last + lockTime env in
  (∀ k, ∃ uk,
      account email (run env db (take k attempts)) = Some (ui, uk)
      ∧ User.accountLockedUntil uk = None
      ∧ User.failedLoginAttempts uk = Z.of_nat (k `min` length attempts))
  ∧ Forall (λ r, r = refused) (responses env db (attempts ++ [(t_last, last)]))
  ∧ (∃ ul, account email locked = Some (ui, ul)
           ∧ User.accountLockedUntil ul = Some until
           ∧ User.failedLoginAttempts ul = maxAttempts env)
  ∧ (∀ now pw rm sid fam h,
       now < until →
       login env now locked email pw rm sid fam h = (locked, locked_out (Some until)))
  ∧ (∀ now pw rm sid fam h,
       until < now → bcrypt_compare pw (User.password u) = false →
       let out := login env now locked email pw rm sid fam h in
       out.2 = refused
       ∧ ∃ u1, account email out.1 = Some (ui, u1)
               ∧ User.failedLoginAttempts u1 = 1
               ∧ User.accountLockedUntil u1 = None).
Proof.
  intros Hmax Ha Hact Hzero Hfree Hw Hlen locked until.
  apply Forall_app in Hw as [Hw Hlast].
  destruct (wrong_logins_count env email (User.password u) attempts db ui u)
    as [(u' & Ha' & Hact' & Hpw' & Hfree' & Hn') Hresp]; auto; [lia|].
  (* the last attempt *)
  inversion Hlast as [|? ? Hreq _]; subst.
  destruct last; try done. destruct Hreq as [-> Hwrong]. simpl in *.
  assert (User.isLocked t_last u' = false) as Hnl by (unfold User.isLocked; by rewrite Hfree').
  assert (locked = with_users (alter (User.incLoginAttempts env t_last u') ui)
                     (run env db attempts)) as Hlocked.
  { unfold locked. rewrite run_app. simpl.
    rewrite (wrong_login_unlocked env t_last _ _ _ _ _ _ _ ui u'); [done..|].
    by rewrite Hpw'. }
  destruct (incLoginAttempts_frame env t_last u' u') as (He & Hp & Hi).
  destruct (incLoginAttempts_locks env t_last u') as (Hn & Hl); [done|lia|].
  assert (account email locked = Some (ui, User.incLoginAttempts env t_last u' u')) as Hal.
  { rewrite Hlocked. by apply account_alter. }
  split_and!.
  - intros k.
    destruct (wrong_logins_count env email (User.password u) (take k attempts) db ui u)
      as [(uk & ? & ? & ? & ? & Hk) _]; auto.
    { rewrite length_take. lia. }
    { by apply Forall_take. }
    exists uk. split_and!; auto. rewrite Hk, length_take. lia.
  - rewrite responses_app. apply Forall_app. split; [done|]. simpl.
    rewrite (wrong_login_unlocked env t_last _ _ _ _ _ _ _ ui u'); [|done..|by rewrite Hpw'].
    by repeat constructor.
  - eexists. split; [exact Hal|]. split; [done|]. lia.
  - intros now pw rm sid' fam' h' Hnow. unfold login. fold (account email locked).
    rewrite Hal. unfold User.isLocked at 1. rewrite Hl.
    rewrite bool_decide_eq_true_2 by done. done.
  - intros now pw rm sid' fam' h' Hnow Hpw.
    set (ul := User.incLoginAttempts env t_last u' u') in *.
    assert (User.isLocked now ul = false) as Hnl'.
    { unfold User.isLocked. rewrite Hl. apply bool_decide_eq_false_2. unfold until in Hnow. lia. }
    rewrite (wrong_login_unlocked env now locked _ _ _ _ _ _ ui ul); [|done|congruence|done|congruence].
    simpl. split; [done|].
    destruct (incLoginAttempts_frame env now ul ul) as (He1 & _ & _).
    destruct (incLoginAttempts_restarts env now ul (t_last + lockTime env)) as (? & ?);
      [done|done|].
    eexists. split; [by apply account_alter|]. done.
Qed.

Lemma C3_lockout_witness :
  let attempts := [wrong 2000000; wrong 2001000; wrong 2002000; wrong 2003000] in
  let locked := run default_env registered.1 (attempts ++ [wrong 2004000]) in
  1 <= maxAttempts default_env
  ∧ account "alice@x.com" registered.1 = Some (0%nat, alice_registered)
  ∧ User.isActive alice_registered = true
  ∧ User.failedLoginAttempts alice_registered = 0
  ∧ User.accountLockedUntil alice_registered = None
  ∧ Forall (wrong_login "alice@x.com" (User.password alice_registered))
      (attempts ++ [wrong 2004000])
  ∧ Z.of_nat (length attempts) + 1 = maxAttempts default_env
  ∧ login default_env 3803999 locked "alice@x.com" "Passw0rd1" false "s2" "f2" curl
    = (locked, locked_out (Some 3804000)).
Proof.
  intros attempts locked.
  assert (Forall (wrong_login "alice@x.com" (User.password alice_registered))
            (attempts ++ [wrong 2004000])) as Hw.
  { repeat (constructor; [split; reflexivity|]). constructor. }
  split_and!; [done|reflexivity|reflexivity|reflexivity|reflexivity|exact Hw|reflexivity|].
  destruct (C3_lockout default_env registered.1 "alice@x.com" 0%nat alice_registered
              attempts 2004000 (wrong 2004000).2)
    as (_ & _ & _ & Hlocked & _);
    [done|reflexivity|reflexivity|reflexivity|reflexivity|exact Hw|reflexivity|].
  apply (Hlocked 3803999 "Passw0rd1" false "s2" "f2" curl). reflexivity.
Defined.

(** The instant [accountLockedUntil] itself is neither before nor after the
    lock: the account is not locked any more, the lock does not count as
    expired yet, and a wrong password at that very millisecond counts on and
    locks again. *)
Example wrong_login_at_the_lock_instant :
  let locked :=
    run default_env registered.1
      [wrong 2000000; wrong 2001000; wrong 2002000; wrong 2003000; wrong 2004000] in
  let out := handle default_env 3804000 locked (wrong 3804000).2 in
  out.2 = refused
  ∧ (λ u, (User.failedLoginAttempts u, User.accountLockedUntil u)) <$> users out.1
    = [(6, Some 5604000)].
Proof. split; reflexivity. Qed.

(** ** Rotation of the refresh token *)

Lemma later_token_differs old tok now :
  rt_iat old < now / 1000 → rt_iat tok = now / 1000 → Sha256 tok ≠ Sha256 old.
Proof. intros H1 H2 [= ->]. lia. Qed.

Lemma sessions_step_rotated_away old now l l' :
  rt_iat old < now / 1000 →
  sessions_step now l l' → rotated_away old l → rotated_away old l'.
Proof.
  intros Hlt (l1 & new & -> & Hev & Hnew) Hold. apply Forall_app. split.
  - unfold rotated_away in *. induction Hev as [|s s' l l1 Hs _ IH]; [done|].
    inversion Hold as [|? ? Hhd Htl]; subst. constructor; [|by apply IH].
    destruct Hs. intros Hid. destruct step_hash0 as [->|(tok & -> & Hiat)].
    + apply Hhd. congruence.
    + by eapply later_token_differs.
  - eapply Forall_impl; [exact Hnew|]. intros s [_ (tok & -> & Hiat)] _.
    by eapply later_token_differs.
Qed.

Lemma run_rotated_away env old trace : ∀ db,
  Forall (λ p, rt_iat old < p.1 / 1000) trace →
  rotated_away old (sessions db) → rotated_away old (sessions (run env db trace)).
Proof.
  induction trace as [|[t req] trace IH]; intros db Ht Hold; simpl; [done|].
  inversion Ht; subst. apply IH; [done|].
  eapply sessions_step_rotated_away; [|apply handle_sessions_step|]; done.
Qed.

Lemma refresh_success_iat env now db presented :
  let out := refresh env now db presented in
  status out.2 = 200 →
  ∃ tokens, body_tokens out.2 = Some tokens ∧ rt_iat (refreshToken tokens) = now / 1000.
Proof.
  intros out H.
  destruct (refresh_success env now db presented H)
    as (token & si & s & owner & ui & -> & _ & _ & _ & _ & Htk).
  eexists. split; [exact Htk|done].
Qed.

Lemma refresh_rotates_away env now db old :
  NoDup (Session.sessionId <$> sessions db) →
  let out := refresh env now db (Some old) in
  status out.2 = 200 → rt_iat old < now / 1000 →
  rotated_away old (sessions out.1).
Proof.
  intros Hnd out H Hlt.
  destruct (refresh_success_write env now db (Some old) H)
    as (token & tokens & si & s & risk & [= <-] & Htk & _ & _ & _ & Hsi & Hid & Hw & _).
  destruct (refresh_success_iat env now db (Some old) H) as (tokens' & Htk' & Hiat).
  fold out in Hw, Htk, Htk'. rewrite Htk in Htk'. injection Htk' as <-.
  rewrite Hw. apply Forall_lookup. intros j s' Hj Hs'.
  destruct (decide (j = si)) as [->|Hne].
  - rewrite list_lookup_insert_eq in Hj by (by eapply lookup_lt_Some).
    injection Hj as <-. simpl. by eapply later_token_differs.
  - rewrite list_lookup_insert_ne in Hj by done.
    exfalso. apply Hne. eapply NoDup_lookup; [exact Hnd|..].
    + rewrite list_lookup_fmap, Hj. simpl. by rewrite Hs'.
    + rewrite list_lookup_fmap, Hsi. simpl. by rewrite Hid.
Qed.

Lemma replay_refused env now db old :
  rt_sig_ok old = true → rotated_away old (sessions db) →
  refresh env now db (Some old)
  = (db, failure 401 (if bool_decide (rt_exp old <= now / 1000)
                      then REFRESH_TOKEN_INVALID else SESSION_INVALID)).
Proof.
  intros Hsig Hold. unfold refresh, jwt_verify. rewrite Hsig. simpl.
  case_bool_decide; [done|].
  destruct (list_find _ (sessions db)) as [[si s]|] eqn:E; [|done].
  apply list_find_Some in E as (Hsi & (Hid & Hh & _) & _).
  apply list_elem_of_lookup_2 in Hsi.
  unfold rotated_away in Hold. rewrite Forall_forall in Hold.
  by destruct (Hold s Hsi Hid).
Qed.

(** C2, as amended.  The session ids of the store are pairwise distinct (the
    unique index), the token [old] is refreshed successfully at [now1], in a
    later clock second than the one it was issued in, and then any requests
    are served at instants from [now1] on.  After that, whenever [old] is
    presented again the refresh fails and leaves the store as it is: with 401
    SESSION_INVALID as long as [old] has not reached its own expiry, with 401
    REFRESH_TOKEN_INVALID from then on. *)
Theorem C2_rotated_token_is_refused (env : Env) (db : Store) (old : RefreshToken)
    (now1 now2 : Z) (trace : list (Z * Request)) :
  NoDup (Session.sessionId <$> sessions db) →
  status (refresh env now1 db (Some old)).2 = 200 →
  rt_iat old < now1 / 1000 →
  Forall (λ p, now1 <= p.1) trace →
  let later := run env (refresh env now1 db (Some old)).1 trace in
  refresh env now2 later (Some old)
  = (later, failure 401 (if bool_decide (rt_exp old <= now2 / 1000)
                         then REFRESH_TOKEN_INVALID else SESSION_INVALID)).
Proof.
  intros Hnd H Hlt Ht later.
  destruct (refresh_success env now1 db (Some old) H)
    as (token & si & s & owner & ui & [= <-] & Hv & _).
  apply replay_refused.
  - unfold jwt_verify in Hv. by destruct (rt_sig_ok old).
  - apply run_rotated_away; [|by apply refresh_rotates_away].
    eapply Forall_impl; [exact Ht|]. intros [t r] Hle. simpl in *.
    assert (now1 / 1000 <= t / 1000) by (apply Z.div_le_mono; lia). lia.
Qed.

Example registered_ids_distinct : NoDup (Session.sessionId <$> sessions registered.1).
Proof. change (NoDup ["s1"]). apply NoDup_singleton. Qed.

Lemma C2_rotated_token_is_refused_witness :
  let trace := [(1006000, GetMe (Some first_access_token))] in
  let later := run default_env refreshed.1 trace in
  NoDup (Session.sessionId <$> sessions registered.1)
  ∧ status refreshed.2 = 200
  ∧ rt_iat first_refresh_token < 1005000 / 1000
  ∧ Forall (λ p, 1005000 <= p.1) trace
  ∧ refresh default_env 1010000 later (Some first_refresh_token)
    = (later, failure 401 SESSION_INVALID).
Proof.
  intros trace later.
  assert (Forall (λ p : Z * Request, 1005000 <= p.1) trace) as Ht.
  { repeat constructor. simpl. lia. }
  split_and!; [exact registered_ids_distinct|reflexivity|reflexivity|exact Ht|].
  exact (C2_rotated_token_is_refused default_env registered.1 first_refresh_token
           1005000 1010000 trace registered_ids_distinct eq_refl eq_refl Ht).
Defined.

(** C2 as stated fails on "all subsequent refresh attempts".  The token of
    the remembered session is rotated six days after the login; eight days
    after the login it is presented again.  Its session is alive (it expires
    after 30 days) and the token that replaced it is valid, but its own expiry
    (7 days) has passed, and the answer is REFRESH_TOKEN_INVALID. *)
Lemma C2_expired_replay_is_token_invalid :
  let rotated := refresh default_env (2000000 + 6 * day) remembered.1
                   (Some remembered_refresh_token) in
  let replay := refresh default_env (2000000 + 8 * day) rotated.1
                  (Some remembered_refresh_token) in
  (refreshToken <$> body_tokens remembered.2) = Some remembered_refresh_token
  ∧ status rotated.2 = 200
  ∧ code replay.2 = Some REFRESH_TOKEN_INVALID
  ∧ code replay.2 ≠ Some SESSION_INVALID.
Proof. repeat split. intros [=]. Qed.

(** A refresh served in the clock second in which the presented token was
    issued signs the same claims again: the new token is the presented one,
    its digest stays the stored one, and presenting it again succeeds. *)
Example same_second_refresh_reissues_the_token :
  let again := refresh default_env 1000500 registered.1 (Some first_refresh_token) in
  (refreshToken <$> body_tokens again.2) = Some first_refresh_token
  ∧ status (refresh default_env 1002000 again.1 (Some first_refresh_token)).2 = 200.
Proof. split; reflexivity. Qed.

(** ** Replay of a rotated refresh token *)

(** The reuse branch is taken only for a token whose digest is the stored one
    of its session, and only when another active session has its family. *)
Lemma reuse_detected_only_for_current_token env now db token :
  code (refresh env now db (Some token)).2 = Some TOKEN_REUSE_DETECTED →
  ∃ s other,
    s ∈ sessions db ∧ Session.sessionId s = rt_sessionId token
    ∧ Session.refreshTokenHash s = Sha256 token
    ∧ other ∈ sessions db ∧ Session.other_active_in_family
                               (rt_tokenFamily token) (rt_sessionId token) other.
Proof.
  unfold refresh.
  destruct (jwt_verify _ _ _); simpl; [done|].
  destruct (list_find _ (sessions db)) as [[si s]|] eqn:Es; simpl; [|done].
  unfold Session.detectTokenReuse. case_bool_decide as Hf; simpl.
  - intros _. apply list_find_Some in Es as (Hsi & (Hid & Hh & _) & _).
    destruct (filter _ (sessions db)) as [|other rest] eqn:Ef; [done|].
    assert (other ∈ filter (Session.other_active_in_family (rt_tokenFamily token)
                              (rt_sessionId token)) (sessions db)) as Hin
      by (rewrite Ef; left).
    apply list_elem_of_filter in Hin as [Ho Hin].
    exists s, other. split_and!; eauto using list_elem_of_lookup_2.
  - destruct (list_find _ (users db)) as [[? ?]|]; simpl; done.
Qed.

(** C1 on the scenario of the specification: alice registers, refreshes five
    seconds later, and five seconds after that the first refresh token is
    presented again.  The replay is answered 401 SESSION_INVALID, not
    TOKEN_REUSE_DETECTED; it changes nothing in the store, the session of the
    family is still active, and the access token of the first login is still
    accepted by [GET /auth/me]. *)
Theorem C1_replayed_token_is_not_detected :
  let replay := refresh default_env 1010000 refreshed.1 (Some first_refresh_token) in
  let profile := me 1015000 replay.1 (Some first_access_token) in
  status refreshed.2 = 200
  ∧ (refreshToken <$> body_tokens refreshed.2) ≠ Some first_refresh_token
  ∧ replay.2 = failure 401 SESSION_INVALID
  ∧ replay.1 = refreshed.1
  ∧ (λ s, (Session.tokenFamily s, Session.isActive s)) <$> sessions replay.1
    = [("f1", true)]
  ∧ status profile.2 = 200.
Proof. split_and!; try reflexivity. intros [=]. Qed.

(** ** The gate, seen from the routes behind it *)

Lemma handle_rejected env now db req bearer db' r :
  bearer_of req = Some bearer →
  authenticate now db bearer = Rejected db' r →
  handle env now db req = (db', r).
Proof.
  destruct req; simpl; intros [= ->] H;
    unfold logout, logout_all, me, list_sessions, revoke_session, change_password;
    by rewrite H.
Qed.

Lemma authenticate_passed now db bearer db1 ui user si session :
  authenticate now db bearer = Passed db1 ui user si session →
  ∃ token s,
    bearer = Some token
    ∧ at_sig_ok token = true
    ∧ list_find (gate_query now token) (sessions db) = Some (si, s)
    ∧ list_find (λ u, User._id u = at_userId token) (users db) = Some (ui, user)
    ∧ session = Session.updateLastAccessed now s
    ∧ db1 = with_sessions (alter (Session.updateLastAccessed now) si) db.
Proof.
  unfold authenticate, jwt_verify. intros H.
  destruct bearer as [token|]; [|done].
  destruct (at_sig_ok token) eqn:Hsig; simpl in H; [|done].
  case_bool_decide; [done|].
  destruct (list_find _ (sessions db)) as [[si' s]|] eqn:Es; [|done].
  destruct (list_find _ (users db)) as [[ui' user']|] eqn:Eu; [|done].
  destruct (negb (User.isActive user')); [done|].
  destruct (User.isLocked now user'); [done|].
  destruct (User.changedPasswordAfter (at_iat token) user'); [done|].
  injection H as <- <- <- <- <-. by exists token, s.
Qed.

Lemma authenticate_rejected_status now db bearer db' r :
  authenticate now db bearer = Rejected db' r → status r = 401.
Proof.
  intros H.
  assert (match authenticate now db bearer with
          | Rejected _ r0 => status r0 = 401
          | Passed _ _ _ _ _ => True
          end) as Hall.
  { unfold authenticate.
    destruct bearer as [token|]; [|done].
    destruct (jwt_verify _ _ _) as [[]|]; [done..|].
    destruct (list_find _ (sessions db)) as [[? ?]|]; [|done].
    destruct (list_find _ (users db)) as [[? u]|]; [|done].
    destruct (negb _); [done|].
    destruct (User.isLocked now u); [done|].
    by destruct (User.changedPasswordAfter _ u). }
  by rewrite H in Hall.
Qed.

Lemma authenticate_no_session now db token :
  at_sig_ok token = true →
  Forall (λ s, Session.sessionId s = at_sessionId token
               → Session.userId s = at_userId token
               → Session.isActive s = false) (sessions db) →
  authenticate now db (Some token)
  = Rejected db (failure 401 (if bool_decide (at_exp token <= now / 1000)
                              then TOKEN_EXPIRED else SESSION_INVALID)).
Proof.
  intros Hsig Hall. unfold authenticate, jwt_verify. rewrite Hsig. simpl.
  case_bool_decide; [done|].
  destruct (list_find _ (sessions db)) as [[si s]|] eqn:E; [|done].
  apply list_find_Some in E as (Hsi & (Hid & Hu & Ha & _) & _).
  apply list_elem_of_lookup_2 in Hsi. rewrite Forall_forall in Hall.
  rewrite (Hall s Hsi Hid Hu) in Ha. done.
Qed.

Lemma updateLastAccessed_frame now s :
  let s' := Session.updateLastAccessed now s in
  Session.sessionId s' = Session.sessionId s ∧ Session.userId s' = Session.userId s
  ∧ Session.isActive s' = Session.isActive s.
Proof.
  unfold Session.updateLastAccessed, Session.pre_save. by case_bool_decide.
Qed.

(** ** Password change *)

Lemma revoke_other_spec uid cur s :
  let s' := revoke_other uid cur s in
  Session.sessionId s' = Session.sessionId s ∧ Session.userId s' = Session.userId s
  ∧ (Session.userId s = uid → Session.sessionId s ≠ cur → Session.isActive s' = false)
  ∧ (Session.sessionId s = cur → s' = s).
Proof.
  unfold revoke_other. case_bool_decide as H; simpl; split_and!; auto.
  - intros Hc. by destruct H as (_ & _ & Hn).
  - intros Hu Hs. destruct (Session.isActive s) eqn:Ha; [|done]. by destruct H.
Qed.

(** C4, as amended.  After a successful password change made with [token],
    every stored session of that user other than the session of [token] is
    inactive, and the session of [token] is still stored and active.  From
    then on, at any instant, an access token of that user for another session
    that is signed and not expired is turned away by the gate on every
    protected route with 401 SESSION_INVALID (the session lookup fails before
    the password-change check is reached), and the store is left as it is. *)
Theorem C4_password_change_revokes_other_sessions (now : Z) (db : Store)
    (token : AccessToken) (currentPassword newPassword : string) :
  let out := change_password now db (Some token) currentPassword newPassword in
  status out.2 = 200 →
  Forall (λ s, Session.userId s = at_userId token
               → Session.sessionId s ≠ at_sessionId token
               → Session.isActive s = false) (sessions out.1)
  ∧ (∃ si s, sessions out.1 !! si = Some s
             ∧ Session.sessionId s = at_sessionId token
             ∧ Session.userId s = at_userId token
             ∧ Session.isActive s = true)
  ∧ ∀ env now' other req,
      at_userId other = at_userId token →
      at_sessionId other ≠ at_sessionId token →
      jwt_verify now' (at_sig_ok other) (at_exp other) = None →
      bearer_of req = Some (Some other) →
      handle env now' out.1 req = (out.1, failure 401 SESSION_INVALID).
Proof.
  intros out H. unfold out, change_password in *.
  destruct (authenticate now db (Some token)) as [db' r|db1 ui0 requester si session] eqn:Ea.
  { apply authenticate_rejected_status in Ea. simpl in H. congruence. }
  apply authenticate_passed in Ea
    as (token' & s & [= <-] & Hsig & Hs & Hu & -> & ->).
  destruct (list_find (λ u, User._id u = User._id requester) _) as [[ui user]|] eqn:Eu;
    simpl in H; [|done].
  destruct (negb _); simpl in H; [done|]. simpl.
  apply list_find_Some in Eu as (_ & Hid & _).
  apply list_find_Some in Hu as (_ & Hrid & _).
  apply list_find_Some in Hs as (Hsi & (Hsid & Huid & Hact & _) & _).
  destruct (updateLastAccessed_frame now s) as (Hf1 & Hf2 & Hf3).
  rewrite Hid, Hrid, Hf1, Hsid.
  assert (Forall (λ s0, Session.userId s0 = at_userId token
                        → Session.sessionId s0 ≠ at_sessionId token
                        → Session.isActive s0 = false)
            (revoke_other (at_userId token) (at_sessionId token)
               <$> alter (Session.updateLastAccessed now) si (sessions db))) as Hall.
  { apply Forall_fmap, Forall_forall. intros s0 _. simpl.
    destruct (revoke_other_spec (at_userId token) (at_sessionId token) s0)
      as (E1 & E2 & E3 & _).
    rewrite E1, E2. auto. }
  split_and!.
  - exact Hall.
  - exists si, (Session.updateLastAccessed now s).
    rewrite list_lookup_fmap, list_lookup_alter_eq, Hsi. simpl.
    destruct (revoke_other_spec (at_userId token) (at_sessionId token)
                (Session.updateLastAccessed now s)) as (_ & _ & _ & E4).
    rewrite E4 by congruence. split_and!; congruence.
  - intros env now' other req Hou Hos Hv Hb.
    eapply handle_rejected; [exact Hb|].
    unfold jwt_verify in Hv. destruct (at_sig_ok other) eqn:Hsig'; [|done]. simpl in Hv.
    case_bool_decide as Hexp; [done|].
    rewrite authenticate_no_session; simpl.
    + by rewrite bool_decide_eq_false_2.
    + done.
    + eapply Forall_impl; [exact Hall|]. simpl. intros s0 Hs0 E1 E2.
      apply Hs0; congruence.
Qed.

Example second_login_issues_second_token :
  (accessToken <$> body_tokens second_login.2) = Some second_access_token.
Proof. reflexivity. Qed.

Lemma C4_password_change_revokes_other_sessions_witness :
  status password_changed.2 = 200
  ∧ at_userId first_access_token = at_userId second_access_token
  ∧ at_sessionId first_access_token ≠ at_sessionId second_access_token
  ∧ jwt_verify 1121000 (at_sig_ok first_access_token) (at_exp first_access_token) = None
  ∧ handle default_env 1121000 password_changed.1 (GetMe (Some first_access_token))
    = (password_changed.1, failure 401 SESSION_INVALID).
Proof.
  assert (status password_changed.2 = 200) as H by reflexivity.
  assert (at_sessionId first_access_token ≠ at_sessionId second_access_token) as Hne
    by (intros [=]).
  split_and!; [exact H|reflexivity|exact Hne|reflexivity|].
  destruct (C4_password_change_revokes_other_sessions 1120000 second_login.1
              second_access_token "Passw0rd1" "N3wPassw0rd" H) as (_ & _ & Hgate).
  exact (Hgate default_env 1121000 first_access_token (GetMe (Some first_access_token))
           eq_refl Hne eq_refl eq_refl).
Defined.

(** C4 as stated fails on the code of the rejection.  alice has two sessions
    and changes her password from the second one; the access token of the
    first session, issued two minutes earlier and valid for 30 minutes, is
    then answered SESSION_INVALID, not PASSWORD_CHANGED. *)
Lemma C4_other_session_is_rejected_as_session_invalid :
  let next := me 1121000 password_changed.1 (Some first_access_token) in
  status password_changed.2 = 200
  ∧ (λ s, (Session.sessionId s, Session.isActive s)) <$> sessions password_changed.1
    = [("s1", false); ("s2", true)]
  ∧ code next.2 = Some SESSION_INVALID
  ∧ code next.2 ≠ Some PASSWORD_CHANGED.
Proof. split_and!; try reflexivity. intros [=]. Qed.

(** The session that changed the password is spared by the route, and closed
    by the request gate as soon as it presents the access token it used for
    the change: that token was issued before the stored [passwordChangedAt]. *)
Example changing_session_is_closed_on_its_next_request :
  let next := me 1121000 password_changed.1 (Some second_access_token) in
  code next.2 = Some PASSWORD_CHANGED
  ∧ (λ s, (Session.sessionId s, Session.isActive s)) <$> sessions next.1
    = [("s1", false); ("s2", false)].
Proof. split; reflexivity. Qed.

(** ** Logout *)







(** * Further properties *)

(** ** The login throttle *)

Lemma authRateLimit_own (maxAttempts windowMinutes now : Z) (ip : option string)
    (attempts : Attempts) :
  let out := authRateLimit maxAttempts windowMinutes now ip attempts in
  let own := throttle_entry maxAttempts (windowMinutes * 60 * 1000) now (attempts !! ip) in
  out.1 !! ip = own.1 ∧ out.2 = own.2.
Proof.
  unfold authRateLimit, throttle_entry. rewrite map_lookup_filter.
  destruct (attempts !! ip) as [e|] eqn:E; simpl.
  - case_guard as Hg; simpl in *.
    + rewrite bool_decide_eq_false_2 by done.
      case_bool_decide; simpl; [by rewrite map_lookup_filter, E; simpl; case_guard|].
      by rewrite lookup_insert_eq.
    + rewrite bool_decide_eq_true_2 by (destruct (decide (windowMinutes * 60 * 1000
                                                          < now - RateLimit.firstAttempt e)); tauto).
      simpl. by rewrite lookup_insert_eq.
  - by rewrite lookup_insert_eq.
Qed.

Lemma authRateLimit_others (maxAttempts windowMinutes now : Z) (ip ip' : option string)
    (attempts : Attempts) :
  ip' ≠ ip →
  (authRateLimit maxAttempts windowMinutes now ip attempts).1 !! ip'
  = match attempts !! ip' with
    | Some e =>
        if bool_decide (windowMinutes * 60 * 1000 < now - RateLimit.firstAttempt e)
        then None else Some e
    | None => None
    end.
Proof.
  intros Hne. unfold authRateLimit.
  assert (filter (λ kv : option string * RateLimit.entry,
                    ¬ windowMinutes * 60 * 1000 < now - RateLimit.firstAttempt kv.2)
            attempts !! ip'
          = match attempts !! ip' with
            | Some e =>
                if bool_decide (windowMinutes * 60 * 1000 < now - RateLimit.firstAttempt e)
                then None else Some e
            | None => None
            end) as Hf.
  { rewrite map_lookup_filter. destruct (attempts !! ip') as [e|]; simpl; [|done].
    case_guard; case_bool_decide; simpl in *; tauto || done. }
  repeat case_match; simpl; rewrite ?lookup_insert_ne by done; exact Hf.
Qed.

Lemma throttle_run_live (maxAttempts windowMinutes : Z) (ip : option string) (t0 : Z)
    (rest : list Z) : ∀ (c : Z) (attempts : Attempts),
  attempts !! ip = Some (RateLimit.mk c t0) →
  Forall (λ t, t - t0 <= windowMinutes * 60 * 1000) rest →
  let out := throttle_run maxAttempts windowMinutes ip rest attempts in
  out.2 = imap (λ j t, if bool_decide (c + Z.of_nat j < maxAttempts) then Next
                       else TooMany (ceil_seconds (t0 + windowMinutes * 60 * 1000 - t)))
            rest
  ∧ ∃ c', out.1 !! ip = Some (RateLimit.mk c' t0) ∧ c <= c'.
Proof.
  induction rest as [|t rest IH]; intros c attempts He Hw; simpl.
  { split; [done|]. exists c. split; [done|lia]. }
  inversion Hw as [|? ? Ht Hrest]; subst.
  destruct (authRateLimit_own maxAttempts windowMinutes t ip attempts) as [Hown Hres].
  rewrite He in Hown, Hres. simpl in Hown, Hres.
  rewrite bool_decide_eq_false_2 in Hown, Hres by lia.
  rewrite Hres. clear Hres.
  destruct (decide (maxAttempts <= c)) as [Hfull|Hroom].
  - rewrite bool_decide_eq_true_2 in Hown |- * by done. simpl in Hown.
    destruct (IH c _ Hown Hrest) as (Hout & c' & Hc' & Hle).
    split; [|by exists c'].
    f_equal; [by rewrite bool_decide_eq_false_2 by lia|].
    rewrite Hout. apply imap_ext. intros j t' _. simpl.
    rewrite !bool_decide_eq_false_2 by lia. done.
  - rewrite bool_decide_eq_false_2 in Hown |- * by done. simpl in Hown.
    destruct (IH (c + 1) _ Hown Hrest) as (Hout & c' & Hc' & Hle).
    split; [|exists c'; split; [done|lia]].
    f_equal; [by rewrite bool_decide_eq_true_2 by lia|].
    rewrite Hout. apply imap_ext. intros j t' _. simpl.
    replace (c + 1 + Z.of_nat j) with (c + Z.of_nat (S j)) by lia. done.
Qed.

(** X1.  The budget of one window.  An address with no entry in force makes a
    first request at [t0] and further requests at instants not later than the
    end of the window that the first one opens.  The first request passes
    whatever the limit is; request number [i] (counted from 0) passes when
    [i] is below [maxAttempts], and is otherwise answered 429 with the whole
    seconds that remain of the window, a number that is not negative. *)
Theorem throttle_window_budget (maxAttempts windowMinutes : Z) (ip : option string)
    (t0 : Z) (rest : list Z) (attempts : Attempts) :
  no_live_entry (windowMinutes * 60 * 1000) t0 ip attempts →
  Forall (λ t, t - t0 <= windowMinutes * 60 * 1000) rest →
  (throttle_run maxAttempts windowMinutes ip (t0 :: rest) attempts).2
  = imap (λ i t, if bool_decide (i = 0%nat ∨ Z.of_nat i < maxAttempts) then Next
                 else TooMany (ceil_seconds (t0 + windowMinutes * 60 * 1000 - t)))
      (t0 :: rest)
  ∧ Forall (λ r, match r with Next => True | TooMany s => 0 <= s end)
      (throttle_run maxAttempts windowMinutes ip (t0 :: rest) attempts).2.
Proof.
  intros Hfree Hw.
  assert ((throttle_run maxAttempts windowMinutes ip (t0 :: rest) attempts).2
          = imap (λ i t, if bool_decide (i = 0%nat ∨ Z.of_nat i < maxAttempts) then Next
                         else TooMany (ceil_seconds (t0 + windowMinutes * 60 * 1000 - t)))
              (t0 :: rest)) as Hout.
  { simpl.
    destruct (authRateLimit_own maxAttempts windowMinutes t0 ip attempts) as [Hown Hres].
    assert (throttle_entry maxAttempts (windowMinutes * 60 * 1000) t0 (attempts !! ip)
            = (Some (RateLimit.mk 1 t0), Next)) as Hfirst.
    { unfold no_live_entry in Hfree. unfold throttle_entry.
      destruct (attempts !! ip); [|done]. by rewrite bool_decide_eq_true_2. }
    rewrite Hfirst in Hown, Hres. simpl in Hown, Hres. rewrite Hres.
    f_equal.
    destruct (throttle_run_live maxAttempts windowMinutes ip t0 rest 1 _ Hown Hw)
      as [Hrest _].
    rewrite Hrest. apply imap_ext. intros j t _. simpl.
    destruct (decide (1 + Z.of_nat j < maxAttempts)).
    - rewrite !bool_decide_eq_true_2; [done|right; lia|done].
    - rewrite !bool_decide_eq_false_2; [done|lia|done]. }
  split; [exact Hout|]. rewrite Hout.
  apply Forall_lookup. intros i r Hi.
  rewrite list_lookup_imap in Hi.
  destruct ((t0 :: rest) !! i) as [t|] eqn:Et; [|done]. simpl in Hi.
  injection Hi as <-. case_bool_decide; [done|].
  assert (t - t0 <= windowMinutes * 60 * 1000) as Ht.
  { destruct i as [|i]; simpl in Et; [injection Et as <-; destruct H; by left|].
    rewrite Forall_lookup in Hw. eauto. }
  unfold ceil_seconds. apply Z.div_pos; lia.
Qed.

Lemma throttle_window_budget_witness :
  no_live_entry (15 * 60 * 1000) 1000 (Some "10.0.0.7") ∅
  ∧ Forall (λ t, t - 1000 <= 15 * 60 * 1000) [2000; 3000; 4000]
  ∧ (throttle_run 2 15 (Some "10.0.0.7") [1000; 2000; 3000; 4000] ∅).2
    = [Next; Next; TooMany 898; TooMany 897].
Proof.
  assert (Forall (λ t, t - 1000 <= 15 * 60 * 1000) [2000; 3000; 4000]) as Hw
    by (repeat constructor; lia).
  assert (no_live_entry (15 * 60 * 1000) 1000 (Some "10.0.0.7") ∅) as Hfree
    by (unfold no_live_entry; by rewrite lookup_empty).
  split_and!; [exact Hfree|exact Hw|].
  destruct (throttle_window_budget 2 15 (Some "10.0.0.7") 1000 [2000; 3000; 4000] ∅
              Hfree Hw)
    as [Hout _].
  etrans; [exact Hout|reflexivity].
Defined.

(** X2.  A block ends with its window.  After a first request at [t0] and any
    number of further requests within the window, passed or refused, a
    request made later than [windowMinutes] after [t0] passes and opens a new
    window with a count of 1: refused retries do not prolong the block. *)
Theorem throttle_block_ends_with_window (maxAttempts windowMinutes : Z)
    (ip : option string) (t0 now : Z) (rest : list Z) (attempts : Attempts) :
  no_live_entry (windowMinutes * 60 * 1000) t0 ip attempts →
  Forall (λ t, t - t0 <= windowMinutes * 60 * 1000) rest →
  windowMinutes * 60 * 1000 < now - t0 →
  let before := (throttle_run maxAttempts windowMinutes ip (t0 :: rest) attempts).1 in
  let out := authRateLimit maxAttempts windowMinutes now ip before in
  out.2 = Next ∧ out.1 !! ip = Some (RateLimit.mk 1 now).
Proof.
  intros Hfree Hw Hlate before out.
  assert (∃ c, before !! ip = Some (RateLimit.mk c t0)) as [c Hc].
  { unfold before. simpl.
    destruct (authRateLimit_own maxAttempts windowMinutes t0 ip attempts) as [Hown _].
    assert ((throttle_entry maxAttempts (windowMinutes * 60 * 1000) t0 (attempts !! ip)).1
            = Some (RateLimit.mk 1 t0)) as Hfirst.
    { unfold no_live_entry in Hfree. unfold throttle_entry.
      destruct (attempts !! ip); [|done]. by rewrite bool_decide_eq_true_2. }
    rewrite Hfirst in Hown.
    destruct (throttle_run_live maxAttempts windowMinutes ip t0 rest 1 _ Hown Hw)
      as (_ & c & Hc & _). by exists c. }
  destruct (authRateLimit_own maxAttempts windowMinutes now ip before) as [Hown Hres].
  fold out in Hown, Hres. rewrite Hc in Hown, Hres. simpl in Hown, Hres.
  rewrite bool_decide_eq_true_2 in Hown, Hres by done. done.
Qed.

Lemma throttle_block_ends_with_window_witness :
  let before := (throttle_run 1 15 (Some "10.0.0.7") [1000; 2000; 3000] ∅).1 in
  no_live_entry (15 * 60 * 1000) 1000 (Some "10.0.0.7") ∅
  ∧ Forall (λ t, t - 1000 <= 15 * 60 * 1000) [2000; 3000]
  ∧ 15 * 60 * 1000 < 901001 - 1000
  ∧ (authRateLimit 1 15 901001 (Some "10.0.0.7") before).2 = Next.
Proof.
  intros before.
  assert (Forall (λ t, t - 1000 <= 15 * 60 * 1000) [2000; 3000]) as Hw
    by (repeat constructor; lia).
  assert (no_live_entry (15 * 60 * 1000) 1000 (Some "10.0.0.7") ∅) as Hfree
    by (unfold no_live_entry; by rewrite lookup_empty).
  split_and!; [exact Hfree|exact Hw|lia|].
  apply (throttle_block_ends_with_window 1 15 (Some "10.0.0.7") 1000 901001 [2000; 3000] ∅
           Hfree Hw). lia.
Defined.

(** X3.  Addresses do not share a budget.  A request of one address leaves the
    entry of every other address as it is, unless that entry's window is
    over, in which case the sweep removes it; it never raises another
    address's count and never creates an entry for it. *)
Theorem throttle_addresses_are_independent (maxAttempts windowMinutes now : Z)
    (ip other : option string) (attempts : Attempts) :
  other ≠ ip →
  (authRateLimit maxAttempts windowMinutes now ip attempts).1 !! other
  = match attempts !! other with
    | Some e =>
        if bool_decide (windowMinutes * 60 * 1000 < now - RateLimit.firstAttempt e)
        then None else Some e
    | None => None
    end.
Proof. apply authRateLimit_others. Qed.

Lemma throttle_addresses_are_independent_witness :
  Some "10.0.0.8" ≠ Some "10.0.0.7"
  ∧ (authRateLimit 5 15 2000 (Some "10.0.0.7")
       {[ Some "10.0.0.8" := RateLimit.mk 3 1000 ]}).1 !! Some "10.0.0.8"
    = Some (RateLimit.mk 3 1000).
Proof.
  assert (Some "10.0.0.8" ≠ Some "10.0.0.7") as Hne by (intros [=]).
  split; [exact Hne|].
  etrans; [exact (throttle_addresses_are_independent 5 15 2000 (Some "10.0.0.7")
                    (Some "10.0.0.8") {[ Some "10.0.0.8" := RateLimit.mk 3 1000 ]} Hne)|].
  reflexivity.
Defined.

(** ** Invariants of the stored sessions *)

Lemma createUserSession_created env now db ui user h rm sid fam db' user' tk s :
  createUserSession env now db ui user h rm sid fam = Some (db', user', tk, s) →
  s = Session.create now (User._id user) sid
        (Sha256 (generateRefreshToken env now (User._id user) sid fam)) fam
        (device_of h) (now + (if rm then 30 * day else 7 * day))
  ∧ sessions db' = sessions db ++ [s]
  ∧ (sid ∉ (Session.sessionId <$> sessions db))
  ∧ users db' = alter (User.addSession now sid user) ui (users db)
  ∧ refreshToken tk = generateRefreshToken env now (User._id user) sid fam
  ∧ accessToken tk = generateAccessToken env now (User._id user) sid
                       (User.username user) (User.email user).
Proof.
  unfold createUserSession. case_bool_decide as Hin; [discriminate|].
  intros [= <- <- <- <-]. done.
Qed.

Lemma handle_appends env now db req :
  ∃ l1 new,
    sessions (handle env now db req).1 = l1 ++ new
    ∧ evolve now (sessions db) l1
    ∧ appended env now db req new.
Proof.
  assert (∀ l', evolve now (sessions db) l' →
                ∃ l1 new, l' = l1 ++ new ∧ evolve now (sessions db) l1
                          ∧ appended env now db req new) as Hsame.
  { intros l' H. exists l', []. rewrite app_nil_r. split_and!; [done..|by left]. }
  destruct req; simpl;
    try (apply Hsame;
         eauto using logout_evolve, logout_all_evolve, me_evolve, list_sessions_evolve,
           revoke_session_evolve, change_password_evolve; apply refresh_evolve).
  - unfold register.
    destruct (list_find _ (users db)); simpl; [apply Hsame, evolve_refl|].
    case_bool_decide; simpl; [apply Hsame, evolve_refl|].
    destruct (createUserSession _ _ _ _ _ _ _ _ _) as [[[[db2 u'] tk] s]|] eqn:E; simpl;
      [|apply Hsame, evolve_refl].
    apply createUserSession_created in E as (-> & -> & Hfresh & _).
    eexists (sessions db), [_]. split_and!; [done|apply evolve_refl|].
    right. by eexists _, _, _, _, _.
  - unfold login.
    destruct (list_find _ (users db)) as [[ui user]|]; simpl; [|apply Hsame, evolve_refl].
    destruct (User.isLocked now user); simpl; [apply Hsame, evolve_refl|].
    destruct (negb (User.isActive user)); simpl; [apply Hsame, evolve_refl|].
    destruct (negb (User.comparePassword password user)); simpl;
      [apply Hsame, evolve_refl|].
    destruct (createUserSession _ _ _ _ _ _ _ _ _) as [[[[db2 u'] tk] s]|] eqn:E; simpl.
    + apply createUserSession_created in E as (-> & -> & Hfresh & _).
      eexists (sessions db), [_]. split_and!.
      * by case_bool_decide.
      * apply evolve_refl.
      * right. eexists _, _, _, _, _. split_and!; [done..|].
        by case_bool_decide.
    + apply Hsame. case_bool_decide; apply evolve_refl.
Qed.

(** Unique session ids are kept: the unique index refuses a duplicate. *)
Lemma handle_keeps_sessionIds_distinct env now db req :
  NoDup (Session.sessionId <$> sessions db) →
  NoDup (Session.sessionId <$> sessions (handle env now db req).1).
Proof.
  intros Hnd. destruct (handle_appends env now db req) as (l1 & new & -> & Hev & Hnew).
  rewrite fmap_app, (evolve_proj Session.sessionId now _ _ ltac:(by intros ?? []) Hev).
  destruct Hnew as [->|(uid & sid & fam & dev & expires & _ & -> & Hfresh)].
  - by rewrite app_nil_r.
  - apply NoDup_app. split_and!; [done| |apply NoDup_singleton].
    intros x Hx Hs. apply list_elem_of_singleton in Hs. subst x. done.
Qed.

Lemma run_keeps_sessionIds_distinct env trace : ∀ db,
  NoDup (Session.sessionId <$> sessions db) →
  NoDup (Session.sessionId <$> sessions (run env db trace)).
Proof.
  induction trace as [|[t req] trace IH]; intros db Hnd; simpl; [done|].
  by apply IH, handle_keeps_sessionIds_distinct.
Qed.

(** X4.  The unique index of the session ids holds along every run: a login or a
    registration whose drawn session id is already stored fails at the save
    and stores no session, so no two stored sessions ever share an id. *)
Theorem session_ids_stay_distinct (env : Env) (db : Store) (trace : list (Z * Request)) :
  NoDup (Session.sessionId <$> sessions db) →
  NoDup (Session.sessionId <$> sessions (run env db trace)).
Proof. apply run_keeps_sessionIds_distinct. Qed.

Section SessionInvariant.

Variable P : Session.t → Prop.

Hypothesis P_deactivate : ∀ now reason s, P s → P (Session.deactivate now reason s).
Hypothesis P_touch : ∀ now s, P s → P (Session.updateLastAccessed now s).
Hypothesis P_revoke : ∀ now reason uid s, P s → P (Session.revoke now reason uid s).
Hypothesis P_breach : ∀ now fam s, P s → P (Session.mark_breach now fam s).
Hypothesis P_other : ∀ uid cur s, P s → P (revoke_other uid cur s).
Hypothesis P_rotate : ∀ env now token s,
  refresh_query now token s → P s →
  P (rotate now s
       (Sha256 (generateRefreshToken env now (Session.userId s) (Session.sessionId s)
                  (rt_tokenFamily token))) s).
Hypothesis P_create : ∀ env now uid sid fam dev expires,
  P (Session.create now uid sid (Sha256 (generateRefreshToken env now uid sid fam))
       fam dev expires).

Lemma Forall_alter_keeps (f : Session.t → Session.t) i l :
  (∀ s, P s → P (f s)) → Forall P l → Forall P (alter f i l).
Proof. intros Hf Hl. apply Forall_alter; [done|]. eauto. Qed.

Lemma Forall_fmap_keeps (f : Session.t → Session.t) l :
  (∀ s, P s → P (f s)) → Forall P l → Forall P (f <$> l).
Proof. intros Hf Hl. apply Forall_fmap. eapply Forall_impl; [exact Hl|]. eauto. Qed.

Lemma authenticate_keeps now db bearer :
  Forall P (sessions db) →
  match authenticate now db bearer with
  | Rejected db' _ => Forall P (sessions db')
  | Passed db' _ _ _ _ => Forall P (sessions db')
  end.
Proof.
  intros H. unfold authenticate.
  destruct bearer as [token|]; [|done].
  destruct (jwt_verify _ _ _) as [[]|]; [done..|].
  destruct (list_find _ (sessions db)) as [[? ?]|]; [|done].
  destruct (list_find _ (users db)) as [[? u]|]; [|done].
  destruct (negb _); [done|].
  destruct (User.isLocked now u); [done|].
  destruct (User.changedPasswordAfter _ u); simpl; apply Forall_alter_keeps; auto.
Qed.

Lemma refresh_keeps env now db presented :
  Forall P (sessions db) → Forall P (sessions (refresh env now db presented).1).
Proof.
  intros H. unfold refresh.
  destruct presented as [token|]; [|done].
  destruct (jwt_verify _ _ _); [done|].
  destruct (list_find _ (sessions db)) as [[si s]|] eqn:Es; [|done].
  unfold Session.detectTokenReuse. case_bool_decide; simpl.
  { apply Forall_fmap_keeps; auto. }
  destruct (list_find _ (users db)) as [[ui owner]|] eqn:Eu; simpl; [|done].
  apply list_find_Some in Es as (Hsi & Hq & _).
  apply list_find_Some in Eu as (_ & -> & _).
  apply Forall_alter; [done|]. intros s' Hs' HP.
  rewrite Hsi in Hs'. injection Hs' as <-. by apply P_rotate.
Qed.

Lemma createUserSession_keeps env now db ui user h rm sid fam db' user' tk s :
  createUserSession env now db ui user h rm sid fam = Some (db', user', tk, s) →
  Forall P (sessions db) → Forall P (sessions db').
Proof.
  intros (-> & -> & _)%createUserSession_created H.
  apply Forall_app. split; [done|]. constructor; [apply P_create|done].
Qed.

Lemma handle_keeps env now db req :
  Forall P (sessions db) → Forall P (sessions (handle env now db req).1).
Proof.
  intros H. destruct req; simpl.
  - unfold register.
    destruct (list_find _ (users db)); simpl; [done|].
    case_bool_decide; simpl; [done|].
    destruct (createUserSession _ _ _ _ _ _ _ _ _) as [[[[db2 u'] tk] s]|] eqn:E; simpl;
      [|done].
    by eapply createUserSession_keeps.
  - unfold login.
    destruct (list_find _ (users db)) as [[ui user]|]; simpl; [|done].
    destruct (User.isLocked now user); simpl; [done|].
    destruct (negb (User.isActive user)); simpl; [done|].
    destruct (negb (User.comparePassword password user)); simpl; [done|].
    destruct (createUserSession _ _ _ _ _ _ _ _ _) as [[[[db2 u'] tk] s]|] eqn:E; simpl.
    + eapply createUserSession_keeps; [exact E|]. by case_bool_decide.
    + by case_bool_decide.
  - by apply refresh_keeps.
  - unfold logout. pose proof (authenticate_keeps now db bearer H) as Hg.
    destruct (authenticate now db bearer); simpl; [done|].
    apply Forall_alter_keeps; auto.
  - unfold logout_all. pose proof (authenticate_keeps now db bearer H) as Hg.
    destruct (authenticate now db bearer); simpl; [done|].
    apply Forall_fmap_keeps; auto.
  - unfold me. pose proof (authenticate_keeps now db bearer H) as Hg.
    by destruct (authenticate now db bearer).
  - unfold list_sessions. pose proof (authenticate_keeps now db bearer H) as Hg.
    by destruct (authenticate now db bearer).
  - unfold revoke_session. pose proof (authenticate_keeps now db bearer H) as Hg.
    destruct (authenticate now db bearer) as [|db1 ? ? ? ?]; simpl; [done|].
    destruct (list_find _ (sessions db1)) as [[? ?]|]; simpl; [|done].
    apply Forall_alter_keeps; auto.
  - unfold change_password. pose proof (authenticate_keeps now db bearer H) as Hg.
    destruct (authenticate now db bearer) as [|db1 ? requester ? ?]; simpl; [done|].
    destruct (list_find _ (users db1)) as [[? u]|]; simpl; [|done].
    destruct (negb _); simpl; [done|].
    apply Forall_fmap_keeps; auto.
Qed.

Lemma run_keeps env trace : ∀ db,
  Forall P (sessions db) → Forall P (sessions (run env db trace)).
Proof.
  induction trace as [|[t req] trace IH]; intros db H; simpl; [done|].
  by apply IH, handle_keeps.
Qed.

End SessionInvariant.

Lemma calculateRiskScore_range now s : 0 <= Session.calculateRiskScore now s <= 45.
Proof. unfold Session.calculateRiskScore. repeat case_bool_decide; lia. Qed.

Lemma pre_save_risk_sound now b s : risk_sound s → risk_sound (Session.pre_save now b s).
Proof.
  unfold Session.pre_save. destruct b; [|done]. intros _.
  pose proof (calculateRiskScore_range now s). unfold risk_sound, isSuspicious. simpl.
  split; [lia|]. intros H'%bool_decide_eq_true. lia.
Qed.

Lemma touched_risk_sound now h s :
  risk_sound s → risk_sound (Session.set_lastAccessedAt now (Session.set_refreshTokenHash h s)).
Proof. done. Qed.

(** X5.  The risk score along a run.  If every stored session has a risk score
    between 0 and 100, and every suspicious one (score above 70) is inactive
    and carries the breach marker, then this is so after any run of requests:
    the score that [calculateRiskScore] computes never exceeds 45, so a
    session becomes suspicious only through the reuse detection, which
    deactivates it. *)
Theorem risk_score_stays_sound (env : Env) (db : Store) (trace : list (Z * Request)) :
  Forall risk_sound (sessions db) →
  Forall risk_sound (sessions (run env db trace))
  ∧ ∀ now s, 0 <= Session.calculateRiskScore now s <= 45.
Proof.
  intros H. split; [|apply calculateRiskScore_range].
  revert db H. apply run_keeps.
  - intros now reason s [Hr Hs]. split; [done|]. intros Hsus. split; [done|].
    simpl. rewrite !lookup_insert_ne by done. by apply Hs.
  - intros now s Hs. unfold Session.updateLastAccessed.
    by apply pre_save_risk_sound.
  - intros now reason uid s [Hr Hs]. unfold Session.revoke. case_bool_decide; [|done].
    split; [done|]. intros Hsus. split; [done|].
    simpl. rewrite !lookup_insert_ne by done. by apply Hs.
  - intros now fam s [Hr Hs]. unfold Session.mark_breach. case_bool_decide; [|done].
    split; [simpl; lia|]. intros _. split; [done|].
    simpl. rewrite lookup_insert_ne by done. by rewrite lookup_insert_eq.
  - intros uid cur s [Hr Hs]. unfold revoke_other. case_bool_decide; [|done].
    split; [done|]. intros Hsus. split; [done|].
    simpl. rewrite !lookup_insert_ne by done. by apply Hs.
  - intros env' now token s _ Hs. unfold rotate. by apply pre_save_risk_sound.
  - intros env' now uid sid fam dev expires. unfold Session.create.
    apply pre_save_risk_sound. split; [simpl; lia|]. done.
Qed.

Lemma risk_score_stays_sound_witness :
  Forall risk_sound (sessions registered.1)
  ∧ Forall risk_sound
      (sessions (run default_env registered.1
                   [(1000000 + 2 * day, PostRefresh (Some first_refresh_token))])).
Proof.
  assert (Forall risk_sound (sessions registered.1)) as H.
  { remember (sessions registered.1) as l eqn:E. vm_compute in E. subst l.
    constructor; [|constructor]. unfold risk_sound, isSuspicious. simpl.
    split; [lia|]. intros [=]. }
  split; [exact H|].
  exact (proj1 (risk_score_stays_sound default_env registered.1 _ H)).
Defined.

(** ** The reuse detection in a store of the server's own making *)

Lemma coherent_frame s s' :
  Session.refreshTokenHash s' = Session.refreshTokenHash s →
  Session.sessionId s' = Session.sessionId s →
  Session.tokenFamily s' = Session.tokenFamily s →
  Session.userId s' = Session.userId s →
  coherent s → coherent s'.
Proof. unfold coherent, stored_token. intros -> -> -> ->. done. Qed.

Lemma handle_keeps_coherent env now db req :
  Forall coherent (sessions db) → Forall coherent (sessions (handle env now db req).1).
Proof.
  apply handle_keeps.
  - intros. by eapply coherent_frame.
  - intros ? s ?. eapply coherent_frame; [..|done];
      unfold Session.updateLastAccessed, Session.pre_save; by case_bool_decide.
  - intros ? ? ? s ?. eapply coherent_frame; [..|done];
      unfold Session.revoke; by case_bool_decide.
  - intros ? ? s ?. eapply coherent_frame; [..|done];
      unfold Session.mark_breach; by case_bool_decide.
  - intros ? ? s ?. eapply coherent_frame; [..|done];
      unfold revoke_other; by case_bool_decide.
  - intros env' now' token s (_ & Hh & _) (Hsig & Hid & Hfam & Hu).
    unfold coherent, stored_token in *. rewrite Hh in Hfam.
    unfold rotate, Session.pre_save. by case_bool_decide.
  - intros. by unfold coherent, stored_token, Session.create.
Qed.

Lemma refresh_never_detects env now db presented :
  Forall coherent (sessions db) →
  NoDup (Session.tokenFamily <$> sessions db) →
  code (refresh env now db presented).2 ≠ Some TOKEN_REUSE_DETECTED.
Proof.
  intros Hco Hnd Hcode.
  destruct presented as [token|]; [|done].
  destruct (reuse_detected_only_for_current_token env now db token Hcode)
    as (s & other & Hs & Hid & Hh & Ho & Hfam & _ & Hne).
  rewrite Forall_forall in Hco. destruct (Hco s Hs) as (_ & _ & Hsf & _).
  unfold stored_token in Hsf. rewrite Hh in Hsf.
  apply list_elem_of_lookup in Hs as [i Hi]. apply list_elem_of_lookup in Ho as [j Hj].
  assert (i = j) as ->.
  { eapply NoDup_lookup; [exact Hnd|..]; rewrite list_lookup_fmap.
    - by rewrite Hi.
    - rewrite Hj. simpl. congruence. }
  congruence.
Qed.

Lemma authenticate_rejected_code now db bearer db' r :
  authenticate now db bearer = Rejected db' r → code r ≠ Some TOKEN_REUSE_DETECTED.
Proof.
  intros H.
  assert (match authenticate now db bearer with
          | Rejected _ r0 => code r0 ≠ Some TOKEN_REUSE_DETECTED
          | Passed _ _ _ _ _ => True
          end) as Hall.
  { unfold authenticate.
    destruct bearer as [token|]; [|done].
    destruct (jwt_verify _ _ _) as [[]|]; [done..|].
    destruct (list_find _ (sessions db)) as [[? ?]|]; [|done].
    destruct (list_find _ (users db)) as [[? u]|]; [|done].
    destruct (negb _); [done|].
    destruct (User.isLocked now u); [done|].
    by destruct (User.changedPasswordAfter _ u). }
  by rewrite H in Hall.
Qed.

Lemma only_refresh_detects env now db req :
  drawn req ≠ None ∨ bearer_of req ≠ None →
  code (handle env now db req).2 ≠ Some TOKEN_REUSE_DETECTED.
Proof.
  intros Hreq. destruct req; simpl in *.
  - unfold register. repeat case_match; simpl; done.
  - unfold login. repeat case_match; simpl; done.
  - by destruct Hreq.
  - unfold logout. destruct (authenticate now db bearer) eqn:E; simpl; [|done].
    by eapply authenticate_rejected_code.
  - unfold logout_all. destruct (authenticate now db bearer) eqn:E; simpl; [|done].
    by eapply authenticate_rejected_code.
  - unfold me. destruct (authenticate now db bearer) eqn:E; simpl; [|done].
    by eapply authenticate_rejected_code.
  - unfold list_sessions. destruct (authenticate now db bearer) eqn:E; simpl; [|done].
    by eapply authenticate_rejected_code.
  - unfold revoke_session. destruct (authenticate now db bearer) eqn:E; simpl;
      [by eapply authenticate_rejected_code|].
    repeat case_match; simpl; done.
  - unfold change_password. destruct (authenticate now db bearer) eqn:E; simpl;
      [by eapply authenticate_rejected_code|].
    repeat case_match; simpl; done.
Qed.

Lemma handle_families env now db req :
  ∃ new, Session.tokenFamily <$> sessions (handle env now db req).1
         = (Session.tokenFamily <$> sessions db) ++ new
         ∧ (new = [] ∨ ∃ sid fam, drawn req = Some (sid, fam) ∧ new = [fam]).
Proof.
  destruct (handle_appends env now db req) as (l1 & new & -> & Hev & Hnew).
  exists (Session.tokenFamily <$> new).
  rewrite fmap_app, (evolve_proj Session.tokenFamily now _ _ ltac:(by intros ?? []) Hev).
  split; [done|].
  destruct Hnew as [->|(uid & sid & fam & dev & expires & Hd & -> & _)]; [by left|].
  right. by exists sid, fam.
Qed.

Lemma drawn_families_cons t req trace :
  drawn_families ((t, req) :: trace)
  = match drawn req with
    | Some (_, fam) => fam :: drawn_families trace
    | None => drawn_families trace
    end.
Proof. unfold drawn_families. simpl. by destruct (drawn req) as [[? ?]|]. Qed.

(** X6.  With distinct token families the reuse detection never fires.  In a store
    whose sessions hold digests of tokens signed for them, with pairwise
    distinct token families, and along a run whose logins and registrations
    bring token families that are new and pairwise distinct (as UUIDs are),
    no request is ever answered TOKEN_REUSE_DETECTED. *)
Theorem reuse_detection_never_fires (env : Env) (db : Store) (trace : list (Z * Request)) :
  Forall coherent (sessions db) →
  NoDup ((Session.tokenFamily <$> sessions db) ++ drawn_families trace) →
  Forall (λ r, code r ≠ Some TOKEN_REUSE_DETECTED) (responses env db trace).
Proof.
  revert db. induction trace as [|[t req] trace IH]; intros db Hco Hnd; simpl; [done|].
  constructor.
  - destruct req; try (apply only_refresh_detects; simpl; by (left + right)).
    apply refresh_never_detects; [done|]. by apply NoDup_app in Hnd as [? _].
  - apply IH; [by apply handle_keeps_coherent|].
    destruct (handle_families env t db req) as (new & -> & Hnew).
    rewrite drawn_families_cons in Hnd.
    destruct Hnew as [->|(sid & fam & Hd & ->)].
    + rewrite app_nil_r. eapply sublist_NoDup; [exact Hnd|].
      apply sublist_app; [done|]. destruct (drawn req) as [[? ?]|]; [|done].
      by apply sublist_cons.
    + rewrite Hd in Hnd. by rewrite <- app_assoc.
Qed.

Lemma reuse_detection_never_fires_witness :
  let trace :=
    [(1000000, PostRegister "alice" "alice@x.com" "Passw0rd1" "" "" "u1" "s1" "f1" curl);
     (1005000, PostRefresh (Some first_refresh_token));
     (1010000, PostRefresh (Some first_refresh_token))] in
  Forall coherent (sessions empty_store)
  ∧ NoDup ((Session.tokenFamily <$> sessions empty_store) ++ drawn_families trace)
  ∧ Forall (λ r, code r ≠ Some TOKEN_REUSE_DETECTED)
      (responses default_env empty_store trace).
Proof.
  intros trace.
  assert (NoDup ((Session.tokenFamily <$> sessions empty_store) ++ drawn_families trace))
    as Hnd by (change (NoDup ["f1"]); apply NoDup_singleton).
  split_and!; [constructor|exact Hnd|].
  exact (reuse_detection_never_fires default_env empty_store trace (Forall_nil_2 _) Hnd).
Defined.

Lemma session_ids_stay_distinct_witness :
  NoDup (Session.sessionId <$> sessions registered.1)
  ∧ NoDup (Session.sessionId <$> sessions second_login.1).
Proof.
  split; [exact registered_ids_distinct|].
  exact (session_ids_stay_distinct default_env registered.1
           [(1060000, PostLogin "alice@x.com" "Passw0rd1" false "s2" "f2" curl)]
           registered_ids_distinct).
Defined.

(** ** Invariants of the stored users *)









(** ** What the request gate guarantees *)

Lemma authenticate_passed_full (now : Z) (db db' : Store) (bearer : option AccessToken)
    (ui si : nat) (user : User.t) (session : Session.t) :
  authenticate now db bearer = Passed db' ui user si session →
  ∃ token s,
    bearer = Some token
    ∧ at_sig_ok token = true ∧ now / 1000 < at_exp token
    ∧ sessions db !! si = Some s
    ∧ Session.sessionId s = at_sessionId token ∧ Session.userId s = at_userId token
    ∧ Session.isActive s = true ∧ now < Session.expiresAt s
    ∧ users db !! ui = Some user
    ∧ User._id user = at_userId token
    ∧ User.isActive user = true ∧ User.isLocked now user = false
    ∧ User.changedPasswordAfter (at_iat token) user = false
    ∧ session = Session.updateLastAccessed now s
    ∧ sessions db' = <[si := session]> (sessions db)
    ∧ users db' = users db.
Proof.
  unfold authenticate, jwt_verify. intros H.
  destruct bearer as [token|]; [|done].
  destruct (at_sig_ok token) eqn:Hsig; simpl in H; [|done].
  case_bool_decide as Hexp; [done|].
  destruct (list_find _ (sessions db)) as [[si' s]|] eqn:Es; [|done].
  destruct (list_find _ (users db)) as [[ui' user']|] eqn:Eu; [|done].
  destruct (User.isActive user') eqn:Hact; simpl in H; [|done].
  destruct (User.isLocked now user') eqn:Hlock; [done|].
  destruct (User.changedPasswordAfter (at_iat token) user') eqn:Hch; [done|].
  injection H as <- <- <- <- <-.
  apply list_find_Some in Es as (Hsi & (? & ? & ? & ?) & _).
  apply list_find_Some in Eu as (Hui & ? & _).
  exists token, s. split_and!; try done; [lia|].
  simpl. by apply alter_lookup_insert.
Qed.

(** X8.  A request passes the gate only with a signed, unexpired access token
    whose session is stored, belongs to the user of the token, is active and
    has not reached its [expiresAt], and whose user is stored, active, not
    locked, and has not changed the password since the token was issued.  The
    gate then hands the stored user and the touched session to the route and
    has written nothing but that touch. *)
Theorem gate_pass_guarantees (now : Z) (db db' : Store) (bearer : option AccessToken)
    (ui si : nat) (user : User.t) (session : Session.t) :
  authenticate now db bearer = Passed db' ui user si session →
  ∃ token s,
    bearer = Some token
    ∧ at_sig_ok token = true ∧ now / 1000 < at_exp token
    ∧ sessions db !! si = Some s
    ∧ Session.sessionId s = at_sessionId token ∧ Session.userId s = at_userId token
    ∧ Session.isActive s = true ∧ now < Session.expiresAt s
    ∧ users db !! ui = Some user
    ∧ User._id user = at_userId token
    ∧ User.isActive user = true ∧ User.isLocked now user = false
    ∧ User.changedPasswordAfter (at_iat token) user = false
    ∧ session = Session.updateLastAccessed now s
    ∧ sessions db' = <[si := session]> (sessions db)
    ∧ users db' = users db.
Proof. apply authenticate_passed_full. Qed.

Lemma gate_pass_guarantees_witness :
  ∃ db' session,
    authenticate 1005000 registered.1 (Some first_access_token)
    = Passed db' 0%nat alice_registered 0%nat session
    ∧ Session.isActive session = true.
Proof.
  eexists _, _.
  assert (authenticate 1005000 registered.1 (Some first_access_token)
          = Passed (gate_store (authenticate 1005000 registered.1 (Some first_access_token)))
              0%nat alice_registered 0%nat
              (Session.updateLastAccessed 1005000
                 (default (Session.create 0 "" "" (Sha256 first_refresh_token) ""
                             (device_of curl) 0)
                    (head (sessions registered.1))))) as H by reflexivity.
  split; [exact H|].
  destruct (gate_pass_guarantees _ _ _ _ _ _ _ _ H)
    as (token & s & _ & _ & _ & _ & _ & _ & Ha & _ & _ & _ & _ & _ & _ & -> & _).
  destruct (updateLastAccessed_frame 1005000 s) as (_ & _ & ->). exact Ha.
Defined.

Lemma gate_rejection_cases (now : Z) (db db' : Store) (bearer : option AccessToken)
    (r : Response) :
  authenticate now db bearer = Rejected db' r →
  status r = 401 ∧ success r = false
  ∧ (code r ≠ Some PASSWORD_CHANGED → db' = db)
  ∧ (code r = Some PASSWORD_CHANGED →
     ∃ token si s,
       bearer = Some token ∧ sessions db !! si = Some s
       ∧ Session.sessionId s = at_sessionId token
       ∧ Session.userId s = at_userId token
       ∧ sessions db' = <[si := Session.deactivate now "password_changed" s]> (sessions db)
       ∧ users db' = users db).
Proof.
  unfold authenticate. intros H.
  destruct bearer as [token|]; [|by simplify_eq/=; split_and!].
  destruct (jwt_verify _ _ _) as [[]|]; [by simplify_eq/=; split_and!..|].
  destruct (list_find _ (sessions db)) as [[si s]|] eqn:Es;
    [|by simplify_eq/=; split_and!].
  destruct (list_find _ (users db)) as [[ui u]|]; [|by simplify_eq/=; split_and!].
  destruct (negb _); [by simplify_eq/=; split_and!|].
  destruct (User.isLocked now u); [by simplify_eq/=; split_and!|].
  destruct (User.changedPasswordAfter _ u); [|done].
  injection H as <- <-. split_and!; [done..|].
  intros _. apply list_find_Some in Es as (Hsi & (? & ? & _) & _).
  exists token, si, s. split_and!; try done. simpl. by apply alter_lookup_insert.
Qed.

(** X9.  A request that the gate turns away is answered 401.  Unless the answer is
    PASSWORD_CHANGED the store is left as it is; with PASSWORD_CHANGED the one
    session of the token is deactivated and nothing else is written. *)
Theorem gate_rejection_writes (now : Z) (db db' : Store) (bearer : option AccessToken)
    (r : Response) :
  authenticate now db bearer = Rejected db' r →
  status r = 401 ∧ success r = false
  ∧ (code r ≠ Some PASSWORD_CHANGED → db' = db)
  ∧ (code r = Some PASSWORD_CHANGED →
     ∃ token si s,
       bearer = Some token ∧ sessions db !! si = Some s
       ∧ Session.sessionId s = at_sessionId token
       ∧ Session.userId s = at_userId token
       ∧ sessions db' = <[si := Session.deactivate now "password_changed" s]> (sessions db)
       ∧ users db' = users db).
Proof. apply gate_rejection_cases. Qed.

Lemma gate_rejection_writes_witness :
  authenticate 1121000 password_changed.1 (Some first_access_token)
  = Rejected password_changed.1 (failure 401 SESSION_INVALID)
  ∧ status (failure 401 SESSION_INVALID) = 401.
Proof.
  assert (authenticate 1121000 password_changed.1 (Some first_access_token)
          = Rejected password_changed.1 (failure 401 SESSION_INVALID)) as H by reflexivity.
  split; [exact H|].
  exact (proj1 (gate_rejection_writes _ _ _ _ _ H)).
Defined.

(** ** Requests of one user and the documents of the others *)

Lemma Forall2_compose {A} (R : A → A → Prop) (l1 l2 l3 : list A) :
  (∀ x y z, R x y → R y z → R x z) →
  Forall2 R l1 l2 → Forall2 R l2 l3 → Forall2 R l1 l3.
Proof.
  intros HR H. revert l3. induction H; intros l3 H3; inversion H3; subst; constructor; eauto.
Qed.

Lemma Forall2_diag {A} (R : A → A → Prop) (l : list A) : (∀ x, R x x) → Forall2 R l l.
Proof. intros HR. apply Forall_Forall2_diag, Forall_forall. auto. Qed.

Lemma Forall2_alter_own {A} (R : A → A → Prop) (f : A → A) i (l : list A) x :
  (∀ x, R x x) → l !! i = Some x → R x (f x) → Forall2 R l (alter f i l).
Proof.
  intros HR Hi Hx. apply Forall2_alter_r; [by apply Forall2_diag|].
  intros y z Hy Hz _. congruence.
Qed.

Lemma Forall2_insert_own {A} (R : A → A → Prop) i (l : list A) x x' :
  (∀ x, R x x) → l !! i = Some x → R x x' → Forall2 R l (<[i := x']> l).
Proof.
  intros HR Hi Hx. rewrite list_insert_alter. by eapply Forall2_alter_own.
Qed.

Lemma foreign_session_trans uid s1 s2 s3 :
  foreign_session_kept uid s1 s2 → foreign_session_kept uid s2 s3 →
  foreign_session_kept uid s1 s3.
Proof. unfold foreign_session_kept. intros H1 H2 Hne. rewrite H2; rewrite H1; done. Qed.

Lemma foreign_user_trans uid u1 u2 u3 :
  foreign_user_kept uid u1 u2 → foreign_user_kept uid u2 u3 → foreign_user_kept uid u1 u3.
Proof. unfold foreign_user_kept. intros H1 H2 Hne. rewrite H2; rewrite H1; done. Qed.

Lemma gate_keeps_foreign now db token :
  let db' := gate_store (authenticate now db (Some token)) in
  Forall2 (foreign_session_kept (at_userId token)) (sessions db) (sessions db')
  ∧ users db' = users db.
Proof.
  destruct (authenticate now db (Some token)) as [db' r|db' ui user si session] eqn:E; simpl.
  - destruct (gate_rejection_cases now db db' (Some token) r E) as (_ & _ & Hsame & Hpw).
    destruct (decide (code r = Some PASSWORD_CHANGED)) as [Hc|Hc].
    + destruct (Hpw Hc) as (token' & si & s & [= <-] & Hsi & Hid & Hu & -> & ->).
      split; [|done]. eapply Forall2_insert_own; [done..|]. by intros ?.
    + rewrite (Hsame Hc). split; [by apply Forall2_diag|done].
  - apply authenticate_passed_full in E
      as (token' & s & [= <-] & _ & _ & Hsi & _ & Hu & _ & _ & _ & _ & _ & _ & _ & _ & -> & ->).
    split; [|done]. eapply Forall2_insert_own; [done..|]. by intros ?.
Qed.

Lemma revoke_foreign now reason uid s :
  foreign_session_kept uid s (Session.revoke now reason uid s).
Proof.
  unfold foreign_session_kept, Session.revoke. intros Hne.
  case_bool_decide as H; [by destruct H|done].
Qed.

Lemma revoke_other_foreign uid cur s : foreign_session_kept uid s (revoke_other uid cur s).
Proof.
  unfold foreign_session_kept, revoke_other. intros Hne.
  case_bool_decide as H; [by destruct H|done].
Qed.

Lemma handle_keeps_foreign env now db req token :
  bearer_of req = Some (Some token) →
  Forall2 (foreign_session_kept (at_userId token)) (sessions db)
    (sessions (handle env now db req).1)
  ∧ Forall2 (foreign_user_kept (at_userId token)) (users db)
      (users (handle env now db req).1).
Proof.
  intros Hb.
  assert (∀ x : User.t, foreign_user_kept (at_userId token) x x) as Hur by done.
  assert (∀ x : Session.t, foreign_session_kept (at_userId token) x x) as Hsr by done.
  remember (authenticate now db (Some token)) as g eqn:E.
  assert (Forall2 (foreign_session_kept (at_userId token)) (sessions db)
            (sessions (gate_store g))
          ∧ users (gate_store g) = users db) as [Hgs Hgu]
    by (subst g; apply gate_keeps_foreign).
  symmetry in E.
  assert (∀ db1 ui user si session,
            g = Passed db1 ui user si session →
            ∃ s, sessions db !! si = Some s
                 ∧ sessions db1 !! si = Some (Session.updateLastAccessed now s)
                 ∧ Session.userId (Session.updateLastAccessed now s) = at_userId token
                 ∧ users db1 = users db ∧ users db !! ui = Some user
                 ∧ User._id user = at_userId token) as Hfacts.
  { intros db1 ui user si session ->.
    apply authenticate_passed_full in E
      as (token' & s & [= <-] & _ & _ & Hsi & _ & Hu & _ & _ & Hui & Hid
          & _ & _ & _ & -> & Hdb1 & ->).
    exists s. split_and!; try done.
    - rewrite Hdb1. apply list_lookup_insert_eq. by eapply lookup_lt_Some.
    - by destruct (updateLastAccessed_frame now s) as (_ & -> & _). }
  assert (∀ db1 ui user si session f,
            g = Passed db1 ui user si session →
            Forall2 (foreign_session_kept (at_userId token)) (sessions db)
              (alter f si (sessions db1))) as Hown.
  { intros db1 ui user si session f Hg.
    destruct (Hfacts _ _ _ _ _ Hg) as (s & _ & Hsi1 & Hu1 & _).
    rewrite Hg in Hgs. simpl in Hgs.
    eapply Forall2_compose; [apply foreign_session_trans|exact Hgs|].
    eapply Forall2_alter_own; [done|exact Hsi1|]. by intros ?. }
  assert (∀ db1 ui user si session f,
            g = Passed db1 ui user si session →
            Forall2 (foreign_user_kept (at_userId token)) (users db)
              (alter f ui (users db1))) as Hownu.
  { intros db1 ui user si session f Hg.
    destruct (Hfacts _ _ _ _ _ Hg) as (s & _ & _ & _ & -> & Hui & Hid).
    eapply Forall2_alter_own; [done|exact Hui|]. by intros ?. }
  assert (∀ db', users db' = users db →
            Forall2 (foreign_user_kept (at_userId token)) (users db) (users db')) as Hsameu.
  { intros db' ->. by apply Forall2_diag. }
  destruct req; simpl in Hb; try discriminate; injection Hb as ->; simpl.
  - unfold logout. rewrite E.
    destruct g as [db' r|db1 ui user si session]; simpl in *; [by split; auto|].
    split; [by eapply Hown|by eapply Hownu].
  - unfold logout_all. rewrite E.
    destruct g as [db' r|db1 ui user si session]; simpl in *; [by split; auto|].
    split; [|by eapply Hownu].
    destruct (Hfacts _ _ _ _ _ eq_refl) as (s & _ & _ & _ & _ & _ & ->).
    eapply Forall2_compose; [apply foreign_session_trans|exact Hgs|].
    apply Forall2_fmap_r, Forall2_diag. intros s0. apply revoke_foreign.
  - unfold me. rewrite E. destruct g; simpl in *; by split; auto.
  - unfold list_sessions. rewrite E. destruct g; simpl in *; by split; auto.
  - unfold revoke_session. rewrite E.
    destruct g as [db' r|db1 ui user si session]; simpl in *; [by split; auto|].
    destruct (list_find _ (sessions db1)) as [[sj s']|] eqn:Ej; simpl;
      [|by split; auto].
    split; [|by eapply Hownu].
    destruct (Hfacts _ _ _ _ _ eq_refl) as (s & _ & _ & _ & _ & _ & Hid).
    apply list_find_Some in Ej as (Hsj & (_ & Huid & _) & _).
    eapply Forall2_compose; [apply foreign_session_trans|exact Hgs|].
    eapply Forall2_alter_own; [done|exact Hsj|]. intros Hne. congruence.
  - unfold change_password. rewrite E.
    destruct g as [db' r|db1 ui requester si session]; simpl in *; [by split; auto|].
    destruct (Hfacts _ _ _ _ _ eq_refl) as (s & _ & _ & _ & Hu1 & _ & Hid).
    destruct (list_find _ (users db1)) as [[uj u]|] eqn:Ej; simpl; [|by split; auto].
    destruct (negb _); simpl; [by split; auto|].
    apply list_find_Some in Ej as (Huj & Hjid & _).
    split.
    + eapply Forall2_compose; [apply foreign_session_trans|exact Hgs|].
      apply Forall2_fmap_r, Forall2_diag. intros s0.
      rewrite Hjid, Hid. apply revoke_other_foreign.
    + rewrite <- Hu1. eapply Forall2_alter_own; [done|exact Huj|].
      intros Hne. congruence.
Qed.

(** X10.  Requests of one user leave the documents of the others alone.  Whatever a
    request on a protected route does, with whatever access token, every
    stored session and every stored user that does not belong to the user
    named in the token is afterwards exactly as it was, at the same
    position. *)
Theorem other_users_are_left_alone (env : Env) (now : Z) (db : Store) (req : Request)
    (token : AccessToken) :
  bearer_of req = Some (Some token) →
  Forall2 (foreign_session_kept (at_userId token)) (sessions db)
    (sessions (handle env now db req).1)
  ∧ Forall2 (foreign_user_kept (at_userId token)) (users db)
      (users (handle env now db req).1).
Proof. apply handle_keeps_foreign. Qed.

Lemma other_users_are_left_alone_witness :
  let out := handle default_env 1065000 two_users.1 (PostLogoutAll (Some first_access_token)) in
  bearer_of (PostLogoutAll (Some first_access_token)) = Some (Some first_access_token)
  ∧ status out.2 = 200
  ∧ Forall2 (foreign_session_kept "u1") (sessions two_users.1) (sessions out.1).
Proof.
  intros out. split_and!; [reflexivity|reflexivity|].
  exact (proj1 (other_users_are_left_alone default_env 1065000 two_users.1
                  (PostLogoutAll (Some first_access_token)) first_access_token eq_refl)).
Defined.

(** ** The absolute lifetime of a session *)

Lemma run_id_and_expiry env trace : ∀ db,
  id_and_expiry <$> sessions db `prefix_of` id_and_expiry <$> sessions (run env db trace).
Proof.
  induction trace as [|[t req] trace IH]; intros db; simpl; [done|].
  etrans; [|apply IH].
  destruct (handle_sessions_step env t db req) as (l1 & new & -> & Hev & _).
  rewrite fmap_app.
  rewrite (evolve_proj id_and_expiry t (sessions db) l1); [by apply prefix_app_r| |done].
  intros s s' []. unfold id_and_expiry. congruence.
Qed.

Lemma run_expired env db trace now i s :
  NoDup (Session.sessionId <$> sessions db) →
  sessions db !! i = Some s →
  Session.expiresAt s <= now →
  Forall (λ s', Session.sessionId s' = Session.sessionId s → Session.expiresAt s' <= now)
    (sessions (run env db trace)).
Proof.
  intros Hnd Hi Hexp.
  pose proof (run_keeps_sessionIds_distinct env trace db Hnd) as Hnd'.
  destruct (run_id_and_expiry env trace db) as [k Hk].
  assert (∃ si, sessions (run env db trace) !! i = Some si
                ∧ id_and_expiry si = id_and_expiry s) as (si & Hsi & Hf).
  { assert ((id_and_expiry <$> sessions (run env db trace)) !! i
            = Some (id_and_expiry s)) as Hl.
    { rewrite Hk. apply lookup_app_l_Some. by rewrite list_lookup_fmap, Hi. }
    rewrite list_lookup_fmap in Hl.
    destruct (sessions (run env db trace) !! i) as [si|]; [|done].
    simpl in Hl. injection Hl as Hl He. exists si. split; [done|].
    unfold id_and_expiry. congruence. }
  unfold id_and_expiry in Hf. injection Hf as Hid Hex.
  apply Forall_lookup. intros j s' Hj Hs'.
  assert (j = i) as ->.
  { eapply NoDup_lookup; [exact Hnd'|..]; rewrite list_lookup_fmap.
    - by rewrite Hj.
    - rewrite Hsi. simpl. congruence. }
  rewrite Hsi in Hj. injection Hj as <-. lia.
Qed.

(** X11.  A session ends at its [expiresAt], whatever happens before.  In a store
    with distinct session ids, take a stored session and an instant not
    before its [expiresAt].  After any run of requests, at that instant, an
    access token for that session is turned away by the gate with a 401 and
    the store is left as it is, and a refresh token for that session is
    refused with 401 and no tokens are issued: no route extends a session. *)
Theorem session_ends_at_expiresAt (env : Env) (db : Store) (trace : list (Z * Request))
    (now : Z) (i : nat) (s : Session.t) :
  NoDup (Session.sessionId <$> sessions db) →
  sessions db !! i = Some s →
  Session.expiresAt s <= now →
  let later := run env db trace in
  (∀ token, at_sessionId token = Session.sessionId s →
     ∃ r, authenticate now later (Some token) = Rejected later r ∧ status r = 401)
  ∧ (∀ token, rt_sessionId token = Session.sessionId s →
       ∃ r, refresh env now later (Some token) = (later, r)
            ∧ status r = 401 ∧ body_tokens r = None).
Proof.
  intros Hnd Hi Hexp later.
  pose proof (run_expired env db trace now i s Hnd Hi Hexp) as Hall.
  fold later in Hall. rewrite Forall_forall in Hall. split.
  - intros token Hid. unfold authenticate.
    destruct (jwt_verify _ _ _) as [[]|]; [by eexists..|].
    destruct (list_find _ (sessions later)) as [[si s']|] eqn:E; [|by eexists].
    apply list_find_Some in E as (Hsi & (Hsid & _ & _ & Hlt) & _).
    apply list_elem_of_lookup_2 in Hsi.
    pose proof (Hall s' Hsi ltac:(congruence)). lia.
  - intros token Hid. unfold refresh.
    destruct (jwt_verify _ _ _); [by eexists|].
    destruct (list_find _ (sessions later)) as [[si s']|] eqn:E; [|by eexists].
    apply list_find_Some in E as (Hsi & (Hsid & _ & _ & Hlt) & _).
    apply list_elem_of_lookup_2 in Hsi.
    pose proof (Hall s' Hsi ltac:(congruence)). lia.
Qed.

Lemma session_ends_at_expiresAt_witness :
  let later := run default_env remembered.1
                 [(2000000 + 6 * day, PostRefresh (Some remembered_refresh_token))] in
  NoDup (Session.sessionId <$> sessions remembered.1)
  ∧ Session.expiresAt <$> sessions remembered.1 !! 1%nat = Some (2000000 + 30 * day)
  ∧ ∃ r, authenticate (2000000 + 30 * day) later
           (Some (generateAccessToken default_env (2000000 + 30 * day - 60000)
                    "u1" "s2" "alice" "alice@x.com"))
         = Rejected later r ∧ status r = 401.
Proof.
  intros later.
  assert (NoDup (Session.sessionId <$> sessions remembered.1)) as Hnd.
  { change (NoDup ["s1"; "s2"]). apply NoDup_cons. split; [|apply NoDup_singleton].
    intros [=]%list_elem_of_singleton. }
  split_and!; [exact Hnd|reflexivity|].
  destruct (sessions remembered.1 !! 1%nat) as [s|] eqn:Hs; [|by vm_compute in Hs].
  assert (Session.expiresAt s <= 2000000 + 30 * day
          ∧ Session.sessionId s = "s2") as [Hexp Hid].
  { vm_compute in Hs. injection Hs as <-. split; [by vm_compute|reflexivity]. }
  destruct (session_ends_at_expiresAt default_env remembered.1
              [(2000000 + 6 * day, PostRefresh (Some remembered_refresh_token))]
              (2000000 + 30 * day) 1%nat s Hnd Hs Hexp) as [Hgate _].
  apply Hgate. by rewrite Hid.
Defined.

(** ** Logout from all devices, the session list, revoking one session *)

Lemma revoke_spec now reason uid s :
  let s' := Session.revoke now reason uid s in
  Session.sessionId s' = Session.sessionId s ∧ Session.userId s' = Session.userId s
  ∧ (Session.userId s = uid → Session.isActive s' = false).
Proof.
  unfold Session.revoke. case_bool_decide as H; simpl; split_and!; auto.
  intros Hu. destruct (Session.isActive s) eqn:Ha; [|done]. by destruct H.
Qed.

(** X12.  Logout from all devices.  After a successful [POST /auth/logout-all] with
    [token], every stored session of the user of the token is inactive, the
    session list cached on that user is empty, and from then on any signed,
    unexpired access token of that user is turned away on every protected
    route with 401 SESSION_INVALID, the store being left as it is. *)
Theorem logout_all_closes_every_session (now : Z) (db : Store) (token : AccessToken) :
  status (logout_all now db (Some token)).2 = 200 →
  let out := logout_all now db (Some token) in
  Forall (λ s, Session.userId s = at_userId token → Session.isActive s = false)
    (sessions out.1)
  ∧ (∃ ui u, users out.1 !! ui = Some u ∧ User._id u = at_userId token
             ∧ User.activeSessions u = [])
  ∧ ∀ env now' other req,
      at_userId other = at_userId token →
      jwt_verify now' (at_sig_ok other) (at_exp other) = None →
      bearer_of req = Some (Some other) →
      handle env now' out.1 req = (out.1, failure 401 SESSION_INVALID).
Proof.
  intros H out. unfold out, logout_all in *.
  destruct (authenticate now db (Some token)) as [db' r|db1 ui user si session] eqn:Ea.
  { apply authenticate_rejected_status in Ea. simpl in H. congruence. }
  apply authenticate_passed_full in Ea
    as (token' & s & [= <-] & _ & _ & Hsi & _ & _ & _ & _ & Hui & Hid & _ & _ & _ & _ & Hd1 & Hu1).
  simpl. rewrite Hid.
  assert (Forall (λ s0, Session.userId s0 = at_userId token → Session.isActive s0 = false)
            (Session.revokeAllForUser now (at_userId token) "user_logout_all" (sessions db1)))
    as Hall.
  { unfold Session.revokeAllForUser. apply Forall_fmap, Forall_forall. intros s0 _. simpl.
    destruct (revoke_spec now "user_logout_all" (at_userId token) s0) as (_ & E2 & E3).
    rewrite E2. auto. }
  split_and!.
  - exact Hall.
  - exists ui, (User.removeAllSessions user). rewrite Hu1.
    rewrite list_lookup_alter_eq, Hui. done.
  - intros env now' other req Hou Hv Hb.
    eapply handle_rejected; [exact Hb|].
    unfold jwt_verify in Hv. destruct (at_sig_ok other) eqn:Hsig'; [|done]. simpl in Hv.
    case_bool_decide as Hexp; [done|].
    rewrite authenticate_no_session; simpl.
    + by rewrite bool_decide_eq_false_2.
    + done.
    + eapply Forall_impl; [exact Hall|]. simpl. intros s0 Hs0 _ E2. apply Hs0. congruence.
Qed.

Lemma logout_all_closes_every_session_witness :
  let out := logout_all 1065000 second_login.1 (Some first_access_token) in
  status out.2 = 200
  ∧ Session.isActive <$> sessions out.1 = [false; false]
  ∧ handle default_env 1066000 out.1 (GetMe (Some second_access_token))
    = (out.1, failure 401 SESSION_INVALID).
Proof.
  intros out.
  assert (status out.2 = 200) as H by reflexivity.
  split_and!; [exact H|reflexivity|].
  destruct (logout_all_closes_every_session 1065000 second_login.1 first_access_token H)
    as (_ & _ & Hgate).
  exact (Hgate default_env 1066000 second_access_token (GetMe (Some second_access_token))
           eq_refl eq_refl eq_refl).
Defined.



(** X14.  Revoking one session.  A successful [DELETE /auth/sessions/:sessionId]
    has deactivated a stored session with that id that belongs to the caller,
    with the reason "user_revoked"; when the caller has no active session
    with that id (it is unknown, inactive, or another user's) a request that
    passes the gate is answered 404 SESSION_NOT_FOUND and writes nothing but
    the touch of the gate. *)
Theorem revoke_session_is_for_own_sessions (now : Z) (db : Store) (token : AccessToken)
    (sessionId : string) :
  let out := revoke_session now db (Some token) sessionId in
  let after_gate := gate_store (authenticate now db (Some token)) in
  (status out.2 = 200 →
   ∃ j s, sessions after_gate !! j = Some s
          ∧ Session.sessionId s = sessionId ∧ Session.userId s = at_userId token
          ∧ Session.isActive s = true
          ∧ sessions out.1 = <[j := Session.deactivate now "user_revoked" s]>
                               (sessions after_gate))
  ∧ (Forall (λ s, ¬ (Session.sessionId s = sessionId
                     ∧ Session.userId s = at_userId token
                     ∧ Session.isActive s = true)) (sessions after_gate) →
     status out.2 ≠ 200
     ∧ out.1 = after_gate
     ∧ (status out.2 = 401 ∨ out.2 = failure 404 SESSION_NOT_FOUND)).
Proof.
  intros out after_gate. unfold out, after_gate, revoke_session.
  destruct (authenticate now db (Some token)) as [db' r|db1 ui user si session] eqn:Ea;
    simpl.
  { apply authenticate_rejected_status in Ea. split; [congruence|].
    intros _. split_and!; [congruence|done|by left]. }
  apply authenticate_passed_full in Ea
    as (token' & s & [= <-] & _ & _ & _ & _ & _ & _ & _ & _ & Hid & _).
  rewrite Hid.
  destruct (list_find _ (sessions db1)) as [[sj s']|] eqn:Ej; simpl.
  - apply list_find_Some in Ej as (Hsj & (? & ? & ?) & _). split.
    + intros _. exists sj, s'. split_and!; try done. by apply alter_lookup_insert.
    + intros Hnone. rewrite Forall_forall in Hnone.
      destruct (Hnone s'); [by eapply list_elem_of_lookup_2|done].
  - split; [done|]. intros _. split_and!; [done|done|by right].
Qed.

Lemma revoke_session_is_for_own_sessions_witness :
  let out := revoke_session 1065000 two_users.1 (Some first_access_token) "s2" in
  let after_gate := gate_store (authenticate 1065000 two_users.1 (Some first_access_token)) in
  Forall (λ s, ¬ (Session.sessionId s = "s2" ∧ Session.userId s = "u1"
                  ∧ Session.isActive s = true)) (sessions after_gate)
  ∧ out.1 = after_gate
  ∧ (status out.2 = 401 ∨ out.2 = failure 404 SESSION_NOT_FOUND).
Proof.
  intros out after_gate.
  assert (Forall (λ s, ¬ (Session.sessionId s = "s2" ∧ Session.userId s = "u1"
                          ∧ Session.isActive s = true)) (sessions after_gate)) as Hnone.
  { remember (sessions after_gate) as l eqn:E. vm_compute in E. subst l.
    repeat constructor; intros (Hs & Hu & _); simpl in *; discriminate. }
  split; [exact Hnone|].
  destruct (revoke_session_is_for_own_sessions 1065000 two_users.1 first_access_token "s2")
    as [_ H404].
  destruct (H404 Hnone) as (_ & Hsame & Hcode). by split.
Defined.

(** ** Successful logins *)

Lemma login_success env now db email password rm sid fam h :
  status (login env now db email password rm sid fam h).2 = 200 →
  ∃ ui u tk s,
    account email db = Some (ui, u)
    ∧ User.isLocked now u = false ∧ User.isActive u = true
    ∧ User.comparePassword password u = true
    ∧ (sid ∉ (Session.sessionId <$> sessions db))
    ∧ s = Session.create now (User._id u) sid
            (Sha256 (generateRefreshToken env now (User._id u) sid fam)) fam
            (device_of h) (now + (if rm then 30 * day else 7 * day))
    ∧ sessions (login env now db email password rm sid fam h).1 = sessions db ++ [s]
    ∧ users (login env now db email password rm sid fam h).1
      = <[ui := User.addSession now sid u
                  (if bool_decide (0 < User.failedLoginAttempts u)
                   then User.resetLoginAttempts u else u)]> (users db)
    ∧ body_tokens (login env now db email password rm sid fam h).2 = Some tk
    ∧ accessToken tk = generateAccessToken env now (User._id u) sid
                         (User.username u) (User.email u)
    ∧ refreshToken tk = generateRefreshToken env now (User._id u) sid fam.
Proof.
  unfold login, account.
  destruct (list_find _ (users db)) as [[ui u]|] eqn:Ef; simpl; [|done].
  destruct (User.isLocked now u) eqn:Hl; simpl; [done|].
  destruct (User.isActive u) eqn:Ha; simpl; [|done].
  destruct (User.comparePassword password u) eqn:Hp; simpl; [|done].
  destruct (createUserSession _ _ _ _ _ _ _ _ _) as [[[[db2 u'] tk] s]|] eqn:E; simpl;
    [|by case_bool_decide].
  intros _. apply createUserSession_created in E as (Hs & Hss & Hfresh & Hus & Hrt & Hat).
  apply list_find_Some in Ef as (Hui & _ & _).
  exists ui, u, tk, s. split_and!; try done.
  - by case_bool_decide.
  - rewrite Hss. by case_bool_decide.
  - rewrite Hus. case_bool_decide; simpl.
    + rewrite list_alter_alter_eq.
      by rewrite (alter_lookup_insert _ _ _ _ Hui).
    + by apply alter_lookup_insert.
Qed.

Lemma addSession_list_suffix sid doc :
  User.addSession_list sid doc
  `suffix_of` filter (λ id, id ≠ sid) (User.activeSessions doc) ++ [sid].
Proof.
  unfold User.addSession_list, User.js_slice.
  repeat case_bool_decide; try done; apply suffix_drop.
Qed.

Lemma addSession_list_last sid doc :
  0 <= User.maxConcurrentSessions doc →
  last (User.addSession_list sid doc) = Some sid.
Proof.
  intros Hmax. unfold User.addSession_list.
  set (l := filter (λ id, id ≠ sid) (User.activeSessions doc) ++ [sid]).
  assert (last l = Some sid) as Hl by apply last_snoc.
  assert (length l ≠ 0%nat) as Hne by (unfold l; rewrite length_app; simpl; lia).
  assert (∀ n, (n < length l)%nat → last (drop n l) = Some sid) as Hdrop.
  { intros n Hn. rewrite !last_lookup, length_drop, lookup_drop in *.
    rewrite <- Hl. f_equal. lia. }
  case_bool_decide as Hcap; [|done].
  unfold User.js_slice. case_bool_decide as Hneg; apply Hdrop; lia.
Qed.

(** X15.  A successful login clears the counters.  After a login answered 200 the
    stored account has no failed attempts left and no lock (if it had
    failed attempts), its [lastLoginAt] is the instant of the login, its
    cached session list is the one [addSession] computes from the loaded
    document, its password hash is untouched, and one session was appended
    to the collection. *)
Theorem successful_login_clears_the_counters (env : Env) (now : Z) (db : Store)
    (email password : string) (rm : bool) (sid fam : string) (h : Headers) :
  status (login env now db email password rm sid fam h).2 = 200 →
  let out := login env now db email password rm sid fam h in
  ∃ ui u u',
    account email db = Some (ui, u)
    ∧ users out.1 = <[ui := u']> (users db)
    ∧ (0 < User.failedLoginAttempts u →
       User.failedLoginAttempts u' = 0 ∧ User.accountLockedUntil u' = None)
    ∧ User.lastLoginAt u' = Some now
    ∧ User.activeSessions u' = User.addSession_list sid u
    ∧ User.password u' = User.password u
    ∧ length (sessions out.1) = S (length (sessions db)).
Proof.
  intros H out.
  destruct (login_success env now db email password rm sid fam h H)
    as (ui & u & tk & s & Ha & _ & _ & _ & _ & _ & Hss & Hus & _).
  fold out in Hss, Hus. eexists ui, u, _. split_and!; [done|exact Hus|..].
  - intros Hpos. by rewrite bool_decide_eq_true_2.
  - done.
  - done.
  - by case_bool_decide.
  - rewrite Hss, length_app. simpl. lia.
Qed.

Lemma successful_login_clears_the_counters_witness :
  let db := (handle default_env 1030000 registered.1 (wrong 1030000).2).1 in
  let out := login default_env 1060000 db "alice@x.com" "Passw0rd1" false "s2" "f2" curl in
  status out.2 = 200
  ∧ ∃ ui u u',
      account "alice@x.com" db = Some (ui, u)
      ∧ users out.1 = <[ui := u']> (users db)
      ∧ (0 < User.failedLoginAttempts u →
         User.failedLoginAttempts u' = 0 ∧ User.accountLockedUntil u' = None)
      ∧ User.lastLoginAt u' = Some 1060000
      ∧ User.activeSessions u' = User.addSession_list "s2" u
      ∧ User.password u' = User.password u
      ∧ length (sessions out.1) = S (length (sessions db)).
Proof.
  intros db out.
  assert (status out.2 = 200) as H by reflexivity.
  split; [exact H|].
  exact (successful_login_clears_the_counters default_env 1060000 db
           "alice@x.com" "Passw0rd1" false "s2" "f2" curl H).
Defined.

(** ** The cached session list of an account *)

Lemma addSession_list_NoDup sid doc :
  NoDup (User.activeSessions doc) → NoDup (User.addSession_list sid doc).
Proof.
  intros Hnd.
  assert (NoDup (filter (λ id, id ≠ sid) (User.activeSessions doc) ++ [sid])) as Hall.
  { apply NoDup_app. split_and!.
    - by apply NoDup_filter.
    - intros x [Hx _]%list_elem_of_filter ->%list_elem_of_singleton. done.
    - apply NoDup_singleton. }
  destruct (addSession_list_suffix sid doc) as [k Hk].
  rewrite Hk in Hall. by apply NoDup_app in Hall as (_ & _ & ?).
Qed.

(** X16.  What [addSession] keeps.  With a limit that is not negative, the list
    that [addSession] stores ends with the new session id and is the tail of
    the old list without that id followed by the id; it repeats no id if the
    old list repeated none.  With a limit of at least one it holds at most
    that many ids; with a limit of zero [slice(-0)] keeps the whole list, so
    nothing is dropped. *)
Theorem addSession_keeps_the_most_recent (sessionId : string) (doc : User.t) :
  0 <= User.maxConcurrentSessions doc →
  let l := User.addSession_list sessionId doc in
  let all := filter (λ id, id ≠ sessionId) (User.activeSessions doc) ++ [sessionId] in
  last l = Some sessionId
  ∧ l `suffix_of` all
  ∧ (NoDup (User.activeSessions doc) → NoDup l)
  ∧ (0 < User.maxConcurrentSessions doc →
     length l = Nat.min (length all) (Z.to_nat (User.maxConcurrentSessions doc)))
  ∧ (User.maxConcurrentSessions doc = 0 → l = all).
Proof.
  intros Hmax l all. split_and!.
  - by apply addSession_list_last.
  - apply addSession_list_suffix.
  - apply addSession_list_NoDup.
  - intros Hpos. unfold l, User.addSession_list. fold all.
    case_bool_decide as Hcap; [|lia].
    unfold User.js_slice. rewrite bool_decide_eq_true_2 by lia.
    rewrite length_drop. lia.
  - intros H0. unfold l, User.addSession_list. fold all. rewrite H0.
    case_bool_decide as Hcap; [|done].
    unfold User.js_slice. by rewrite bool_decide_eq_false_2 by lia.
Qed.

Lemma addSession_keeps_the_most_recent_witness :
  let doc := User.set_activeSessions ["s1"; "s2"; "s3"; "s4"; "s5"; "s6"] alice in
  0 <= User.maxConcurrentSessions doc
  ∧ User.addSession_list "s2" doc = ["s3"; "s4"; "s5"; "s6"; "s2"]
  ∧ last (User.addSession_list "s2" doc) = Some "s2".
Proof.
  intros doc.
  assert (0 <= User.maxConcurrentSessions doc) as H by (simpl; lia).
  split_and!; [exact H|reflexivity|].
  exact (proj1 (addSession_keeps_the_most_recent "s2" doc H)).
Defined.

(** ** Who can log in *)

Lemma createUserSession_is_Some env now db ui user h rm sid fam :
  is_Some (createUserSession env now db ui user h rm sid fam)
  ↔ sid ∉ (Session.sessionId <$> sessions db).
Proof.
  unfold createUserSession. case_bool_decide as Hin; split; intros H.
  - by destruct H.
  - done.
  - done.
  - by eexists.
Qed.

Lemma login_answers env now db email password rm sid fam h :
  let r := (login env now db email password rm sid fam h).2 in
  match account email db with
  | None => r = failure 401 INVALID_CREDENTIALS
  | Some (_, u) =>
    if User.isLocked now u then status r = 423 ∧ code r = Some ACCOUNT_LOCKED
    else if negb (User.isActive u) then r = failure 401 ACCOUNT_DEACTIVATED
    else if negb (User.comparePassword password u)
    then r = failure 401 INVALID_CREDENTIALS
    else if bool_decide (sid ∈ Session.sessionId <$> sessions db)
    then r = failure 500 LOGIN_ERROR
    else status r = 200
  end.
Proof.
  unfold login, account.
  destruct (list_find _ (users db)) as [[ui u]|] eqn:Ef; simpl; [|done].
  destruct (User.isLocked now u) eqn:Hl; simpl; [done|].
  destruct (User.isActive u) eqn:Ha; simpl; [|done].
  destruct (User.comparePassword password u) eqn:Hp; simpl; [|done].
  unfold createUserSession.
  assert (sessions (if bool_decide (0 < User.failedLoginAttempts u)
                    then with_users (alter User.resetLoginAttempts ui) db else db)
          = sessions db) as -> by (by case_bool_decide).
  by case_bool_decide.
Qed.

(** X17.  Who can log in.  [POST /auth/login] answers 200 exactly when an account
    with the e-mail address is stored, the first such account is not locked
    at the time of the request, is active, its stored hash matches the
    password, and the session id drawn for the login is not yet stored; the
    refusals are, in this order, 401 INVALID_CREDENTIALS for an unknown
    address, 423 for a locked account, 401 ACCOUNT_DEACTIVATED, and 401
    INVALID_CREDENTIALS for a wrong password, so a locked account gets 423
    whatever the password is. *)
Theorem login_succeeds_exactly_when (env : Env) (now : Z) (db : Store)
    (email password : string) (rm : bool) (sid fam : string) (h : Headers) :
  let r := (login env now db email password rm sid fam h).2 in
  (status r = 200
   ↔ ∃ ui u, account email db = Some (ui, u)
             ∧ User.isLocked now u = false ∧ User.isActive u = true
             ∧ User.comparePassword password u = true
             ∧ (sid ∉ (Session.sessionId <$> sessions db)))
  ∧ (account email db = None → r = failure 401 INVALID_CREDENTIALS)
  ∧ (∀ ui u, account email db = Some (ui, u) → User.isLocked now u = true →
       status r = 423 ∧ body_lockedUntil r = User.accountLockedUntil u
       ∧ (login env now db email password rm sid fam h).1 = db)
  ∧ (∀ ui u, account email db = Some (ui, u) → User.isLocked now u = false →
       User.isActive u = true → User.comparePassword password u = false →
       r = failure 401 INVALID_CREDENTIALS).
Proof.
  intros r. split_and!.
  - split.
    + intros H.
      destruct (login_success env now db email password rm sid fam h H)
        as (ui & u & tk & s & Ha & Hl & Hact & Hp & Hfresh & _).
      by exists ui, u.
    + intros (ui & u & Ha & Hl & Hact & Hp & Hfresh).
      pose proof (login_answers env now db email password rm sid fam h) as Hr.
      simpl in Hr. rewrite Ha, Hl, Hact, Hp in Hr. simpl in Hr.
      by rewrite bool_decide_eq_false_2 in Hr.
  - intros Ha. pose proof (login_answers env now db email password rm sid fam h) as Hr.
    simpl in Hr. by rewrite Ha in Hr.
  - intros ui u Ha Hl. unfold r, login. unfold account in Ha. rewrite Ha. simpl.
    by rewrite Hl.
  - intros ui u Ha Hl Hact Hp.
    pose proof (login_answers env now db email password rm sid fam h) as Hr.
    simpl in Hr. by rewrite Ha, Hl, Hact, Hp in Hr.
Qed.

(** ** From registration to login *)





(** ** The tokens of a login at the gate *)

Lemma list_find_insert_keyed {A B} `{EqDecision B} (f : A → B) (l : list A) i x x' :
  NoDup (f <$> l) → l !! i = Some x → f x' = f x →
  list_find (λ y, f y = f x) (<[i := x']> l) = Some (i, x').
Proof.
  intros Hnd Hi Hf. apply list_find_Some. split_and!.
  - apply list_lookup_insert_eq. by eapply lookup_lt_Some.
  - done.
  - intros j y Hj Hlt Heq. rewrite list_lookup_insert_ne in Hj by lia.
    assert (j = i); [|lia].
    eapply NoDup_lookup; [exact Hnd|..].
    + by rewrite list_lookup_fmap, Hj.
    + by rewrite list_lookup_fmap, Hi, Heq.
Qed.

Lemma isLocked_later now now' u :
  User.isLocked now u = false → now <= now' → User.isLocked now' u = false.
Proof.
  unfold User.isLocked. destruct (User.accountLockedUntil u); [|done].
  intros Hl%bool_decide_eq_false Hle. apply bool_decide_eq_false. lia.
Qed.

(** X19.  The tokens of a login at the gate.  In a store whose users have
    distinct ids and hold no password change that lies ahead of the clock,
    the access token of a login answered 200 passes the gate at any later
    time at which neither the token nor the session has expired: the gate
    loads the account that logged in and the session that the login
    created, and touches that session only. *)
Theorem login_token_opens_the_gate (env : Env) (now now' : Z) (db : Store)
    (email password : string) (rm : bool) (sid fam : string) (h : Headers) :
  NoDup (User._id <$> users db) →
  Forall (λ u, User.changedPasswordAfter (now / 1000) u = false) (users db) →
  status (login env now db email password rm sid fam h).2 = 200 →
  now <= now' →
  now' / 1000 < now / 1000 + access_lifetime env →
  now' < now + (if rm then 30 * day else 7 * day) →
  let out := login env now db email password rm sid fam h in
  ∃ tk db2 ui u si s,
    body_tokens out.2 = Some tk
    ∧ authenticate now' out.1 (Some (accessToken tk)) = Passed db2 ui u si s
    ∧ User.email u = email
    ∧ Session.sessionId s = sid ∧ Session.userId s = User._id u
    ∧ si = length (sessions db)
    ∧ users db2 = users out.1
    ∧ sessions db2 = <[si := s]> (sessions out.1).
Proof.
  intros Hnd Hpast H Hle Hexp Hsess out.
  destruct (login_success env now db email password rm sid fam h H)
    as (ui & u & tk & s & Ha & Hl & Hact & Hp & Hfresh & Hs & Hss & Hus & Htk & Hat & _).
  fold out in Hss, Hus, Htk.
  apply list_find_Some in Ha as (Hui & Hemail & _).
  set (u' := User.addSession now sid u
               (if bool_decide (0 < User.failedLoginAttempts u)
                then User.resetLoginAttempts u else u)) in *.
  assert (User._id u' = User._id u ∧ User.email u' = User.email u
          ∧ User.isActive u' = User.isActive u
          ∧ User.passwordChangedAt u' = User.passwordChangedAt u
          ∧ User.isLocked now' u' = false) as (Hid' & Hem' & Hact' & Hpc' & Hl').
  { unfold u'. case_bool_decide; split_and!; try done.
    by apply (isLocked_later now). }
  assert (list_find (gate_query now' (accessToken tk)) (sessions out.1)
          = Some (length (sessions db), s)) as Hfs.
  { rewrite Hss. apply list_find_Some. split_and!.
    - by rewrite lookup_app_r, Nat.sub_diag.
    - rewrite Hat, Hs. unfold gate_query. simpl. split_and!; [done..|lia].
    - intros j y Hj Hlt (Hsid & _). rewrite lookup_app_l in Hj by done.
      apply Hfresh. rewrite Hat in Hsid. simpl in Hsid. rewrite <- Hsid.
      apply list_elem_of_fmap. exists y. split; [done|].
      by eapply list_elem_of_lookup_2. }
  assert (list_find (λ v, User._id v = at_userId (accessToken tk)) (users out.1)
          = Some (ui, u')) as Hfu.
  { rewrite Hus, Hat. simpl. by apply (list_find_insert_keyed User._id). }
  assert (User.changedPasswordAfter (at_iat (accessToken tk)) u' = false) as Hch.
  { rewrite Hat. simpl. unfold User.changedPasswordAfter. rewrite Hpc'.
    eapply Forall_lookup_1 in Hpast; [|exact Hui]. exact Hpast. }
  eexists tk, _, ui, u', (length (sessions db)), (Session.updateLastAccessed now' s).
  split; [done|]. split.
  - unfold authenticate, jwt_verify. rewrite Hfs, Hfu, Hch, Hact', Hact, Hl'.
    rewrite Hat. simpl. rewrite bool_decide_eq_false_2 by lia. reflexivity.
  - split_and!; try done.
    + by rewrite Hem'.
    + rewrite (proj1 (updateLastAccessed_frame now' s)). by rewrite Hs.
    + rewrite (proj1 (proj2 (updateLastAccessed_frame now' s))). by rewrite Hs, Hid'.
    + simpl. apply alter_lookup_insert. rewrite Hss.
      by rewrite lookup_app_r, Nat.sub_diag.
Qed.

Lemma login_token_opens_the_gate_witness :
  let out := login default_env 1060000 registered.1 "alice@x.com" "Passw0rd1" false
               "s2" "f2" curl in
  ∃ tk db2 ui u si s,
    body_tokens out.2 = Some tk
    ∧ authenticate 1065000 out.1 (Some (accessToken tk)) = Passed db2 ui u si s
    ∧ User.email u = "alice@x.com"
    ∧ Session.sessionId s = "s2" ∧ Session.userId s = User._id u
    ∧ si = length (sessions registered.1)
    ∧ users db2 = users out.1
    ∧ sessions db2 = <[si := s]> (sessions out.1).
Proof.
  apply (login_token_opens_the_gate default_env 1060000 1065000 registered.1
           "alice@x.com" "Passw0rd1" false "s2" "f2" curl).
  - change (NoDup ["u1"]). apply NoDup_singleton.
  - remember (users registered.1) as l eqn:E. vm_compute in E. subst l.
    repeat constructor.
  - reflexivity.
  - lia.
  - reflexivity.
  - reflexivity.
Defined.

(** ** The password after a change *)




(** ** Tasks *)

Lemma trimStart_suffix s : trimStart s `suffix_of` s.
Proof.
  induction s as [|c s IH]; simpl; [done|].
  destruct (is_space c); [|done]. by apply suffix_cons_r.
Qed.

Lemma trimStart_head s c : head (trimStart s) = Some c → is_space c = false.
Proof.
  induction s as [|a s IH]; simpl; [done|].
  destruct (is_space a) eqn:Ha; [done|]. simpl. by intros [= <-].
Qed.

Lemma last_suffix {A} (l k : list A) x : l `suffix_of` k → last l = Some x → last k = Some x.
Proof. intros [p ->] Hl. rewrite last_app, Hl. done. Qed.

Lemma trim_head s c : head (trim s) = Some c → is_space c = false.
Proof.
  unfold trim, trimEnd. rewrite head_reverse. intros Hl.
  eapply last_suffix in Hl; [|apply trimStart_suffix].
  rewrite last_reverse in Hl. by apply trimStart_head in Hl.
Qed.

Lemma trim_last s c : last (trim s) = Some c → is_space c = false.
Proof. unfold trim, trimEnd. rewrite last_reverse. apply trimStart_head. Qed.

Lemma trimStart_length s : (length (trimStart s) ≤ length s)%nat.
Proof. destruct (trimStart_suffix s) as [p Hp]. rewrite Hp at 2. rewrite length_app. lia. Qed.

Lemma trim_length s : (length (trim s) ≤ length s)%nat.
Proof.
  unfold trim, trimEnd. rewrite length_reverse.
  etrans; [apply trimStart_length|]. rewrite length_reverse. apply trimStart_length.
Qed.

Lemma title_missing_false title :
  title_missing title = false → ∃ s, title = Some s ∧ trim s ≠ [].
Proof.
  destruct title as [[|c s]|]; simpl; try done.
  intros H%bool_decide_eq_false. by eexists.
Qed.

Lemma validated_task_sound title description uid id st created updated :
  trim title ≠ [] →
  Task.validate (trim title) description = true →
  task_sound {| Task._id := id; Task.userId := uid; Task.title := trim title;
                Task.description := description; Task.status := st;
                Task.createdAt := created; Task.updatedAt := updated |}.
Proof.
  unfold Task.validate, task_sound. simpl.
  intros Hne [[_ Hlen]%bool_decide_eq_true Hd%bool_decide_eq_true]%andb_true_iff.
  split_and!; try done; [apply trim_head|apply trim_last].
Qed.

Lemma caller_passed now db bearer db1 ui user si session :
  authenticate now db bearer = Passed db1 ui user si session →
  caller now db bearer = Some user
  ∧ gate_store (authenticate now db bearer) = db1.
Proof. unfold caller. by intros ->. Qed.

Lemma caller_rejected now db bearer db' r :
  authenticate now db bearer = Rejected db' r →
  caller now db bearer = None
  ∧ gate_store (authenticate now db bearer) = db' ∧ status r = 401.
Proof.
  intros H. pose proof (authenticate_rejected_status _ _ _ _ _ H) as Hst.
  unfold caller. by rewrite H.
Qed.

(** Every task request: the users and sessions are those the gate leaves,
    and the collection of tasks changes by at most one write, on a task of
    the caller. *)
Lemma handle_task_writes now db tasks req :
  let out := handle_task now db tasks req in
  out.1.1 = gate_store (authenticate now db (bearer_of_task req))
  ∧ match caller now db (bearer_of_task req) with
    | None => out.1.2 = tasks ∧ t_status out.2 = 401
    | Some user => task_write now user tasks out.1.2
    end.
Proof.
  destruct req as [b|b id|b body newId|b id body|b id]; simpl;
    unfold get_tasks, get_task, post_task, put_task, delete_task, caller;
    destruct (authenticate now db b) as [db' r|db1 ui user si session] eqn:Hg;
    simpl;
    try (split; [done|split; [done|by eapply authenticate_rejected_status]]).
  - split; [done|constructor].
  - destruct (castObjectId id) as [oid|]; simpl; [|split; [done|constructor]].
    destruct (list_find _ tasks) as [[i task]|]; simpl; split; try done; constructor.
  - destruct (title_missing (b_title body)) eqn:Ht; simpl; [split; [done|constructor]|].
    destruct (status_of (b_status body)) as [st|]; simpl; [|split; [done|constructor]].
    destruct (Task.validate _ _) eqn:Hv; simpl; [|split; [done|constructor]].
    case_bool_decide as Hid; simpl; split; try done; [constructor|].
    apply title_missing_false in Ht as (s & Hs & Hne). rewrite Hs in *. simpl in *.
    constructor; try done. by apply validated_task_sound.
  - destruct (castObjectId id) as [oid|]; simpl; [|split; [done|constructor]].
    destruct (title_missing (b_title body)) eqn:Ht; simpl; [split; [done|constructor]|].
    destruct (status_of (b_status body)) as [st|]; simpl; [|split; [done|constructor]].
    destruct (Task.validate _ _) eqn:Hv; simpl; [|split; [done|constructor]].
    destruct (list_find _ tasks) as [[i task]|] eqn:Ef; simpl; split; try done;
      [|constructor].
    apply list_find_Some in Ef as (Hi & [Hid Hu] & _).
    apply title_missing_false in Ht as (s & Hs & Hne). rewrite Hs in *. simpl in *.
    eapply write_updated; try done. by apply validated_task_sound.
  - destruct (castObjectId id) as [oid|]; simpl; [|split; [done|constructor]].
    destruct (list_find _ tasks) as [[i task]|] eqn:Ef; simpl; split; try done;
      [|constructor].
    apply list_find_Some in Ef as (Hi & [Hid Hu] & _).
    by eapply write_deleted.
Qed.

Lemma filter_insert_out {A} (P : A → Prop) `{!∀ x, Decision (P x)} (l : list A) i x y :
  l !! i = Some x → ¬ P x → ¬ P y → filter P (<[i := y]> l) = filter P l.
Proof.
  revert i. induction l as [|a l IH]; intros [|i] Hi Hx Hy; simplify_eq/=.
  - by rewrite !filter_cons_False.
  - rewrite !filter_cons. by rewrite (IH i).
Qed.

Lemma filter_delete_out {A} (P : A → Prop) `{!∀ x, Decision (P x)} (l : list A) i x :
  l !! i = Some x → ¬ P x → filter P (delete i l) = filter P l.
Proof.
  revert i. induction l as [|a l IH]; intros [|i] Hi Hx; simplify_eq/=.
  - by rewrite filter_cons_False.
  - rewrite !filter_cons. by rewrite (IH i).
Qed.

Lemma task_write_others now user tasks tasks' uid :
  task_write now user tasks tasks' → User._id user ≠ uid →
  filter (λ t, Task.userId t = uid) tasks' = filter (λ t, Task.userId t = uid) tasks.
Proof.
  intros [|task Hu _ _ _ _|i task task' Hi Hu _ Hu' _ _ _|i task Hi Hu] Hne.
  - done.
  - rewrite filter_app, filter_cons_False, filter_nil, app_nil_r; [done|congruence].
  - apply (filter_insert_out _ _ _ task); [done|congruence..].
  - apply (filter_delete_out _ _ _ task); [done|congruence].
Qed.

Lemma insert_newest_Permutation t l : insert_newest t l ≡ₚ t :: l.
Proof.
  induction l as [|x l IH]; simpl; [done|].
  case_bool_decide; [done|]. rewrite IH. apply Permutation_swap.
Qed.

Lemma newest_first_Permutation l : newest_first l ≡ₚ l.
Proof.
  induction l as [|x l IH]; simpl; [done|].
  by rewrite insert_newest_Permutation, IH.
Qed.

Lemma newest_to_oldest_cons x l :
  newest_to_oldest (x :: l)
  ↔ Forall (λ b, Task.createdAt b <= Task.createdAt x) l ∧ newest_to_oldest l.
Proof.
  unfold newest_to_oldest. split.
  - intros H. split.
    + apply Forall_lookup. intros j b Hj. apply (H 0%nat (S j) x b); [lia|done..].
    + intros i j a b Hlt Hi Hj. apply (H (S i) (S j) a b); [lia|done..].
  - intros [Hall H] [|i] [|j] a b Hlt Hi Hj; simplify_eq/=; try lia.
    + eapply Forall_lookup_1 in Hall; [|exact Hj]. done.
    + apply (H i j a b); [lia|done..].
Qed.

Lemma insert_newest_sorted t l :
  newest_to_oldest l → newest_to_oldest (insert_newest t l).
Proof.
  induction l as [|x l IH]; simpl; intros Hl.
  - apply newest_to_oldest_cons. split; [constructor|]. by intros ? ? ? ? ? [=].
  - pose proof Hl as [Hall Hl']%newest_to_oldest_cons.
    case_bool_decide as Hlt.
    + apply newest_to_oldest_cons. split; [|done].
      constructor; [lia|]. eapply Forall_impl; [exact Hall|]. simpl. intros; lia.
    + apply newest_to_oldest_cons. split; [|by apply IH].
      rewrite insert_newest_Permutation. constructor; [lia|done].
Qed.

Lemma newest_first_sorted l : newest_to_oldest (newest_first l).
Proof.
  induction l as [|x l IH]; simpl.
  - by intros ? ? ? ? ? [=].
  - by apply insert_newest_sorted.
Qed.

Lemma populate_owner now db bearer db1 ui user si session t :
  authenticate now db bearer = Passed db1 ui user si session →
  Task.userId t = User._id user →
  populate db1 t = (t, Some (owner_view user)).
Proof.
  intros Hg Hu.
  apply authenticate_passed in Hg as (token & s & _ & _ & _ & Hfu & _ & ->).
  unfold populate. simpl. rewrite Hu.
  pose proof Hfu as (_ & Hid & _)%list_find_Some. rewrite Hid, Hfu. done.
Qed.

(** Every task that an answer shows belongs to the caller. *)
Lemma handle_task_answers now db tasks req user :
  caller now db (bearer_of_task req) = Some user →
  Forall (λ t, Task.userId t = User._id user ∧ (t ∈ tasks ∨ Task.updatedAt t = now))
    (tasks_in (t_answer (handle_task now db tasks req).2)).
Proof.
  unfold caller.
  destruct req as [b|b id|b body newId|b id body|b id]; simpl;
    unfold get_tasks, get_task, post_task, put_task, delete_task;
    destruct (authenticate now db b) as [db' r|db1 ui u si session] eqn:Hg;
    simpl; intros [= ->]; simpl.
  - rewrite <- list_fmap_compose. simpl.
    assert (fst ∘ populate db1 = id) as -> by done. rewrite list_fmap_id.
    rewrite newest_first_Permutation. apply Forall_forall.
    intros t [Hu Hin]%list_elem_of_filter. auto.
  - destruct (castObjectId id) as [oid|]; simpl; [|constructor].
    destruct (list_find _ tasks) as [[i task]|] eqn:Ef; simpl; [|constructor].
    apply list_find_Some in Ef as (Hi & [Hid Hu] & _).
    constructor; [|constructor]. split; [done|]. left. by eapply list_elem_of_lookup_2.
  - destruct (title_missing (b_title body)); simpl; [constructor|].
    destruct (status_of (b_status body)) as [st|]; simpl; [|constructor].
    destruct (Task.validate _ _); simpl; [|constructor].
    case_bool_decide; simpl; [constructor|].
    constructor; [|constructor]. split; [done|]. by right.
  - destruct (castObjectId id) as [oid|]; simpl; [|constructor].
    destruct (title_missing (b_title body)); simpl; [constructor|].
    destruct (status_of (b_status body)) as [st|]; simpl; [|constructor].
    destruct (Task.validate _ _); simpl; [|constructor].
    destruct (list_find _ tasks) as [[i task]|] eqn:Ef; simpl; [|constructor].
    apply list_find_Some in Ef as (Hi & [Hid Hu] & _).
    constructor; [|constructor]. split; [done|]. by right.
  - destruct (castObjectId id) as [oid|]; simpl; [|constructor].
    destruct (list_find _ tasks) as [[i task]|] eqn:Ef; simpl; [|constructor].
    apply list_find_Some in Ef as (Hi & [Hid Hu] & _).
    constructor; [|constructor]. split; [done|]. left. by eapply list_elem_of_lookup_2.
Qed.

(** X21.  The tasks of other accounts.  Whatever a task request is, it leaves
    the stored tasks of every account other than the caller's as they are,
    in their order, and its answer shows none of them; a request that the
    gate turns away changes no task and shows none.  The users and sessions
    after the request are those the gate leaves. *)
Theorem tasks_of_others_are_left_alone (now : Z) (db : Store) (tasks : list Task.t)
    (req : TaskRequest) (uid : string) :
  (∀ user, caller now db (bearer_of_task req) = Some user → User._id user ≠ uid) →
  let out := handle_task now db tasks req in
  filter (λ t, Task.userId t = uid) out.1.2 = filter (λ t, Task.userId t = uid) tasks
  ∧ Forall (λ t, Task.userId t ≠ uid) (tasks_in (t_answer out.2))
  ∧ out.1.1 = gate_store (authenticate now db (bearer_of_task req)).
Proof.
  intros Hother out.
  destruct (handle_task_writes now db tasks req) as [Hdb Hw]. fold out in Hdb, Hw.
  pose proof (handle_task_answers now db tasks req) as Ha. fold out in Ha.
  destruct (caller now db (bearer_of_task req)) as [user|] eqn:Hc.
  - split_and!; [| |done].
    + eapply task_write_others; [exact Hw|]. by apply Hother.
    + eapply Forall_impl; [by apply Ha|]. simpl. intros t [Hu _].
      rewrite Hu. by apply Hother.
  - destruct Hw as [-> Hst]. split_and!; [done| |done].
    unfold caller in Hc. unfold out.
    destruct req as [b|b id|b body newId|b id body|b id]; simpl in *;
      unfold get_tasks, get_task, post_task, put_task, delete_task;
      destruct (authenticate now db b); simplify_eq/=; constructor.
Qed.

Lemma tasks_of_others_are_left_alone_witness :
  let out := handle_task 1008000 registered.1 [bobs_task]
               (DeleteTask (Some first_access_token) bobs_task_id) in
  out.1.2 = [bobs_task] ∧ out.2 = task_failure 404 TASK_NOT_FOUND
  ∧ filter (λ t, Task.userId t = "u2") out.1.2 = [bobs_task].
Proof.
  intros out. split_and!; [reflexivity..|].
  assert (∀ user, caller 1008000 registered.1 (Some first_access_token) = Some user →
                  User._id user ≠ "u2") as Hother.
  { intros user Hc. vm_compute in Hc. injection Hc as <-. discriminate. }
  exact (proj1 (tasks_of_others_are_left_alone 1008000 registered.1 [bobs_task]
                  (DeleteTask (Some first_access_token) bobs_task_id) "u2" Hother)).
Defined.

(** ** What the collection of tasks keeps *)

Lemma task_write_sound now user tasks tasks' :
  task_write now user tasks tasks' →
  Forall task_sound tasks → Forall task_sound tasks'.
Proof.
  intros [|task _ Hs _ _ _|i task task' _ _ _ _ _ _ Hs|i task _ _] Hall.
  - done.
  - apply Forall_app. by split; [|constructor].
  - by apply Forall_insert.
  - by apply Forall_delete.
Qed.

Lemma task_write_ids now user tasks tasks' :
  task_write now user tasks tasks' →
  NoDup (Task._id <$> tasks) → NoDup (Task._id <$> tasks').
Proof.
  intros [|task _ _ Hfresh _ _|i task task' Hi _ Hid _ _ _ _|i task _ _] Hnd.
  - done.
  - rewrite fmap_app. apply NoDup_app. split_and!; [done| |apply NoDup_singleton].
    intros x Hx ->%list_elem_of_singleton. done.
  - rewrite list_fmap_insert, Hid, list_insert_id; [done|].
    by rewrite list_lookup_fmap, Hi.
  - rewrite list_fmap_delete. eapply sublist_NoDup; [exact Hnd|]. apply sublist_delete.
Qed.

Lemma handle_task_keeps now db tasks req :
  Forall task_sound tasks ∧ NoDup (Task._id <$> tasks) →
  Forall task_sound (handle_task now db tasks req).1.2
  ∧ NoDup (Task._id <$> (handle_task now db tasks req).1.2).
Proof.
  intros [Hs Hnd].
  destruct (handle_task_writes now db tasks req) as [_ Hw].
  destruct (caller now db (bearer_of_task req)) as [user|].
  - split; [by eapply task_write_sound|by eapply task_write_ids].
  - destruct Hw as [-> _]. done.
Qed.

Lemma run_tasks_keeps trace : ∀ db tasks,
  Forall task_sound tasks ∧ NoDup (Task._id <$> tasks) →
  Forall task_sound (run_tasks db tasks trace).2
  ∧ NoDup (Task._id <$> (run_tasks db tasks trace).2).
Proof.
  induction trace as [|[now req] trace IH]; intros db tasks H; simpl; [done|].
  apply IH. by apply handle_task_keeps.
Qed.

(** X22.  What the collection of tasks keeps.  Over any trace of task requests,
    every stored task keeps a title that is not empty, neither starts nor
    ends with white space and has at most 200 code units, and a description
    of at most 1000 code units; and no two stored tasks share an id. *)
Theorem stored_tasks_stay_sound (db : Store) (tasks : list Task.t)
    (trace : list (Z * TaskRequest)) :
  Forall task_sound tasks → NoDup (Task._id <$> tasks) →
  Forall task_sound (run_tasks db tasks trace).2
  ∧ NoDup (Task._id <$> (run_tasks db tasks trace).2).
Proof. intros Hs Hnd. by apply run_tasks_keeps. Qed.

Lemma bobs_task_sound : task_sound bobs_task.
Proof.
  unfold task_sound. split_and!.
  - intros H. vm_compute in H. discriminate.
  - intros c Hc. vm_compute in Hc. injection Hc as <-. reflexivity.
  - intros c Hc. vm_compute in Hc. injection Hc as <-. reflexivity.
  - apply Nat.leb_le. reflexivity.
  - apply Nat.leb_le. reflexivity.
Qed.

Lemma stored_tasks_stay_sound_witness :
  Forall task_sound (run_tasks registered.1 [bobs_task] alices_day).2
  ∧ NoDup (Task._id <$> (run_tasks registered.1 [bobs_task] alices_day).2).
Proof.
  apply stored_tasks_stay_sound.
  - constructor; [apply bobs_task_sound|constructor].
  - simpl. apply NoDup_singleton.
Defined.

(** ** The routes that read *)

(** X23.  The list of tasks.  For a caller that passes the gate, [GET /tasks]
    answers 200 with the stored tasks of the caller, each one of them once
    and no other, newest first, each shown with the caller as its owner;
    the collection is left as it is.  A caller that the gate turns away gets
    the answer of the gate and no task. *)
Theorem task_list_is_the_callers (now : Z) (db : Store) (tasks : list Task.t)
    (bearer : option AccessToken) :
  let out := get_tasks now db tasks bearer in
  out.1.2 = tasks
  ∧ match caller now db bearer with
    | Some user =>
        ∃ l, out.2 = {| t_status := 200; t_answer := Listed l |}
             ∧ fst <$> l ≡ₚ filter (λ t, Task.userId t = User._id user) tasks
             ∧ newest_to_oldest (fst <$> l)
             ∧ Forall (λ p, p.2 = Some (owner_view user)) l
    | None => ∃ r, out.2 = refuse r ∧ status r = 401
    end.
Proof.
  unfold get_tasks, caller.
  destruct (authenticate now db bearer) as [db' r|db1 ui user si session] eqn:Hg; simpl.
  - split; [done|]. exists r. split; [done|]. by eapply authenticate_rejected_status.
  - split; [done|]. eexists. split; [done|].
    rewrite <- list_fmap_compose.
    assert (fst ∘ populate db1 = id) as -> by done. rewrite list_fmap_id.
    split_and!.
    + apply newest_first_Permutation.
    + apply newest_first_sorted.
    + apply Forall_fmap, Forall_forall. intros t Ht.
      rewrite newest_first_Permutation in Ht.
      apply list_elem_of_filter in Ht as [Hu _]. unfold compose.
      by rewrite (populate_owner _ _ _ _ _ _ _ _ _ Hg Hu).
Qed.

(** X24.  One task.  [GET /tasks/:id] answers 400 for an id that is not 24
    hexadecimal digits, whoever owns what; otherwise it answers 200 exactly
    when a stored task has that id (in either case of the digits) and
    belongs to the caller, and then shows that task; a task of another
    account gets the 404 of a task that does not exist.  The collection is
    left as it is. *)
Theorem task_is_shown_to_its_owner (now : Z) (db : Store) (tasks : list Task.t)
    (bearer : option AccessToken) (id : string) (user : User.t) :
  caller now db bearer = Some user →
  let out := get_task now db tasks bearer id in
  out.1.2 = tasks
  ∧ match castObjectId id with
    | None => out.2 = task_failure 400 INVALID_TASK_ID
    | Some oid =>
        (t_status out.2 = 200
         ↔ ∃ t, t ∈ tasks ∧ Task._id t = oid ∧ Task.userId t = User._id user)
        ∧ (t_status out.2 = 200 →
           ∃ t, out.2 = {| t_status := 200;
                           t_answer := Shown (t, Some (owner_view user)) |}
                ∧ t ∈ tasks ∧ Task._id t = oid ∧ Task.userId t = User._id user)
        ∧ (t_status out.2 ≠ 200 → out.2 = task_failure 404 TASK_NOT_FOUND)
    end.
Proof.
  unfold get_task, caller.
  destruct (authenticate now db bearer) as [db' r|db1 ui u si session] eqn:Hg;
    [done|]. intros [= ->].
  destruct (castObjectId id) as [oid|]; simpl; [|done].
  destruct (list_find _ tasks) as [[i task]|] eqn:Ef; simpl.
  - apply list_find_Some in Ef as (Hi & [Hid Hu] & _).
    assert (task ∈ tasks) by (by eapply list_elem_of_lookup_2).
    split; [done|]. split_and!; [|intros _|done].
    + split; [intros _|done]. by exists task.
    + exists task. by rewrite (populate_owner _ _ _ _ _ _ _ _ _ Hg Hu).
  - split; [done|]. split_and!; [|done..].
    split; [done|]. intros (t & Hin & Hid & Hu).
    eapply list_find_None, Forall_forall in Ef; [|exact Hin]. by destruct Ef.
Qed.

Lemma task_is_shown_to_its_owner_witness :
  let out := get_task 1008000 registered.1 [bobs_task] (Some first_access_token)
               bobs_task_id in
  caller 1008000 registered.1 (Some first_access_token) = Some alice_registered
  ∧ castObjectId bobs_task_id = Some (Task._id bobs_task)
  ∧ out.1.2 = [bobs_task]
  ∧ out.2 = task_failure 404 TASK_NOT_FOUND.
Proof.
  intros out.
  assert (caller 1008000 registered.1 (Some first_access_token) = Some alice_registered)
    as Hc by reflexivity.
  assert (castObjectId bobs_task_id = Some (Task._id bobs_task)) as Hid by reflexivity.
  destruct (task_is_shown_to_its_owner 1008000 registered.1 [bobs_task]
              (Some first_access_token) bobs_task_id alice_registered Hc) as [Hsame H].
  rewrite Hid in H. destruct H as (_ & _ & H404).
  split_and!; [exact Hc|exact Hid|exact Hsame|].
  apply H404. intros Hst. vm_compute in Hst. discriminate.
Defined.

(** ** The routes that write *)

Lemma filter_all {A} (P : A → Prop) `{!∀ x, Decision (P x)} (l : list A) :
  Forall P l → filter P l = l.
Proof.
  induction 1 as [|x l Hx Hl IH]; [done|]. by rewrite filter_cons_True, IH.
Qed.

Lemma delete_keyed {A B} `{EqDecision B} (f : A → B) (l : list A) i x :
  NoDup (f <$> l) → l !! i = Some x →
  delete i l = filter (λ y, f y ≠ f x) l.
Proof.
  revert i. induction l as [|a l IH]; intros [|i] Hnd Hi; simplify_eq/=.
  - apply NoDup_cons in Hnd as [Hnotin _].
    rewrite filter_cons_False by (intros H; by apply H).
    symmetry. apply filter_all, Forall_forall. intros y Hy Heq.
    apply Hnotin. rewrite <- Heq. apply list_elem_of_fmap. by exists y.
  - apply NoDup_cons in Hnd as [Hnotin Hnd].
    rewrite filter_cons_True.
    + f_equal. by apply IH.
    + intros Heq. apply Hnotin. rewrite Heq. apply list_elem_of_fmap.
      exists x. split; [done|]. by eapply list_elem_of_lookup_2.
Qed.

(** X25.  Deleting a task.  With distinct ids in the collection and a caller
    that passes the gate, [DELETE /tasks/:id] with an id of 24 hexadecimal
    digits either finds a task with that id that belongs to the caller,
    answers 200 with it and leaves the collection without exactly that task,
    the others in their order; or it answers 404 and leaves the collection
    as it is, which is what happens for a task of another account.  An id of
    another shape is answered 400 and changes nothing. *)
Theorem deleted_task_is_the_callers (now : Z) (db : Store) (tasks : list Task.t)
    (bearer : option AccessToken) (id : string) (user : User.t) :
  caller now db bearer = Some user →
  NoDup (Task._id <$> tasks) →
  let out := delete_task now db tasks bearer id in
  match castObjectId id with
  | None => out.1.2 = tasks ∧ out.2 = task_failure 400 INVALID_TASK_ID
  | Some oid =>
      (∃ t, t ∈ tasks ∧ Task._id t = oid ∧ Task.userId t = User._id user
            ∧ out.2 = {| t_status := 200; t_answer := Deleted t |}
            ∧ out.1.2 = filter (λ t', Task._id t' ≠ oid) tasks
            ∧ length out.1.2 = pred (length tasks))
      ∨ ((∀ t, t ∈ tasks → Task._id t = oid → Task.userId t ≠ User._id user)
         ∧ out.2 = task_failure 404 TASK_NOT_FOUND ∧ out.1.2 = tasks)
  end.
Proof.
  unfold delete_task, caller.
  destruct (authenticate now db bearer) as [db' r|db1 ui u si session] eqn:Hg;
    [done|]. intros [= ->] Hnd.
  destruct (castObjectId id) as [oid|]; simpl; [|done].
  destruct (list_find _ tasks) as [[i task]|] eqn:Ef; simpl.
  - left. apply list_find_Some in Ef as (Hi & [Hid Hu] & _).
    exists task. split_and!; try done.
    + by eapply list_elem_of_lookup_2.
    + rewrite <- Hid. by apply (delete_keyed Task._id).
    + rewrite length_delete; [lia|done].
  - right. split_and!; [|done..].
    intros t Hin Hid Hu.
    eapply list_find_None, Forall_forall in Ef; [|exact Hin]. by apply Ef.
Qed.

Lemma deleted_task_is_the_callers_witness :
  let out := delete_task 1010000 task_posted.1.1 task_posted.1.2
               (Some first_access_token) "65abcdef0123456789abcde0" in
  t_status out.2 = 200 ∧ out.1.2 = [bobs_task].
Proof.
  intros out.
  assert (caller 1010000 task_posted.1.1 (Some first_access_token)
          = Some alice_registered) as Hc by reflexivity.
  assert (NoDup (Task._id <$> task_posted.1.2)) as Hnd.
  { remember (Task._id <$> task_posted.1.2) as l eqn:E. vm_compute in E. subst l.
    apply NoDup_cons. split; [|apply NoDup_singleton].
    intros [=]%list_elem_of_singleton. }
  pose proof (deleted_task_is_the_callers 1010000 task_posted.1.1 task_posted.1.2
                (Some first_access_token) "65abcdef0123456789abcde0"
                alice_registered Hc Hnd) as H.
  change (castObjectId "65abcdef0123456789abcde0") with (Some alices_task_id) in H.
  destruct H as [(t & _ & _ & _ & Hout & Htasks & _)|(_ & H404 & _)].
  - fold out in Hout, Htasks. split; [by rewrite Hout|].
    rewrite Htasks. reflexivity.
  - vm_compute in H404. discriminate.
Defined.

(** X26.  Creating a task.  For a caller that passes the gate, [POST /tasks]
    answers 201 exactly when the title is present and not only white space,
    the status is absent, empty or one of the three names, the trimmed title
    has at most 200 code units and the trimmed description at most 1000, and
    the id drawn is not stored.  It then appends one task of the caller with
    the trimmed texts, the status (To Do when none is given) and the instant
    of the request as both stamps, and shows it; any other answer leaves the
    collection as it is. *)
Theorem posted_task_is_stored_trimmed (now : Z) (db : Store) (tasks : list Task.t)
    (bearer : option AccessToken) (body : TaskBody) (newId : ObjectId) (user : User.t) :
  caller now db bearer = Some user →
  let out := post_task now db tasks bearer body newId in
  let title := trim (default [] (b_title body)) in
  let description := description_of (b_description body) in
  (t_status out.2 = 201
   ↔ title ≠ [] ∧ is_Some (status_of (b_status body))
     ∧ (length title ≤ 200)%nat ∧ (length description ≤ 1000)%nat
     ∧ (newId ∉ (Task._id <$> tasks)))
  ∧ (t_status out.2 = 201 →
     ∃ st, status_of (b_status body) = Some st
       ∧ (b_status body = None → st = ToDo)
       ∧ let task := {| Task._id := newId; Task.userId := User._id user;
                        Task.title := title; Task.description := description;
                        Task.status := st;
                        Task.createdAt := now; Task.updatedAt := now |} in
         out.1.2 = tasks ++ [task]
         ∧ out.2 = {| t_status := 201;
                      t_answer := Shown (task, Some (owner_view user)) |})
  ∧ (t_status out.2 ≠ 201 → out.1.2 = tasks).
Proof.
  unfold post_task, caller.
  destruct (authenticate now db bearer) as [db' r|db1 ui u si session] eqn:Hg;
    [done|]. intros [= ->]. simpl.
  assert (title_missing (b_title body) = true
          ↔ trim (default [] (b_title body)) = []) as Hmiss.
  { destruct (b_title body) as [[|c s]|]; simpl; try done.
    apply bool_decide_eq_true. }
  destruct (title_missing (b_title body)) eqn:Ht; simpl.
  { split_and!; [|done..]. split; [done|]. intros [Hne _]. destruct Hne. by apply Hmiss. }
  assert (trim (default [] (b_title body)) ≠ []) as Hne.
  { intros He. apply Hmiss in He. done. }
  destruct (status_of (b_status body)) as [st|] eqn:Hst; simpl.
  2: { split_and!; [|done..]. split; [done|]. by intros (_ & [? ?] & _). }
  unfold Task.validate.
  case_bool_decide as Hlt; simpl.
  2: { split_and!; [|done..]. split; [done|]. intros (_ & _ & Hl & _).
       destruct Hlt. split; [|done].
       destruct (trim (default [] (b_title body))); [done|simpl; lia]. }
  case_bool_decide as Hld; simpl.
  2: { split_and!; [|done..]. split; [done|]. by intros (_ & _ & _ & Hl & _). }
  case_bool_decide as Hid; simpl.
  { split_and!; [|done..]. split; [done|]. by intros (_ & _ & _ & _ & Hn). }
  split_and!; [|intros _|done].
  - split; [intros _|done]. destruct Hlt. split_and!; eauto.
  - exists st. split_and!; try done.
    + intros Hb. rewrite Hb in Hst. by injection Hst as <-.
    + by rewrite (populate_owner now db bearer db1 ui user si session).
Qed.

Lemma posted_task_is_stored_trimmed_witness :
  caller 1005000 registered.1 (Some first_access_token) = Some alice_registered
  ∧ t_status task_posted.2 = 201
  ∧ Task.title <$> task_posted.1.2 = [units "water the plants"; units "buy milk"]
  ∧ Task.status <$> task_posted.1.2 = [ToDo; InProgress].
Proof.
  assert (caller 1005000 registered.1 (Some first_access_token) = Some alice_registered)
    as Hc by reflexivity.
  destruct (posted_task_is_stored_trimmed 1005000 registered.1 [bobs_task]
              (Some first_access_token) buy_milk alices_task_id alice_registered Hc)
    as (Hiff & Hstored & _).
  assert (t_status task_posted.2 = 201) as Hst.
  { apply Hiff. split_and!.
    - intros H. vm_compute in H. discriminate.
    - by eexists.
    - apply Nat.leb_le. reflexivity.
    - apply Nat.leb_le. reflexivity.
    - simpl. intros [=]%list_elem_of_singleton. }
  destruct (Hstored Hst) as (st & Hstatus & _ & Htasks & _).
  injection Hstatus as <-.
  split_and!; [exact Hc|exact Hst|..]; unfold task_posted; rewrite Htasks; reflexivity.
Defined.

(** X27.  Updating a task.  For a caller that passes the gate, [PUT /tasks/:id]
    never changes the number of tasks nor the id, the owner or the creation
    time of any of them.  When it answers 200 it has replaced the texts, the
    status and [updatedAt] of one task of the caller that has the id of the
    request: the texts by the trimmed ones of the body, a description that
    is absent by the empty text, and a status that is absent by To Do.  Any
    other answer leaves the collection as it is. *)
Theorem updated_task_keeps_its_identity (now : Z) (db : Store) (tasks : list Task.t)
    (bearer : option AccessToken) (id : string) (body : TaskBody) (user : User.t) :
  caller now db bearer = Some user →
  let out := put_task now db tasks bearer id body in
  (t_status out.2 = 200 →
   ∃ i task st,
     tasks !! i = Some task
     ∧ castObjectId id = Some (Task._id task)
     ∧ Task.userId task = User._id user
     ∧ status_of (b_status body) = Some st
     ∧ (b_status body = None → st = ToDo)
     ∧ (b_description body = None → description_of (b_description body) = [])
     ∧ let task' := {| Task._id := Task._id task; Task.userId := Task.userId task;
                       Task.title := trim (default [] (b_title body));
                       Task.description := description_of (b_description body);
                       Task.status := st;
                       Task.createdAt := Task.createdAt task;
                       Task.updatedAt := now |} in
       out.1.2 = <[i := task']> tasks
       ∧ out.2 = {| t_status := 200;
                    t_answer := Shown (task', Some (owner_view user)) |})
  ∧ (t_status out.2 ≠ 200 → out.1.2 = tasks)
  ∧ length out.1.2 = length tasks
  ∧ Task._id <$> out.1.2 = Task._id <$> tasks
  ∧ Task.userId <$> out.1.2 = Task.userId <$> tasks
  ∧ Task.createdAt <$> out.1.2 = Task.createdAt <$> tasks.
Proof.
  unfold put_task, caller.
  destruct (authenticate now db bearer) as [db' r|db1 ui u si session] eqn:Hg;
    [done|]. intros [= ->]. simpl.
  destruct (castObjectId id) as [oid|]; simpl; [|done].
  destruct (title_missing (b_title body)); simpl; [done|].
  destruct (status_of (b_status body)) as [st|] eqn:Hst; simpl; [|done].
  destruct (Task.validate _ _); simpl; [|done].
  destruct (list_find _ tasks) as [[i task]|] eqn:Ef; simpl; [|done].
  apply list_find_Some in Ef as (Hi & [Hid Hu] & _).
  assert (∀ {B} (f : Task.t → B) t', f t' = f task →
            f <$> <[i := t']> tasks = f <$> tasks) as Hkeep.
  { intros B f t' Hf. rewrite list_fmap_insert, Hf, list_insert_id; [done|].
    by rewrite list_lookup_fmap, Hi. }
  split_and!; [intros _|done|by rewrite length_insert|by apply Hkeep..].
  exists i, task, st. split_and!; try done.
  - by rewrite Hid.
  - intros Hb. rewrite Hb in Hst. by injection Hst as <-.
  - by intros ->.
  - unfold Task.update.
    rewrite (populate_owner now db bearer db1 ui user si session); done.
Qed.

Lemma updated_task_keeps_its_identity_witness :
  let out := put_task 1006000 task_posted.1.1 task_posted.1.2
               (Some first_access_token) "65ABCDEF0123456789abcde0"
               {| b_title := Some (units "buy oat milk");
                  b_description := Some (units " two cartons ");
                  b_status := None |} in
  caller 1006000 task_posted.1.1 (Some first_access_token) = Some alice_registered
  ∧ t_status out.2 = 200
  ∧ Task._id <$> out.1.2 = Task._id <$> task_posted.1.2
  ∧ Task.status <$> out.1.2 = [ToDo; ToDo].
Proof.
  intros out.
  assert (caller 1006000 task_posted.1.1 (Some first_access_token)
          = Some alice_registered) as Hc by reflexivity.
  destruct (updated_task_keeps_its_identity 1006000 task_posted.1.1 task_posted.1.2
              (Some first_access_token) "65ABCDEF0123456789abcde0"
              {| b_title := Some (units "buy oat milk");
                 b_description := Some (units " two cartons ");
                 b_status := None |} alice_registered Hc)
    as (_ & _ & _ & Hids & _).
  split_and!; [exact Hc|reflexivity|exact Hids|reflexivity].
Defined.

(** ** A task from its creation to its removal *)

Lemma list_find_appended {A} (P : A → Prop) `{!∀ x, Decision (P x)} (l : list A) x :
  Forall (λ y, ¬ P y) l → P x → list_find P (l ++ [x]) = Some (length l, x).
Proof.
  intros Hl Hx. apply list_find_Some. split_and!.
  - by rewrite lookup_app_r, Nat.sub_diag.
  - done.
  - intros j y Hj Hlt. rewrite lookup_app_l in Hj by done.
    by eapply Forall_lookup_1 in Hl.
Qed.

(** X28.  A task from its creation to its removal.  After a [POST /tasks]
    answered 201, a later request that carries the id of the new task as 24
    hexadecimal digits, from a caller that passes the gate: if the caller is
    the account that created the task, [GET /tasks/:id] shows the task with
    the trimmed title, and [DELETE /tasks/:id] answers 200 and leaves the
    collection exactly as it was before the creation; if the caller is
    another account, both answer 404 and the task stays. *)
Theorem posted_task_round_trip (now : Z) (db : Store) (tasks : list Task.t)
    (bearer : option AccessToken) (body : TaskBody) (newId : ObjectId) (user : User.t)
    (now' : Z) (db' : Store) (bearer' : option AccessToken) (id : string)
    (user' : User.t) :
  caller now db bearer = Some user →
  t_status (post_task now db tasks bearer body newId).2 = 201 →
  caller now' db' bearer' = Some user' →
  castObjectId id = Some newId →
  let tasks1 := (post_task now db tasks bearer body newId).1.2 in
  (User._id user' = User._id user →
   (∃ task, (get_task now' db' tasks1 bearer' id).2
            = {| t_status := 200; t_answer := Shown (task, Some (owner_view user')) |}
            ∧ Task._id task = newId
            ∧ Task.title task = trim (default [] (b_title body))
            ∧ (delete_task now' db' tasks1 bearer' id).2
              = {| t_status := 200; t_answer := Deleted task |})
   ∧ (delete_task now' db' tasks1 bearer' id).1.2 = tasks)
  ∧ (User._id user' ≠ User._id user →
     (get_task now' db' tasks1 bearer' id).2 = task_failure 404 TASK_NOT_FOUND
     ∧ (delete_task now' db' tasks1 bearer' id).2 = task_failure 404 TASK_NOT_FOUND
     ∧ (delete_task now' db' tasks1 bearer' id).1.2 = tasks1).
Proof.
  intros Hc Hst Hc' Hid tasks1.
  assert (∃ task, tasks1 = tasks ++ [task]
                  ∧ Task._id task = newId ∧ Task.userId task = User._id user
                  ∧ Task.title task = trim (default [] (b_title body))
                  ∧ newId ∉ (Task._id <$> tasks)) as (task & Ht1 & Htid & Htu & Htt & Hfresh).
  { revert Hst. unfold tasks1, post_task. revert Hc. unfold caller.
    destruct (authenticate now db bearer) as [?|db1 ui u si session]; [done|].
    intros [= ->]. simpl.
    destruct (title_missing (b_title body)); simpl; [done|].
    destruct (status_of (b_status body)) as [st|]; simpl; [|done].
    destruct (Task.validate _ _); simpl; [|done].
    case_bool_decide as Hfresh; simpl; [done|]. intros _. by eexists. }
  clearbody tasks1. subst tasks1.
  assert (Forall (λ y, ¬ own_task newId user' y) tasks) as Hnone.
  { apply Forall_forall. intros y Hy [Hyid _]. apply Hfresh.
    rewrite <- Hyid. apply list_elem_of_fmap. by exists y. }
  unfold get_task, delete_task. revert Hc'. unfold caller.
  destruct (authenticate now' db' bearer') as [?|db1' ui' u' si' session'] eqn:Hg';
    [done|]. intros [= ->]. rewrite Hid. simpl.
  split.
  - intros Hsame.
    rewrite (list_find_appended (own_task newId user') tasks task Hnone)
      by (split; [done|congruence]).
    simpl. split.
    + exists task. split_and!; try done.
      rewrite (populate_owner now' db' bearer' db1' ui' user' si' session'); [done..|].
      congruence.
    + by rewrite delete_middle, app_nil_r.
  - intros Hother.
    assert (list_find (own_task newId user') (tasks ++ [task]) = None) as ->.
    { apply list_find_None, Forall_app. split; [done|].
      constructor; [|constructor]. intros [_ Hu]. congruence. }
    done.
Qed.

Lemma posted_task_round_trip_witness :
  let tasks1 := task_posted.1.2 in
  (delete_task 1010000 task_posted.1.1 tasks1 (Some first_access_token)
     "65abcdef0123456789abcde0").1.2 = [bobs_task].
Proof.
  intros tasks1.
  assert (caller 1005000 registered.1 (Some first_access_token) = Some alice_registered)
    as Hc by reflexivity.
  assert (caller 1010000 task_posted.1.1 (Some first_access_token)
          = Some alice_registered) as Hc' by reflexivity.
  assert (t_status task_posted.2 = 201) as Hst by reflexivity.
  assert (castObjectId "65abcdef0123456789abcde0" = Some alices_task_id) as Hid
    by reflexivity.
  destruct (posted_task_round_trip 1005000 registered.1 [bobs_task]
              (Some first_access_token) buy_milk alices_task_id alice_registered
              1010000 task_posted.1.1 (Some first_access_token)
              "65abcdef0123456789abcde0" alice_registered Hc Hst Hc' Hid)
    as [Hown _].
  exact (proj2 (Hown eq_refl)).
Defined.

(** ** From the form to the collection *)

Lemma trimStart_id s :
  (∀ c, head s = Some c → is_space c = false) → trimStart s = s.
Proof. destruct s as [|c s]; simpl; [done|]. intros H. by rewrite (H c). Qed.

Lemma trimEnd_id s :
  (∀ c, last s = Some c → is_space c = false) → trimEnd s = s.
Proof.
  intros H. unfold trimEnd. rewrite trimStart_id, reverse_involutive; [done|].
  intros c. rewrite head_reverse. apply H.
Qed.

Lemma trim_trim s : trim (trim s) = trim s.
Proof.
  unfold trim at 1. rewrite (trimStart_id (trim s)) by apply trim_head.
  apply trimEnd_id, trim_last.
Qed.

Lemma status_of_option s : s ∈ statusOptions → is_Some (status_of (Some s)).
Proof.
  unfold statusOptions. rewrite !elem_of_cons, elem_of_nil.
  intros [->|[->|[->|[]]]]; by eexists.
Qed.

(** X29.  From the form to the collection.  What [validateForm] accepts, sent
    as [handleSubmit] builds it with a status of the form's options, by a
    caller that passes the gate and with an id that is not stored, is
    answered 201 by [POST /tasks] and stored with the title and the
    description trimmed once, provided the trimmed title has at most 200
    code units: the form checks that the title has at least three and the
    description at most 500, and puts no bound on the length of the title. *)
Theorem accepted_form_is_stored (now : Z) (db : Store) (tasks : list Task.t)
    (bearer : option AccessToken) (formData : FormData) (newId : ObjectId)
    (user : User.t) :
  caller now db bearer = Some user →
  validateForm formData = true →
  f_status formData ∈ statusOptions →
  (length (trim (f_title formData)) ≤ 200)%nat →
  newId ∉ (Task._id <$> tasks) →
  let out := post_task now db tasks bearer (taskData formData) newId in
  t_status out.2 = 201
  ∧ ∃ task, out.1.2 = tasks ++ [task]
            ∧ Task._id task = newId ∧ Task.userId task = User._id user
            ∧ Task.title task = trim (f_title formData)
            ∧ (3 ≤ length (Task.title task))%nat
            ∧ Task.description task = trim (f_description formData)
            ∧ (length (Task.description task) ≤ 500)%nat
            ∧ status_of (Some (f_status formData)) = Some (Task.status task).
Proof.
  intros Hc Hv Hopt Hlen Hfresh.
  apply bool_decide_eq_true in Hv as [Ht Hd]. unfold newErrors in Ht, Hd. simpl in Ht, Hd.
  destruct (decide (trim (f_title formData) = [])) as [He|Hne];
    [by rewrite bool_decide_eq_true_2 in Ht|].
  rewrite (bool_decide_eq_false_2 _ Hne) in Ht.
  destruct (decide (length (trim (f_title formData)) < 3)%nat) as [Hs|H3];
    [by rewrite bool_decide_eq_true_2 in Ht|].
  destruct (decide (f_description formData ≠ []
                    ∧ (500 < length (f_description formData))%nat)) as [Hl|H500];
    [by rewrite bool_decide_eq_true_2 in Hd|].
  clear Ht Hd.
  assert (length (trim (f_description formData)) ≤ 500)%nat as Hdlen.
  { etrans; [apply trim_length|].
    destruct (f_description formData) as [|c d] eqn:E; [simpl; lia|].
    destruct (decide (500 < length (c :: d))%nat) as [Hgt|]; [|lia].
    destruct H500. split; [discriminate|exact Hgt]. }
  destruct (status_of_option _ Hopt) as [st Hst].
  revert Hc. unfold post_task, caller.
  destruct (authenticate now db bearer) as [?|db1 ui u si session] eqn:Hg; [done|].
  intros [= ->]. unfold taskData.
  cbn [b_title b_description b_status default from_option description_of].
  unfold id.
  assert (title_missing (Some (trim (f_title formData))) = false) as Htm.
  { destruct (trim (f_title formData)) as [|c t] eqn:E; [done|]. simpl.
    rewrite <- E, trim_trim, E. by apply bool_decide_eq_false. }
  rewrite Htm, Hst, !trim_trim.
  unfold Task.validate.
  rewrite (bool_decide_eq_true_2 (1 ≤ _ ∧ _ ≤ 200)%nat) by lia.
  rewrite (bool_decide_eq_true_2 (_ ≤ 1000)%nat) by lia.
  rewrite (bool_decide_eq_false_2 (newId ∈ _)) by done. simpl.
  split; [done|]. eexists. split; [done|]. simpl. split_and!; try done. lia.
Qed.

Lemma accepted_form_is_stored_witness :
  let out := post_task 1005000 registered.1 [bobs_task] (Some first_access_token)
               (taskData typed) alices_task_id in
  t_status out.2 = 201
  ∧ ∃ task, out.1.2 = [bobs_task] ++ [task]
            ∧ Task._id task = alices_task_id ∧ Task.userId task = User._id alice_registered
            ∧ Task.title task = trim (f_title typed)
            ∧ (3 ≤ length (Task.title task))%nat
            ∧ Task.description task = trim (f_description typed)
            ∧ (length (Task.description task) ≤ 500)%nat
            ∧ status_of (Some (f_status typed)) = Some (Task.status task).
Proof.
  apply (accepted_form_is_stored 1005000 registered.1 [bobs_task]
           (Some first_access_token) typed alices_task_id alice_registered).
  - reflexivity.
  - reflexivity.
  - unfold statusOptions. rewrite !elem_of_cons. right. right. by left.
  - apply Nat.leb_le. reflexivity.
  - simpl. intros [=]%list_elem_of_singleton.
Defined.
